(** * Group management of the account manager (management/server/group.go)

    A shallow embedding of the group operations of the management server:
    [SaveGroups], [DeleteGroups], [GroupAddPeer], [GroupDeletePeer], the
    deletion validation and the impact predicate
    [areGroupChangesAffectPeers], over a model of the entity store. *)

From stdpp Require Import gmap strings list fin_maps pretty.

Local Open Scope string_scope.
Local Open Scope list_scope.
Local Open Scope stdpp_scope.

Set Warnings "-register-all".

(** ** Errors *)

(** The calls of the store that the group code makes. A store failure names
    the call that failed. *)
Inductive StoreOp :=
| OpGetUserByUserID | OpGetGroupByID | OpGetGroupByName
| OpGetPeerByID | OpGetPeersByIDs
| OpGetAccountRoutes | OpGetAccountPolicies | OpGetAccountNameServerGroups
| OpGetAccountSetupKeys | OpGetAccountUsers
| OpGetAccountDNSSettings | OpGetAccountSettings
| OpIncrementNetworkSerial | OpSaveGroups | OpSaveGroup | OpDeleteGroups
| OpCommit.

(** Modelled from the spec: the [status] package is not in the sources; its
    error kinds are the taxonomy of the spec's error handling design. *)
Inductive StatusType :=
| NotFound | InvalidArgument | AlreadyExists | PermissionDenied
| UserNotPartOfAccount | StoreFailure.

(** Go's [error] values of this file: a [status] error with its message, the
    [GroupLinkError] struct declared in group.go, and the value that
    [errors.Join] builds. *)
Inductive error :=
| StatusError (t : StatusType) (msg : string)
| StoreError (op : StoreOp)
| GroupLinkError (Resource Name : string)
| joinError (errs : list error).

Definition status_Errorf (t : StatusType) (msg : string) : error :=
  StatusError t msg.

(** Modelled from the spec: [status.NewUserNotPartOfAccountError] and
    [status.NewAdminPermissionError] are not in the sources; the spec names the
    kinds they carry, [UserNotPartOfAccount] and [PermissionDenied]. *)
Definition NewUserNotPartOfAccountError : error :=
  StatusError UserNotPartOfAccount "user is not part of this account".

Definition NewAdminPermissionError : error :=
  StatusError PermissionDenied "admin role required to perform this action".

(** [errors.Join]: nil arguments are dropped; the result is nil when none is
    left, and otherwise wraps the remaining errors in order. *)
Definition errors_Join (errs : list (option error)) : option error :=
  match omap id errs with
  | [] => None
  | l => Some (joinError l)
  end.

(** The errors a joined error was built from, in order, with nested joins
    opened up ([errors.Join (errors.Join a b) c] holds a, b, c). *)
Fixpoint error_leaves (e : error) : list error :=
  match e with
  | joinError errs => (fix go (l : list error) : list error :=
                         match l with
                         | [] => []
                         | x :: l' => error_leaves x ++ go l'
                         end) errs
  | _ => [e]
  end.

Definition option_error_leaves (oe : option error) : list error :=
  match oe with
  | None => []
  | Some e => error_leaves e
  end.

Inductive Result (A : Type) :=
| Ok (a : A)
| Err (e : error).
Arguments Ok {A} a.
Arguments Err {A} e.

(** ** Entities *)

Inductive LockingStrength := LockingStrengthShare | LockingStrengthUpdate.

Inductive GroupIssued :=
| GroupIssuedAPI | GroupIssuedIntegration | GroupIssuedJWT.

Global Instance GroupIssued_eq_dec : EqDecision GroupIssued.
Proof. solve_decision. Defined.

Definition GroupIssued_String (i : GroupIssued) : string :=
  match i with
  | GroupIssuedAPI => "api"
  | GroupIssuedIntegration => "integration"
  | GroupIssuedJWT => "jwt"
  end.

Record Group := mkGroup {
  Group_ID : string;
  Group_AccountID : string;
  Group_Name : string;
  Group_Issued : GroupIssued;
  Group_Peers : list string
}.

Record Peer := mkPeer {
  Peer_ID : string;
  Peer_IP : string;
  Peer_DNSLabel : string
}.

Record PolicyRule := mkPolicyRule {
  Rule_Enabled : bool;
  Rule_Sources : list string;
  Rule_Destinations : list string
}.

Record Policy := mkPolicy {
  Policy_Name : string;
  Policy_Enabled : bool;
  Policy_Rules : list PolicyRule
}.

Record Route := mkRoute {
  Route_NetID : string;
  Route_Groups : list string;
  Route_PeerGroups : list string
}.

Record NameServerGroup := mkNameServerGroup {
  NSGroup_Name : string;
  NSGroup_Groups : list string
}.

Record SetupKey := mkSetupKey {
  SetupKey_Name : string;
  SetupKey_AutoGroups : list string
}.

Inductive UserRole := UserRoleAdmin | UserRoleUser.

Global Instance UserRole_eq_dec : EqDecision UserRole.
Proof. solve_decision. Defined.

Record User := mkUser {
  User_Id : string;
  User_AccountID : string;
  User_Role : UserRole;
  User_IsServiceUser : bool;
  User_AutoGroups : list string
}.

Record DNSSettings := mkDNSSettings {
  DisabledManagementGroups : list string
}.

Record ExtraSettings := mkExtraSettings {
  IntegratedValidatorGroups : list string
}.

Record Settings := mkSettings {
  Settings_Extra : option ExtraSettings
}.

(** Modelled from the spec: the [Account] struct is not in the sources; the
    spec's data model gives it a network serial, peers and groups keyed by
    ID, policies as an ordered sequence, routes, DNS name-server groups,
    setup keys and settings. *)
Record Account := mkAccount {
  Account_Serial : nat;
  Account_Groups : gmap string Group;
  Account_Peers : gmap string Peer;
  Account_Policies : list Policy;
  Account_Routes : list Route;
  Account_NameServerGroups : list NameServerGroup;
  Account_SetupKeys : list SetupKey;
  Account_DNSSettings : DNSSettings;
  Account_Settings : Settings
}.

(** Modelled from the spec: [User.IsRegularUser] is not in the sources; the
    spec calls regular a user that is neither admin nor service user. *)
Definition IsRegularUser (u : User) : bool :=
  negb (bool_decide (User_Role u = UserRoleAdmin)) && negb (User_IsServiceUser u).

(** Modelled from the spec: [Group.AddPeer] and [Group.RemovePeer] are not in
    the sources; by the spec the members are an ordered set without
    duplicates, adding a present peer or removing an absent one changes
    nothing, and the result says whether the group was updated. *)
Definition Group_withPeers (g : Group) (peers : list string) : Group :=
  mkGroup (Group_ID g) (Group_AccountID g) (Group_Name g) (Group_Issued g) peers.

Definition AddPeer (g : Group) (peerID : string) : bool * Group :=
  if bool_decide (peerID ∈ Group_Peers g) then (false, g)
  else (true, Group_withPeers g (Group_Peers g ++ [peerID])).

Definition RemovePeer (g : Group) (peerID : string) : bool * Group :=
  if bool_decide (peerID ∈ Group_Peers g)
  then (true, Group_withPeers g (filter (λ p, p ≠ peerID) (Group_Peers g)))
  else (false, g).

(** ** The entity store *)

(** Modelled from the spec: the [Store] interface and its implementations are
    not in the sources. The store holds the accounts by identifier and the
    users by identifier; [faults] says which calls fail, so that every read
    and write of the group code can return a store error. Reads are
    repeatable: the same call on the same store gives the same answer, which
    is the isolation the spec asks of a transaction. *)
Record Store := mkStore {
  accounts : gmap string Account;
  users : gmap string User;
  faults : StoreOp → bool
}.

Definition guarded {A} (st : Store) (op : StoreOp) (r : Result A) : Result A :=
  if faults st op then Err (StoreError op) else r.

Definition notFound {A} (what : string) : Result A :=
  Err (status_Errorf NotFound (what +:+ " not found")).

Definition withAccount {A} (st : Store) (accountID : string)
    (k : Account → Result A) : Result A :=
  match accounts st !! accountID with
  | Some a => k a
  | None => notFound "account"
  end.

Definition GetUserByUserID (st : Store) (_ : LockingStrength) (userID : string)
    : Result User :=
  guarded st OpGetUserByUserID
    match users st !! userID with
    | Some u => Ok u
    | None => notFound "user"
    end.

Definition GetGroupByID (st : Store) (_ : LockingStrength)
    (accountID groupID : string) : Result Group :=
  guarded st OpGetGroupByID
    (withAccount st accountID (λ a,
       match Account_Groups a !! groupID with
       | Some g => Ok g
       | None => notFound "group"
       end)).

Definition GetGroupByName (st : Store) (_ : LockingStrength)
    (accountID groupName : string) : Result Group :=
  guarded st OpGetGroupByName
    (withAccount st accountID (λ a,
       match list_find (λ kg, Group_Name kg.2 = groupName)
                       (map_to_list (Account_Groups a)) with
       | Some (_, (_, g)) => Ok g
       | None => notFound "group"
       end)).

Definition GetPeerByID (st : Store) (_ : LockingStrength)
    (accountID peerID : string) : Result Peer :=
  guarded st OpGetPeerByID
    (withAccount st accountID (λ a,
       match Account_Peers a !! peerID with
       | Some p => Ok p
       | None => notFound "peer"
       end)).

(** The peers found among the given identifiers, keyed by identifier. *)
Definition GetPeersByIDs (st : Store) (_ : LockingStrength)
    (accountID : string) (peerIDs : list string) : Result (gmap string Peer) :=
  guarded st OpGetPeersByIDs
    (withAccount st accountID (λ a,
       Ok (list_to_map
             (omap (λ id, (λ p, (id, p)) <$> Account_Peers a !! id) peerIDs)))).

Definition GetAccountRoutes (st : Store) (_ : LockingStrength)
    (accountID : string) : Result (list Route) :=
  guarded st OpGetAccountRoutes
    (withAccount st accountID (λ a, Ok (Account_Routes a))).

Definition GetAccountPolicies (st : Store) (_ : LockingStrength)
    (accountID : string) : Result (list Policy) :=
  guarded st OpGetAccountPolicies
    (withAccount st accountID (λ a, Ok (Account_Policies a))).

Definition GetAccountNameServerGroups (st : Store) (_ : LockingStrength)
    (accountID : string) : Result (list NameServerGroup) :=
  guarded st OpGetAccountNameServerGroups
    (withAccount st accountID (λ a, Ok (Account_NameServerGroups a))).

Definition GetAccountSetupKeys (st : Store) (_ : LockingStrength)
    (accountID : string) : Result (list SetupKey) :=
  guarded st OpGetAccountSetupKeys
    (withAccount st accountID (λ a, Ok (Account_SetupKeys a))).

Definition GetAccountUsers (st : Store) (_ : LockingStrength)
    (accountID : string) : Result (list User) :=
  guarded st OpGetAccountUsers
    (withAccount st accountID (λ _,
       Ok (filter (λ u, User_AccountID u = accountID)
                  (snd <$> map_to_list (users st))))).

Definition GetAccountDNSSettings (st : Store) (_ : LockingStrength)
    (accountID : string) : Result DNSSettings :=
  guarded st OpGetAccountDNSSettings
    (withAccount st accountID (λ a, Ok (Account_DNSSettings a))).

Definition GetAccountSettings (st : Store) (_ : LockingStrength)
    (accountID : string) : Result Settings :=
  guarded st OpGetAccountSettings
    (withAccount st accountID (λ a, Ok (Account_Settings a))).

Definition Account_withSerial (a : Account) (n : nat) : Account :=
  mkAccount n (Account_Groups a) (Account_Peers a) (Account_Policies a)
    (Account_Routes a) (Account_NameServerGroups a) (Account_SetupKeys a)
    (Account_DNSSettings a) (Account_Settings a).

Definition Account_withGroups (a : Account) (gs : gmap string Group) : Account :=
  mkAccount (Account_Serial a) gs (Account_Peers a) (Account_Policies a)
    (Account_Routes a) (Account_NameServerGroups a) (Account_SetupKeys a)
    (Account_DNSSettings a) (Account_Settings a).

Definition Store_withAccount (st : Store) (accountID : string) (a : Account)
    : Store :=
  mkStore (<[accountID := a]> (accounts st)) (users st) (faults st).

Definition IncrementNetworkSerial (st : Store) (_ : LockingStrength)
    (accountID : string) : Result Store :=
  guarded st OpIncrementNetworkSerial
    (withAccount st accountID (λ a,
       Ok (Store_withAccount st accountID
             (Account_withSerial a (S (Account_Serial a)))))).

(** A group is stored in the account it names, under its identifier. *)
Definition putGroup (st : Store) (g : Group) : Result Store :=
  withAccount st (Group_AccountID g) (λ a,
    Ok (Store_withAccount st (Group_AccountID g)
          (Account_withGroups a (<[Group_ID g := g]> (Account_Groups a))))).

Fixpoint putGroups (st : Store) (groups : list Group) : Result Store :=
  match groups with
  | [] => Ok st
  | g :: rest =>
      match putGroup st g with
      | Ok st' => putGroups st' rest
      | Err e => Err e
      end
  end.

Definition Store_SaveGroups (st : Store) (_ : LockingStrength)
    (groups : list Group) : Result Store :=
  guarded st OpSaveGroups (putGroups st groups).

Definition Store_SaveGroup (st : Store) (_ : LockingStrength) (g : Group)
    : Result Store :=
  guarded st OpSaveGroup (putGroup st g).

Definition Store_DeleteGroups (st : Store) (_ : LockingStrength)
    (accountID : string) (groupIDs : list string) : Result Store :=
  guarded st OpDeleteGroups
    (withAccount st accountID (λ a,
       Ok (Store_withAccount st accountID
             (Account_withGroups a
                (foldr delete (Account_Groups a) groupIDs))))).

(** [ExecuteInTransaction]: the function runs on the store; when it returns
    an error, or the commit fails, the store is left as it was (rollback).
    [L] holds the variables of the caller that the function assigns: Go
    closures write them whether or not the transaction commits. *)
Definition ExecuteInTransaction {L} (st : Store)
    (fn : Store → option error * L * Store) : option error * L * Store :=
  let '(err, l, tx) := fn st in
  match err with
  | Some e => (Some e, l, st)
  | None =>
      if faults st OpCommit then (Some (StoreError OpCommit), l, st)
      else (None, l, tx)
  end.

(** The network serial of an account, 0 for an account that does not exist. *)
Definition serialOf (st : Store) (accountID : string) : nat :=
  match accounts st !! accountID with
  | Some a => Account_Serial a
  | None => 0
  end.

(** The group stored under an identifier in an account. *)
Definition groupOf (st : Store) (accountID groupID : string) : option Group :=
  a ← accounts st !! accountID; Account_Groups a !! groupID.

(** ** Audit events and the account manager *)

Inductive Activity :=
| GroupCreated | GroupAddedToPeer | GroupRemovedFromPeer | GroupDeleted.

(** The metadata of an event: [group.EventMeta()] is kept as the group it is
    computed from, and the map of a peer event as its [group] and [group_id]
    entries with the peer whose IP and FQDN fill the other two. *)
Inductive EventMeta :=
| GroupEventMeta (g : Group)
| GroupPeerMeta (group group_id : string) (peer : Peer).

Record Event := mkEvent {
  Event_InitiatorID : string;
  Event_TargetID : string;
  Event_AccountID : string;
  Event_Activity : Activity;
  Event_Meta : EventMeta
}.

(** The account manager: its store, the events handed to [StoreEvent] so
    far, the accounts [updateAccountPeers] was called for so far, and the
    number of identifiers drawn from [xid.New]. *)
Record DefaultAccountManager := mkAM {
  AM_Store : Store;
  AM_events : list Event;
  AM_peerUpdates : list string;
  AM_xids : nat
}.

Definition slices_Contains (l : list string) (x : string) : bool :=
  bool_decide (x ∈ l).

(** difference returns the elements in [a] that aren't in [b]. *)
Definition difference (a b : list string) : list string :=
  filter (λ x, x ∉ b) a.

(** ** Linkage of a group *)

Fixpoint findLinkedRoute (groupID : string) (routes : list Route)
    : bool * option Route :=
  match routes with
  | [] => (false, None)
  | r :: rest =>
      if slices_Contains (Route_Groups r) groupID
         || slices_Contains (Route_PeerGroups r) groupID
      then (true, Some r)
      else findLinkedRoute groupID rest
  end.

Definition isGroupLinkedToRoute (transaction : Store)
    (accountID groupID : string) : bool * option Route :=
  match GetAccountRoutes transaction LockingStrengthShare accountID with
  | Err _ => (false, None)
  | Ok routes => findLinkedRoute groupID routes
  end.

Fixpoint ruleLinks (groupID : string) (rules : list PolicyRule) : bool :=
  match rules with
  | [] => false
  | rule :: rest =>
      if slices_Contains (Rule_Sources rule) groupID
         || slices_Contains (Rule_Destinations rule) groupID
      then true
      else ruleLinks groupID rest
  end.

Fixpoint findLinkedPolicy (groupID : string) (policies : list Policy)
    : bool * option Policy :=
  match policies with
  | [] => (false, None)
  | policy :: rest =>
      if ruleLinks groupID (Policy_Rules policy) then (true, Some policy)
      else findLinkedPolicy groupID rest
  end.

Definition isGroupLinkedToPolicy (transaction : Store)
    (accountID groupID : string) : bool * option Policy :=
  match GetAccountPolicies transaction LockingStrengthShare accountID with
  | Err _ => (false, None)
  | Ok policies => findLinkedPolicy groupID policies
  end.

Fixpoint dnsGroupLinks (groupID : string) (groups : list string) : bool :=
  match groups with
  | [] => false
  | g :: rest => if bool_decide (g = groupID) then true
                 else dnsGroupLinks groupID rest
  end.

Fixpoint findLinkedDns (groupID : string) (nsgs : list NameServerGroup)
    : bool * option NameServerGroup :=
  match nsgs with
  | [] => (false, None)
  | dns :: rest =>
      if dnsGroupLinks groupID (NSGroup_Groups dns) then (true, Some dns)
      else findLinkedDns groupID rest
  end.

Definition isGroupLinkedToDns (transaction : Store)
    (accountID groupID : string) : bool * option NameServerGroup :=
  match GetAccountNameServerGroups transaction LockingStrengthShare accountID with
  | Err _ => (false, None)
  | Ok nameServerGroups => findLinkedDns groupID nameServerGroups
  end.

Fixpoint findLinkedSetupKey (groupID : string) (keys : list SetupKey)
    : bool * option SetupKey :=
  match keys with
  | [] => (false, None)
  | setupKey :: rest =>
      if slices_Contains (SetupKey_AutoGroups setupKey) groupID
      then (true, Some setupKey)
      else findLinkedSetupKey groupID rest
  end.

Definition isGroupLinkedToSetupKey (transaction : Store)
    (accountID groupID : string) : bool * option SetupKey :=
  match GetAccountSetupKeys transaction LockingStrengthShare accountID with
  | Err _ => (false, None)
  | Ok setupKeys => findLinkedSetupKey groupID setupKeys
  end.

Fixpoint findLinkedUser (groupID : string) (us : list User)
    : bool * option User :=
  match us with
  | [] => (false, None)
  | user :: rest =>
      if slices_Contains (User_AutoGroups user) groupID
      then (true, Some user)
      else findLinkedUser groupID rest
  end.

Definition isGroupLinkedToUser (transaction : Store)
    (accountID groupID : string) : bool * option User :=
  match GetAccountUsers transaction LockingStrengthShare accountID with
  | Err _ => (false, None)
  | Ok us => findLinkedUser groupID us
  end.

(** checkGroupLinkedToSettings verifies if a group is linked to any settings
    in the account. *)
Definition checkGroupLinkedToSettings (transaction : Store) (group : Group)
    : option error :=
  match GetAccountDNSSettings transaction LockingStrengthShare
          (Group_AccountID group) with
  | Err err => Some err
  | Ok dnsSettings =>
      if slices_Contains (DisabledManagementGroups dnsSettings) (Group_ID group)
      then Some (GroupLinkError "disabled DNS management groups" (Group_Name group))
      else
        match GetAccountSettings transaction LockingStrengthShare
                (Group_AccountID group) with
        | Err err => Some err
        | Ok settings =>
            match Settings_Extra settings with
            | Some extra =>
                if slices_Contains (IntegratedValidatorGroups extra) (Group_ID group)
                then Some (GroupLinkError "integrated validator" (Group_Name group))
                else None
            | None => None
            end
        end
  end.

(** The impact loop of [areGroupChangesAffectPeers] over the group IDs. *)
Fixpoint anyGroupAffectsPeers (transaction : Store) (accountID : string)
    (dnsSettings : DNSSettings) (groupIDs : list string) : bool :=
  match groupIDs with
  | [] => false
  | groupID :: rest =>
      if slices_Contains (DisabledManagementGroups dnsSettings) groupID then true
      else if (isGroupLinkedToDns transaction accountID groupID).1 then true
      else if (isGroupLinkedToPolicy transaction accountID groupID).1 then true
      else if (isGroupLinkedToRoute transaction accountID groupID).1 then true
      else anyGroupAffectsPeers transaction accountID dnsSettings rest
  end.

(** areGroupChangesAffectPeers checks if any changes to the specified groups
    will affect peers. *)
Definition areGroupChangesAffectPeers (transaction : Store)
    (accountID : string) (groupIDs : list string) : bool * option error :=
  match groupIDs with
  | [] => (false, None)
  | _ =>
      match GetAccountDNSSettings transaction LockingStrengthShare accountID with
      | Err err => (false, Some err)
      | Ok dnsSettings =>
          (anyGroupAffectsPeers transaction accountID dnsSettings groupIDs, None)
      end
  end.

(** ** The group operations *)

Section GroupOperations.

(** [Group.IsGroupAll] and [xid.New] are declared outside the sources: the
    first tells the distinguished ALL group, the second gives the n-th fresh
    identifier. *)
Variable IsGroupAll : Group → bool.
Variable xid_New : nat → string.

Definition Group_withID (g : Group) (id : string) : Group :=
  mkGroup id (Group_AccountID g) (Group_Name g) (Group_Issued g) (Group_Peers g).

Definition Group_withAccountID (g : Group) (accountID : string) : Group :=
  mkGroup (Group_ID g) accountID (Group_Name g) (Group_Issued g) (Group_Peers g).

(** The quotation mark, for the messages that quote an identifier. *)
Definition quote : string := String (Ascii.ascii_of_nat 34) EmptyString.

Fixpoint peersExist (transaction : Store) (accountID : string)
    (peerIDs : list string) : option error :=
  match peerIDs with
  | [] => None
  | peerID :: rest =>
      match GetPeerByID transaction LockingStrengthShare accountID peerID with
      | Err _ => Some (status_Errorf InvalidArgument
                         ("peer with ID " +:+ quote +:+ peerID +:+ quote
                          +:+ " not found"))
      | Ok _ => peersExist transaction accountID rest
      end
  end.

Definition isNotFound (e : error) : bool :=
  match e with
  | StatusError NotFound _ => true
  | _ => false
  end.

(** validateNewGroup validates the new group for existence and required
    fields. It may assign the group a fresh ID, so the group and the number
    of identifiers drawn are returned with the error. *)
Definition validateNewGroup (transaction : Store) (accountID : string)
    (newGroup : Group) (n : nat) : option error * Group * nat :=
  if bool_decide (Group_ID newGroup = "")
     && negb (bool_decide (Group_Issued newGroup = GroupIssuedAPI))
  then (Some (status_Errorf InvalidArgument
                (GroupIssued_String (Group_Issued newGroup)
                 +:+ " group without ID set")), newGroup, n)
  else
    let checked : option error * Group * nat :=
      if bool_decide (Group_ID newGroup = "")
         && bool_decide (Group_Issued newGroup = GroupIssuedAPI)
      then
        match GetGroupByName transaction LockingStrengthShare accountID
                (Group_Name newGroup) with
        | Err err =>
            if negb (isNotFound err) then (Some err, newGroup, n)
            else (None, Group_withID newGroup (xid_New n), S n)
        | Ok _ =>
            (Some (status_Errorf AlreadyExists
                     ("group with name " +:+ Group_Name newGroup
                      +:+ " already exists")), newGroup, n)
        end
      else (None, newGroup, n) in
    match checked with
    | (Some err, g, n') => (Some err, g, n')
    | (None, g, n') => (peersExist transaction accountID (Group_Peers g), g, n')
    end.

Definition peerEvents (act : Activity) (accountID userID : string)
    (newGroup : Group) (peers : gmap string Peer) (peerIDs : list string)
    : list Event :=
  omap (λ peerID,
          (λ peer, mkEvent userID (Peer_ID peer) accountID act
                     (GroupPeerMeta (Group_Name newGroup) (Group_ID newGroup) peer))
          <$> peers !! peerID) peerIDs.

(** prepareGroupEvents prepares a list of event functions to be stored. *)
Definition prepareGroupEvents (transaction : Store)
    (accountID userID : string) (newGroup : Group) : list Event :=
  let '(addedPeers, removedPeers, eventsToStore) :=
    match GetGroupByID transaction LockingStrengthShare accountID
            (Group_ID newGroup) with
    | Ok oldGroup =>
        (difference (Group_Peers newGroup) (Group_Peers oldGroup),
         difference (Group_Peers oldGroup) (Group_Peers newGroup),
         [])
    | Err _ =>
        (Group_Peers newGroup, [],
         [mkEvent userID (Group_ID newGroup) accountID GroupCreated
            (GroupEventMeta newGroup)])
    end in
  let modifiedPeers := addedPeers ++ removedPeers in
  match GetPeersByIDs transaction LockingStrengthShare accountID modifiedPeers with
  | Err _ => []
  | Ok peers =>
      eventsToStore
      ++ peerEvents GroupAddedToPeer accountID userID newGroup peers addedPeers
      ++ peerEvents GroupRemovedFromPeer accountID userID newGroup peers removedPeers
  end.

(** The variables of [SaveGroups] that its transaction function assigns. *)
Record SaveLocals := mkSaveLocals {
  eventsToStore : list Event;
  groupsToSave : list Group;
  updateAccountPeers : bool;
  xids : nat
}.

(** The loop of [SaveGroups] over the groups; it stops at the first group
    that does not validate. *)
Fixpoint SaveGroups_loop (transaction : Store) (accountID userID : string)
    (groups : list Group) (groupIDs : list string) (l : SaveLocals)
    : option error * list string * SaveLocals :=
  match groups with
  | [] => (None, groupIDs, l)
  | newGroup :: rest =>
      match validateNewGroup transaction accountID newGroup (xids l) with
      | (Some err, _, n) =>
          (Some err, groupIDs,
           mkSaveLocals (eventsToStore l) (groupsToSave l) (updateAccountPeers l) n)
      | (None, newGroup, n) =>
          let newGroup := Group_withAccountID newGroup accountID in
          let events := prepareGroupEvents transaction accountID userID newGroup in
          SaveGroups_loop transaction accountID userID rest
            (groupIDs ++ [Group_ID newGroup])
            (mkSaveLocals (eventsToStore l ++ events)
               (groupsToSave l ++ [newGroup]) (updateAccountPeers l) n)
      end
  end.

(** The function that [SaveGroups] runs in the transaction. *)
Definition SaveGroups_tx (accountID userID : string) (groups : list Group)
    (l0 : SaveLocals) (transaction : Store) : option error * SaveLocals * Store :=
  match SaveGroups_loop transaction accountID userID groups [] l0 with
  | (Some err, _, l) => (Some err, l, transaction)
  | (None, groupIDs, l) =>
      let '(upd, err) := areGroupChangesAffectPeers transaction accountID groupIDs in
      let l := mkSaveLocals (eventsToStore l) (groupsToSave l) upd (xids l) in
      match err with
      | Some err => (Some err, l, transaction)
      | None =>
          match IncrementNetworkSerial transaction LockingStrengthUpdate accountID with
          | Err err => (Some err, l, transaction)
          | Ok tx1 =>
              match Store_SaveGroups tx1 LockingStrengthUpdate (groupsToSave l) with
              | Err err => (Some err, l, tx1)
              | Ok tx2 => (None, l, tx2)
              end
          end
      end
  end.

(** The checks of the requester that [SaveGroups] and [DeleteGroups] make
    before they open the transaction. *)
Definition checkRequester (st : Store) (accountID userID : string)
    : option error :=
  match GetUserByUserID st LockingStrengthShare userID with
  | Err err => Some err
  | Ok user =>
      if negb (bool_decide (User_AccountID user = accountID))
      then Some NewUserNotPartOfAccountError
      else if IsRegularUser user then Some NewAdminPermissionError
      else None
  end.

(** SaveGroups adds new groups to the account. *)
Definition SaveGroups (am : DefaultAccountManager) (accountID userID : string)
    (groups : list Group) : option error * DefaultAccountManager :=
  match checkRequester (AM_Store am) accountID userID with
  | Some err => (Some err, am)
  | None =>
      let '(err, l, st) :=
        ExecuteInTransaction (AM_Store am)
          (SaveGroups_tx accountID userID groups
             (mkSaveLocals [] [] false (AM_xids am))) in
      match err with
      | Some err => (Some err, mkAM st (AM_events am) (AM_peerUpdates am) (xids l))
      | None =>
          (None,
           mkAM st (AM_events am ++ eventsToStore l)
             (if updateAccountPeers l then AM_peerUpdates am ++ [accountID]
              else AM_peerUpdates am)
             (xids l))
      end
  end.

Definition validateDeleteGroup (transaction : Store) (group : Group)
    (userID : string) : option error :=
  let permitted : option error :=
    if bool_decide (Group_Issued group = GroupIssuedIntegration) then
      match GetUserByUserID transaction LockingStrengthShare userID with
      | Err err => Some err
      | Ok executingUser =>
          if negb (bool_decide (User_Role executingUser = UserRoleAdmin))
             || negb (User_IsServiceUser executingUser)
          then Some (status_Errorf PermissionDenied
                 "only service users with admin power can delete integration group")
          else None
      end
    else None in
  match permitted with
  | Some err => Some err
  | None =>
      if IsGroupAll group
      then Some (status_Errorf InvalidArgument "deleting group ALL is not allowed")
      else
        match isGroupLinkedToRoute transaction (Group_AccountID group) (Group_ID group) with
        | (true, linkedRoute) =>
            Some (GroupLinkError "route" (from_option Route_NetID "" linkedRoute))
        | _ =>
        match isGroupLinkedToDns transaction (Group_AccountID group) (Group_ID group) with
        | (true, linkedDns) =>
            Some (GroupLinkError "name server groups"
                    (from_option NSGroup_Name "" linkedDns))
        | _ =>
        match isGroupLinkedToPolicy transaction (Group_AccountID group) (Group_ID group) with
        | (true, linkedPolicy) =>
            Some (GroupLinkError "policy" (from_option Policy_Name "" linkedPolicy))
        | _ =>
        match isGroupLinkedToSetupKey transaction (Group_AccountID group) (Group_ID group) with
        | (true, linkedSetupKey) =>
            Some (GroupLinkError "setup key"
                    (from_option SetupKey_Name "" linkedSetupKey))
        | _ =>
        match isGroupLinkedToUser transaction (Group_AccountID group) (Group_ID group) with
        | (true, linkedUser) =>
            Some (GroupLinkError "user" (from_option User_Id "" linkedUser))
        | _ => checkGroupLinkedToSettings transaction group
        end end end end end
  end.

(** The variables of [DeleteGroups] that its transaction function assigns. *)
Record DeleteLocals := mkDeleteLocals {
  allErrors : option error;
  groupIDsToDelete : list string;
  deletedGroups : list Group
}.

(** The loop of [DeleteGroups] over the group IDs: an ID whose group cannot
    be read or does not validate adds its error and is skipped. *)
Fixpoint DeleteGroups_loop (transaction : Store) (accountID userID : string)
    (groupIDs : list string) (l : DeleteLocals) : DeleteLocals :=
  match groupIDs with
  | [] => l
  | groupID :: rest =>
      match GetGroupByID transaction LockingStrengthUpdate accountID groupID with
      | Err err =>
          DeleteGroups_loop transaction accountID userID rest
            (mkDeleteLocals (errors_Join [allErrors l; Some err])
               (groupIDsToDelete l) (deletedGroups l))
      | Ok group =>
          match validateDeleteGroup transaction group userID with
          | Some err =>
              DeleteGroups_loop transaction accountID userID rest
                (mkDeleteLocals (errors_Join [allErrors l; Some err])
                   (groupIDsToDelete l) (deletedGroups l))
          | None =>
              DeleteGroups_loop transaction accountID userID rest
                (mkDeleteLocals (allErrors l)
                   (groupIDsToDelete l ++ [groupID]) (deletedGroups l ++ [group]))
          end
      end
  end.

(** The function that [DeleteGroups] runs in the transaction. *)
Definition DeleteGroups_tx (accountID userID : string) (groupIDs : list string)
    (l0 : DeleteLocals) (transaction : Store)
    : option error * DeleteLocals * Store :=
  let l := DeleteGroups_loop transaction accountID userID groupIDs l0 in
  match IncrementNetworkSerial transaction LockingStrengthUpdate accountID with
  | Err err => (Some err, l, transaction)
  | Ok tx1 =>
      match Store_DeleteGroups tx1 LockingStrengthUpdate accountID
              (groupIDsToDelete l) with
      | Err err => (Some err, l, tx1)
      | Ok tx2 => (None, l, tx2)
      end
  end.

(** DeleteGroups deletes groups from an account. If an error occurs while
    deleting a group, the function skips it and continues deleting other
    groups. Errors are collected and returned at the end. *)
Definition DeleteGroups (am : DefaultAccountManager) (accountID userID : string)
    (groupIDs : list string) : option error * DefaultAccountManager :=
  match checkRequester (AM_Store am) accountID userID with
  | Some err => (Some err, am)
  | None =>
      let '(err, l, st) :=
        ExecuteInTransaction (AM_Store am)
          (DeleteGroups_tx accountID userID groupIDs (mkDeleteLocals None [] [])) in
      match err with
      | Some err => (Some err, mkAM st (AM_events am) (AM_peerUpdates am) (AM_xids am))
      | None =>
          (allErrors l,
           mkAM st
             (AM_events am
              ++ map (λ group, mkEvent userID (Group_ID group) accountID
                                 GroupDeleted (GroupEventMeta group))
                   (deletedGroups l))
             (AM_peerUpdates am) (AM_xids am))
      end
  end.

(** The function that [GroupAddPeer] and [GroupDeletePeer] run in the
    transaction, with the change of the group as [change]; the variable it
    assigns is [updateAccountPeers]. *)
Definition GroupChangePeer_tx (change : Group → string → bool * Group)
    (accountID groupID peerID : string) (upd0 : bool) (transaction : Store)
    : option error * bool * Store :=
  match GetGroupByID transaction LockingStrengthUpdate accountID groupID with
  | Err err => (Some err, upd0, transaction)
  | Ok group =>
      let '(updated, group) := change group peerID in
      if negb updated then (None, upd0, transaction)
      else
        let '(upd, err) :=
          areGroupChangesAffectPeers transaction accountID [groupID] in
        match err with
        | Some err => (Some err, upd, transaction)
        | None =>
            match IncrementNetworkSerial transaction LockingStrengthUpdate accountID with
            | Err err => (Some err, upd, transaction)
            | Ok tx1 =>
                match Store_SaveGroup tx1 LockingStrengthUpdate group with
                | Err err => (Some err, upd, tx1)
                | Ok tx2 => (None, upd, tx2)
                end
            end
        end
  end.

Definition GroupChangePeer (change : Group → string → bool * Group)
    (am : DefaultAccountManager) (accountID groupID peerID : string)
    : option error * DefaultAccountManager :=
  let '(err, upd, st) :=
    ExecuteInTransaction (AM_Store am)
      (GroupChangePeer_tx change accountID groupID peerID false) in
  match err with
  | Some err => (Some err, mkAM st (AM_events am) (AM_peerUpdates am) (AM_xids am))
  | None =>
      (None,
       mkAM st (AM_events am)
         (if upd then AM_peerUpdates am ++ [accountID] else AM_peerUpdates am)
         (AM_xids am))
  end.

(** GroupAddPeer appends peer to the group *)
Definition GroupAddPeer := GroupChangePeer AddPeer.

(** GroupDeletePeer removes peer from the group *)
Definition GroupDeletePeer := GroupChangePeer RemovePeer.

End GroupOperations.

(** ** The read operations, the single-group wrappers and the UI helper *)

(** CheckGroupPermissions validates if a user has the necessary permissions
    to view groups *)
Definition CheckGroupPermissions (am : DefaultAccountManager)
    (accountID userID : string) : option error :=
  match GetUserByUserID (AM_Store am) LockingStrengthShare userID with
  | Err err => Some err
  | Ok user =>
      if negb (bool_decide (User_AccountID user = accountID))
      then Some NewUserNotPartOfAccountError
      else if IsRegularUser user then Some NewAdminPermissionError
      else None
  end.

(** GetGroup returns a specific group by groupID in an account *)
Definition GetGroup (am : DefaultAccountManager)
    (accountID groupID userID : string) : Result Group :=
  match CheckGroupPermissions am accountID userID with
  | Some err => Err err
  | None => GetGroupByID (AM_Store am) LockingStrengthShare accountID groupID
  end.

(** The manager's GetGroupByName: the store's answer, with no check of a
    requester. *)
Definition AM_GetGroupByName (am : DefaultAccountManager)
    (groupName accountID : string) : Result Group :=
  GetGroupByName (AM_Store am) LockingStrengthShare accountID groupName.

Section ReadOperations.

(** [Store.GetAccountGroups] and [Group.HasPeers] are declared outside the
    sources. *)
Variable GetAccountGroups : Store → LockingStrength → string → Result (list Group).
Variable HasPeers : Group → bool.

(** GetAllGroups returns all groups in an account *)
Definition GetAllGroups (am : DefaultAccountManager)
    (accountID userID : string) : Result (list Group) :=
  match CheckGroupPermissions am accountID userID with
  | Some err => Err err
  | None => GetAccountGroups (AM_Store am) LockingStrengthShare accountID
  end.

(** anyGroupHasPeers checks if any of the given groups in the account have
    peers. *)
Fixpoint anyGroupHasPeers (account : Account) (groupIDs : list string) : bool :=
  match groupIDs with
  | [] => false
  | groupID :: rest =>
      match Account_Groups account !! groupID with
      | Some group =>
          if HasPeers group then true else anyGroupHasPeers account rest
      | None => anyGroupHasPeers account rest
      end
  end.

End ReadOperations.

(** SaveGroup and DeleteGroup take the write lock of the account and call
    [SaveGroups] and [DeleteGroups] with one element; the lock orders
    concurrent calls and is not part of this sequential model. *)
Definition SaveGroup (xid_New : nat → string) (am : DefaultAccountManager)
    (accountID userID : string) (newGroup : Group)
    : option error * DefaultAccountManager :=
  SaveGroups xid_New am accountID userID [newGroup].

Definition DeleteGroup (IsGroupAll : Group → bool) (am : DefaultAccountManager)
    (accountID userID groupID : string) : option error * DefaultAccountManager :=
  DeleteGroups IsGroupAll am accountID userID [groupID].

(** wrapText inserts newlines into the text to ensure that each line is no
    longer than [lineLength] runes (client/ui/network.go). The text is the
    sequence of runes that Go's range over the string yields; the result is
    the sequence of runes written to the builder. *)
Definition newline : Z := 10.

Fixpoint wrapText_loop (text : list Z) (lineLength currentLineLength : Z)
    : list Z :=
  match text with
  | [] => []
  | runeValue :: rest =>
      let currentLineLength := (currentLineLength + 1)%Z in
      if bool_decide (lineLength ≤ currentLineLength)%Z
         || bool_decide (runeValue = newline)
      then runeValue :: newline :: wrapText_loop rest lineLength 0
      else runeValue :: wrapText_loop rest lineLength currentLineLength
  end.

Definition wrapText (text : list Z) (lineLength : Z) : list Z :=
  wrapText_loop text lineLength 0.

(** The lines of a text: the runs of runes between newlines. *)
Fixpoint splitLines (text : list Z) : list (list Z) :=
  match text with
  | [] => [[]]
  | r :: rest =>
      if bool_decide (r = newline) then [] :: splitLines rest
      else match splitLines rest with
           | [] => [[r]]
           | line :: lines => (r :: line) :: lines
           end
  end.

(** The group that a sequence of saves leaves under an ID: the last of the
    sequence that carries it. *)
Definition savedGroup (groupID : string) (groups : list Group) : option Group :=
  foldl (λ o g, if bool_decide (Group_ID g = groupID) then Some g else o)
    None groups.

(** ** Vocabulary of the properties *)

(** A read of the store that returned an error. *)
Definition readFails {A} (r : Result A) : Prop := ∃ e, r = Err e.

(** The manager after an operation shows no side effect: same store, same
    stored events, same propagation calls. *)
Definition noSideEffects (am am' : DefaultAccountManager) : Prop :=
  AM_Store am' = AM_Store am
  ∧ AM_events am' = AM_events am
  ∧ AM_peerUpdates am' = AM_peerUpdates am.

(** What [DeleteGroups] decides for one ID: the group to delete, or the error
    of the read or of the validation. *)
Definition deleteOutcome (IsGroupAll : Group → bool) (tx : Store)
    (accountID userID groupID : string) : Result Group :=
  match GetGroupByID tx LockingStrengthUpdate accountID groupID with
  | Err err => Err err
  | Ok group =>
      match validateDeleteGroup IsGroupAll tx group userID with
      | Some err => Err err
      | None => Ok group
      end
  end.

Definition outcomeError {A} (r : Result A) : option error :=
  match r with Ok _ => None | Err e => Some e end.

Definition outcomeValue {A} (r : Result A) : option A :=
  match r with Ok a => Some a | Err _ => None end.

(** An error that [errors.Join] did not build. *)
Definition atomicError (e : error) : bool :=
  match e with joinError _ => false | _ => true end.

(** An error of the store or of the [status] package. *)
Definition plainError (e : error) : bool :=
  match e with StatusError _ _ | StoreError _ => true | _ => false end.

Definition isGroupLinkError (e : error) : bool :=
  match e with GroupLinkError _ _ => true | _ => false end.

(** Whether a returned error holds a [GroupLinkError], as [errors.As] finds
    it through joined errors. *)
Definition hasGroupLinkError (oe : option error) : bool :=
  existsb isGroupLinkError (option_error_leaves oe).

(** The resources that reference a group, each with the kind and the name
    that [validateDeleteGroup] reports for it. *)
Inductive GroupLinked (st : Store) (a : Account) (g : Group)
    : string → string → Prop :=
| linked_route r :
    r ∈ Account_Routes a →
    Group_ID g ∈ Route_Groups r ∨ Group_ID g ∈ Route_PeerGroups r →
    GroupLinked st a g "route" (Route_NetID r)
| linked_dns d :
    d ∈ Account_NameServerGroups a → Group_ID g ∈ NSGroup_Groups d →
    GroupLinked st a g "name server groups" (NSGroup_Name d)
| linked_policy policy rule :
    policy ∈ Account_Policies a → rule ∈ Policy_Rules policy →
    Group_ID g ∈ Rule_Sources rule ∨ Group_ID g ∈ Rule_Destinations rule →
    GroupLinked st a g "policy" (Policy_Name policy)
| linked_setup_key k :
    k ∈ Account_SetupKeys a → Group_ID g ∈ SetupKey_AutoGroups k →
    GroupLinked st a g "setup key" (SetupKey_Name k)
| linked_user uid u :
    users st !! uid = Some u → User_AccountID u = Group_AccountID g →
    Group_ID g ∈ User_AutoGroups u →
    GroupLinked st a g "user" (User_Id u)
| linked_dns_disabled :
    Group_ID g ∈ DisabledManagementGroups (Account_DNSSettings a) →
    GroupLinked st a g "disabled DNS management groups" (Group_Name g)
| linked_validator extra :
    Settings_Extra (Account_Settings a) = Some extra →
    Group_ID g ∈ IntegratedValidatorGroups extra →
    GroupLinked st a g "integrated validator" (Group_Name g).

(** The store and the manager with another table of users. *)
Definition Store_withUsers (st : Store) (us : gmap string User) : Store :=
  mkStore (accounts st) us (faults st).

Definition AM_withUsers (am : DefaultAccountManager) (us : gmap string User)
    : DefaultAccountManager :=
  mkAM (Store_withUsers (AM_Store am) us) (AM_events am) (AM_peerUpdates am)
    (AM_xids am).

(** ** A sample deployment

    Account [acc1] has the groups All, eng (holding peer p1), misc and an
    integration group idp; its default policy links All, a second policy
    links eng, and a route is distributed to idp. Account [acc2] has only
    its All group, linked to nothing. *)

Definition exIsGroupAll (g : Group) : bool := bool_decide (Group_Name g = "All").

Definition exXid (n : nat) : string := "xid" +:+ pretty n.

Definition exGroups1 : gmap string Group :=
  list_to_map
    [("all", mkGroup "all" "acc1" "All" GroupIssuedAPI ["p1"; "p2"]);
     ("eng", mkGroup "eng" "acc1" "eng" GroupIssuedAPI ["p1"]);
     ("misc", mkGroup "misc" "acc1" "misc" GroupIssuedAPI []);
     ("idp", mkGroup "idp" "acc1" "idp" GroupIssuedIntegration [])].

Definition exPeers1 : gmap string Peer :=
  list_to_map
    [("p1", mkPeer "p1" "100.64.0.1" "p1");
     ("p2", mkPeer "p2" "100.64.0.2" "p2")].

Definition exAccount1 : Account :=
  mkAccount 7 exGroups1 exPeers1
    [mkPolicy "Default" true [mkPolicyRule true ["all"] ["all"]];
     mkPolicy "Eng" true [mkPolicyRule true ["eng"] ["eng"]]]
    [mkRoute "net1" ["idp"] []]
    [] []
    (mkDNSSettings []) (mkSettings None).

Definition exAccount2 : Account :=
  mkAccount 3
    (list_to_map [("all2", mkGroup "all2" "acc2" "All" GroupIssuedAPI [])])
    ∅ [] [] [] [] (mkDNSSettings []) (mkSettings None).

Definition exUsers : gmap string User :=
  list_to_map
    [("admin", mkUser "admin" "acc1" UserRoleAdmin false []);
     ("bob", mkUser "bob" "acc1" UserRoleUser false []);
     ("eve", mkUser "eve" "acc2" UserRoleUser false []);
     ("root2", mkUser "root2" "acc2" UserRoleAdmin false [])].

Definition noFaults (_ : StoreOp) : bool := false.

Definition exStore : Store :=
  mkStore (list_to_map [("acc1", exAccount1); ("acc2", exAccount2)])
    exUsers noFaults.

Definition exAM : DefaultAccountManager := mkAM exStore [] [] 0.

(** The same deployment on a store whose list reads of routes, policies,
    name-server groups, setup keys and users all fail. *)
Definition listReadsFail (op : StoreOp) : bool :=
  match op with
  | OpGetAccountRoutes | OpGetAccountPolicies | OpGetAccountNameServerGroups
  | OpGetAccountSetupKeys | OpGetAccountUsers => true
  | _ => false
  end.

(** The same deployment on a store whose read of the policies alone fails. *)
Definition policiesFail (op : StoreOp) : bool :=
  match op with OpGetAccountPolicies => true | _ => false end.

Definition exStorePoliciesFail : Store :=
  mkStore (accounts exStore) (users exStore) policiesFail.

(** The same deployment on a store whose read of a group by name fails. *)
Definition nameReadFails (op : StoreOp) : bool :=
  match op with OpGetGroupByName => true | _ => false end.

Definition exStoreNameFails : Store :=
  mkStore (accounts exStore) (users exStore) nameReadFails.

Definition exStoreFailing : Store :=
  mkStore (accounts exStore) (users exStore) listReadsFail.

(** A store on which every commit fails, and one on which the serial cannot
    be incremented. *)
Definition commitFails (op : StoreOp) : bool :=
  match op with OpCommit => true | _ => false end.

Definition incrementFails (op : StoreOp) : bool :=
  match op with OpIncrementNetworkSerial => true | _ => false end.

Definition exAMCommitFails : DefaultAccountManager :=
  mkAM (mkStore (accounts exStore) (users exStore) commitFails) [] [] 0.

Definition exAMIncrementFails : DefaultAccountManager :=
  mkAM (mkStore (accounts exStore) (users exStore) incrementFails) [] [] 0.

(** A store whose read of the DNS settings fails. *)
Definition dnsSettingsFail (op : StoreOp) : bool :=
  match op with OpGetAccountDNSSettings => true | _ => false end.

(** An account whose group k is referenced by a setup key, a user and the
    integrated-validator list, and by nothing else. *)
Definition exAccountKeys : Account :=
  mkAccount 1
    (list_to_map [("k", mkGroup "k" "acc3" "k" GroupIssuedAPI ["p1"])])
    ∅ [] [] [] [mkSetupKey "key1" ["k"]] (mkDNSSettings [])
    (mkSettings (Some (mkExtraSettings ["k"]))).

Definition exStoreKeys : Store :=
  mkStore (list_to_map [("acc3", exAccountKeys)])
    (list_to_map [("u3", mkUser "u3" "acc3" UserRoleAdmin false ["k"])])
    noFaults.

(** A reading of all groups of an account: the groups of its table. *)
Definition exGetAccountGroups (st : Store) (_ : LockingStrength)
    (accountID : string) : Result (list Group) :=
  withAccount st accountID (λ a, Ok (snd <$> map_to_list (Account_Groups a))).

(** A reading of [Group.HasPeers]: the group lists a peer. *)
Definition exHasPeers (g : Group) : bool :=
  match Group_Peers g with [] => false | _ => true end.

(** ** Lemmas on the store *)

Lemma guarded_Ok {A} (st : Store) (op : StoreOp) (r : Result A) (a : A) :
  guarded st op r = Ok a → faults st op = false ∧ r = Ok a.
Proof. unfold guarded. destruct (faults st op); [discriminate|done]. Qed.

Lemma guarded_fault {A} (st : Store) (op : StoreOp) (r : Result A) :
  faults st op = true → guarded st op r = Err (StoreError op).
Proof. unfold guarded. by intros ->. Qed.

Lemma guarded_no_fault {A} (st : Store) (op : StoreOp) (r : Result A) :
  faults st op = false → guarded st op r = r.
Proof. unfold guarded. by intros ->. Qed.

Lemma withAccount_Ok {A} (st : Store) (accountID : string)
    (k : Account → Result A) (x : A) :
  withAccount st accountID k = Ok x →
  ∃ a, accounts st !! accountID = Some a ∧ k a = Ok x.
Proof.
  unfold withAccount, notFound.
  destruct (accounts st !! accountID) as [a|]; [eauto|discriminate].
Qed.

Lemma ExecuteInTransaction_rollback {L} (st st' : Store)
    (fn : Store → option error * L * Store) (e : error) (l : L) :
  ExecuteInTransaction st fn = (Some e, l, st') → st' = st.
Proof.
  unfold ExecuteInTransaction.
  destruct (fn st) as [[[err|] l1] tx].
  - by intros [= _ _ <-].
  - destruct (faults st OpCommit); [by intros [= _ _ <-]|discriminate].
Qed.

Lemma ExecuteInTransaction_commit {L} (st st' : Store)
    (fn : Store → option error * L * Store) (l : L) :
  ExecuteInTransaction st fn = (None, l, st') →
  fn st = (None, l, st') ∧ faults st OpCommit = false.
Proof.
  unfold ExecuteInTransaction.
  destruct (fn st) as [[[err|] l1] tx]; [discriminate|].
  destruct (faults st OpCommit) eqn:Hc; [discriminate|].
  by intros [= -> ->].
Qed.

(** ** Lemmas on linkage *)

Lemma slices_Contains_true (l : list string) (x : string) :
  slices_Contains l x = true ↔ x ∈ l.
Proof. unfold slices_Contains. by rewrite bool_decide_eq_true. Qed.

Lemma slices_Contains_false (l : list string) (x : string) :
  slices_Contains l x = false ↔ x ∉ l.
Proof. unfold slices_Contains. by rewrite bool_decide_eq_false. Qed.

Lemma ruleLinks_true (G : string) (rules : list PolicyRule) :
  ruleLinks G rules = true ↔
  ∃ rule, rule ∈ rules ∧ (G ∈ Rule_Sources rule ∨ G ∈ Rule_Destinations rule).
Proof.
  induction rules as [|r rules IH]; simpl.
  - split; [discriminate|]. intros (r & Hr & _). by apply elem_of_nil in Hr.
  - destruct (slices_Contains (Rule_Sources r) G
              || slices_Contains (Rule_Destinations r) G) eqn:Hc.
    + split; [|done]. intros _. exists r. split; [left|].
      apply orb_true_iff in Hc as [Hc|Hc]; apply slices_Contains_true in Hc; auto.
    + apply orb_false_iff in Hc as [Hs Hd].
      apply slices_Contains_false in Hs, Hd.
      rewrite IH. split.
      * intros (r' & Hr' & Hl). exists r'. split; [by right|done].
      * intros (r' & Hr' & Hl). apply elem_of_cons in Hr' as [->|Hr'].
        -- destruct Hl; contradiction.
        -- eauto.
  Qed.

Lemma findLinkedPolicy_true (G : string) (policies : list Policy) :
  (findLinkedPolicy G policies).1 = true ↔
  ∃ policy, policy ∈ policies ∧ ruleLinks G (Policy_Rules policy) = true.
Proof.
  induction policies as [|p policies IH]; simpl.
  - split; [discriminate|]. intros (r & Hr & _). by apply elem_of_nil in Hr.
  - destruct (ruleLinks G (Policy_Rules p)) eqn:Hc; simpl.
    + split; [|done]. intros _. exists p. split; [left|done].
    + rewrite IH. split.
      * intros (p' & Hp' & Hl). exists p'. split; [by right|done].
      * intros (p' & Hp' & Hl). apply elem_of_cons in Hp' as [->|Hp'].
        -- congruence.
        -- eauto.
Qed.

Lemma findLinkedRoute_true (G : string) (routes : list Route) :
  (findLinkedRoute G routes).1 = true ↔
  ∃ r, r ∈ routes ∧ (G ∈ Route_Groups r ∨ G ∈ Route_PeerGroups r).
Proof.
  induction routes as [|r routes IH]; simpl.
  - split; [discriminate|]. intros (r & Hr & _). by apply elem_of_nil in Hr.
  - destruct (slices_Contains (Route_Groups r) G
              || slices_Contains (Route_PeerGroups r) G) eqn:Hc; simpl.
    + split; [|done]. intros _. exists r. split; [left|].
      apply orb_true_iff in Hc as [Hc|Hc]; apply slices_Contains_true in Hc; auto.
    + apply orb_false_iff in Hc as [Hs Hd].
      apply slices_Contains_false in Hs, Hd.
      rewrite IH. split.
      * intros (r' & Hr' & Hl). exists r'. split; [by right|done].
      * intros (r' & Hr' & Hl). apply elem_of_cons in Hr' as [->|Hr'].
        -- destruct Hl; contradiction.
        -- eauto.
Qed.

(** The impact loop answers true as soon as one group of the list meets one
    of its four tests. *)
Lemma anyGroupAffectsPeers_true (tx : Store) (accountID : string)
    (dns : DNSSettings) (groupIDs : list string) :
  anyGroupAffectsPeers tx accountID dns groupIDs = true ↔
  ∃ G, G ∈ groupIDs ∧
       (G ∈ DisabledManagementGroups dns
        ∨ (isGroupLinkedToDns tx accountID G).1 = true
        ∨ (isGroupLinkedToPolicy tx accountID G).1 = true
        ∨ (isGroupLinkedToRoute tx accountID G).1 = true).
Proof.
  induction groupIDs as [|g groupIDs IH]; simpl.
  - split; [discriminate|]. intros (G & HG & _). by apply elem_of_nil in HG.
  - destruct (slices_Contains (DisabledManagementGroups dns) g) eqn:H1.
    { split; [|done]. intros _. exists g. split; [left|left].
      by apply slices_Contains_true. }
    destruct (isGroupLinkedToDns tx accountID g).1 eqn:H2.
    { split; [|done]. intros _. exists g. split; [left|auto]. }
    destruct (isGroupLinkedToPolicy tx accountID g).1 eqn:H3.
    { split; [|done]. intros _. exists g. split; [left|auto]. }
    destruct (isGroupLinkedToRoute tx accountID g).1 eqn:H4.
    { split; [|done]. intros _. exists g. split; [left|auto]. }
    apply slices_Contains_false in H1.
    rewrite IH. split.
    + intros (G & HG & Hl). exists G. split; [by right|done].
    + intros (G & HG & Hl). apply elem_of_cons in HG as [->|HG]; [|eauto].
      destruct Hl as [?|[?|[?|?]]]; [contradiction|congruence..].
Qed.

(** ** The impact predicate *)

(** C2, as stated, fails. In the sample deployment the enabled rule of the
    policy Eng has eng as its source and its destination; on the store whose
    read of the policies fails, the DNS settings are read, and the impact
    predicate over eng answers false, without error: the account state holds
    the reference and the predicate misses it. *)
Lemma impact_false_negative_on_failed_read :
  (∃ policy rule,
     accounts exStorePoliciesFail !! "acc1" = Some exAccount1
     ∧ policy ∈ Account_Policies exAccount1
     ∧ Policy_Enabled policy = true
     ∧ rule ∈ Policy_Rules policy ∧ Rule_Enabled rule = true
     ∧ "eng" ∈ Rule_Sources rule ∧ "eng" ∈ Rule_Destinations rule)
  ∧ GetAccountDNSSettings exStorePoliciesFail LockingStrengthShare "acc1"
    = Ok (mkDNSSettings [])
  ∧ areGroupChangesAffectPeers exStorePoliciesFail "acc1" ["eng"] = (false, None)
  ∧ areGroupChangesAffectPeers exStorePoliciesFail "acc1" ["eng"] ≠ (true, None).
Proof.
  split.
  - exists (mkPolicy "Eng" true [mkPolicyRule true ["eng"] ["eng"]]),
      (mkPolicyRule true ["eng"] ["eng"]).
    split; [reflexivity|]. split; [right; left|]. split; [reflexivity|].
    split; [left|]. split; [reflexivity|]. split; left.
  - split; [reflexivity|]. split; [vm_compute; reflexivity|].
    vm_compute. discriminate.
Qed.

(** C2, amended. The impact predicate has no false negative on the spec's
    defining conditions when the store returns what holds the reference:
    when the store returns the account's DNS settings, and a group G of the
    list is a source or destination of an enabled rule of a policy the store
    returns, or is in the DNS-management-disabled list, or is in the group
    or peer-group list of a route the store returns, then
    [areGroupChangesAffectPeers] answers true, without error. The code tests
    every rule, enabled or not. *)
Theorem impact_no_false_negative (st : Store) (accountID G : string)
    (groupIDs : list string) (dns : DNSSettings) :
  G ∈ groupIDs →
  GetAccountDNSSettings st LockingStrengthShare accountID = Ok dns →
  ((∃ policies policy rule,
      GetAccountPolicies st LockingStrengthShare accountID = Ok policies
      ∧ policy ∈ policies ∧ rule ∈ Policy_Rules policy
      ∧ Rule_Enabled rule = true
      ∧ (G ∈ Rule_Sources rule ∨ G ∈ Rule_Destinations rule))
   ∨ G ∈ DisabledManagementGroups dns
   ∨ (∃ routes r,
        GetAccountRoutes st LockingStrengthShare accountID = Ok routes
        ∧ r ∈ routes ∧ (G ∈ Route_Groups r ∨ G ∈ Route_PeerGroups r))) →
  areGroupChangesAffectPeers st accountID groupIDs = (true, None).
Proof.
  intros HG Hdns Hlink.
  unfold areGroupChangesAffectPeers. rewrite Hdns.
  destruct groupIDs as [|g0 rest]; [by apply elem_of_nil in HG|].
  f_equal. apply anyGroupAffectsPeers_true.
  exists G. split; [done|].
  destruct Hlink as [(policies & policy & rule & Hp & Hin & Hr & _ & Hsd)
                    |[Hdis|(routes & r & Hr & Hin & Hg)]].
  - right; right; left. unfold isGroupLinkedToPolicy. rewrite Hp.
    apply findLinkedPolicy_true. exists policy. split; [done|].
    apply ruleLinks_true. eauto.
  - by left.
  - right; right; right. unfold isGroupLinkedToRoute. rewrite Hr.
    apply findLinkedRoute_true. eauto.
Qed.

Lemma impact_no_false_negative_witness :
  areGroupChangesAffectPeers exStore "acc1" ["misc"; "eng"] = (true, None).
Proof.
  apply (impact_no_false_negative exStore "acc1" "eng" ["misc"; "eng"]
           (mkDNSSettings [])).
  - set_solver.
  - reflexivity.
  - left. exists (Account_Policies exAccount1), (mkPolicy "Eng" true [mkPolicyRule true ["eng"] ["eng"]]),
      (mkPolicyRule true ["eng"] ["eng"]).
    split; [reflexivity|]. split; [set_solver|]. split; [set_solver|].
    split; [reflexivity|]. left. set_solver.
Defined.

(** C9. A group that passes the deletion validation is not impactful: when
    [validateDeleteGroup] accepts a group, [areGroupChangesAffectPeers] over
    the group's ID in the group's account answers false, without error. Both
    read the same store, so each read gives both the same answer. *)
Theorem validated_group_has_no_impact (IsGroupAll : Group → bool)
    (st : Store) (group : Group) (userID : string) :
  validateDeleteGroup IsGroupAll st group userID = None →
  areGroupChangesAffectPeers st (Group_AccountID group) [Group_ID group]
  = (false, None).
Proof.
  unfold validateDeleteGroup, areGroupChangesAffectPeers. simpl.
  intros H.
  destruct (if bool_decide (Group_Issued group = GroupIssuedIntegration)
            then _ else _) as [e|]; [discriminate|].
  destruct (IsGroupAll group); [discriminate|].
  destruct (isGroupLinkedToRoute st (Group_AccountID group) (Group_ID group))
    as [[] lr]; [discriminate|].
  destruct (isGroupLinkedToDns st (Group_AccountID group) (Group_ID group))
    as [[] ld]; [discriminate|].
  destruct (isGroupLinkedToPolicy st (Group_AccountID group) (Group_ID group))
    as [[] lp]; [discriminate|].
  destruct (isGroupLinkedToSetupKey st (Group_AccountID group) (Group_ID group))
    as [[] lk]; [discriminate|].
  destruct (isGroupLinkedToUser st (Group_AccountID group) (Group_ID group))
    as [[] lu]; [discriminate|].
  unfold checkGroupLinkedToSettings in H.
  destruct (GetAccountDNSSettings st LockingStrengthShare (Group_AccountID group))
    as [dns|e]; [|discriminate].
  destruct (slices_Contains (DisabledManagementGroups dns) (Group_ID group));
    [discriminate|].
  reflexivity.
Qed.

Lemma validated_group_has_no_impact_witness :
  areGroupChangesAffectPeers exStore "acc1" ["misc"] = (false, None).
Proof.
  apply (validated_group_has_no_impact exIsGroupAll exStore
           (mkGroup "misc" "acc1" "misc" GroupIssuedAPI []) "admin").
  vm_compute. reflexivity.
Defined.

(** ** Store read failures in the linkage helpers *)

Lemma existsb_disabled_nil_free (tx : Store) (accountID : string)
    (dns : DNSSettings) (groupIDs : list string) :
  readFails (GetAccountNameServerGroups tx LockingStrengthShare accountID) →
  readFails (GetAccountPolicies tx LockingStrengthShare accountID) →
  readFails (GetAccountRoutes tx LockingStrengthShare accountID) →
  anyGroupAffectsPeers tx accountID dns groupIDs
  = existsb (slices_Contains (DisabledManagementGroups dns)) groupIDs.
Proof.
  intros [e1 H1] [e2 H2] [e3 H3].
  induction groupIDs as [|g rest IH]; [done|]. simpl.
  unfold isGroupLinkedToDns, isGroupLinkedToPolicy, isGroupLinkedToRoute.
  rewrite H1, H2, H3. simpl. rewrite IH.
  by destruct (slices_Contains (DisabledManagementGroups dns) g).
Qed.

(** C10. When the store read of routes, policies, name-server groups, setup
    keys or users fails, the matching [isGroupLinkedTo...] helper answers
    (false, nil): the group counts as unlinked and the store error is
    dropped. So, when all these reads fail, the deletion validation of a
    group that is neither integration-issued nor ALL is left with the
    settings check alone, and the impact predicate with the
    DNS-management-disabled list alone; neither returns the store error. *)
Theorem linkage_read_failure_is_unlinked (IsGroupAll : Group → bool)
    (st : Store) (accountID groupID : string) :
  (readFails (GetAccountRoutes st LockingStrengthShare accountID) →
   isGroupLinkedToRoute st accountID groupID = (false, None))
  ∧ (readFails (GetAccountPolicies st LockingStrengthShare accountID) →
     isGroupLinkedToPolicy st accountID groupID = (false, None))
  ∧ (readFails (GetAccountNameServerGroups st LockingStrengthShare accountID) →
     isGroupLinkedToDns st accountID groupID = (false, None))
  ∧ (readFails (GetAccountSetupKeys st LockingStrengthShare accountID) →
     isGroupLinkedToSetupKey st accountID groupID = (false, None))
  ∧ (readFails (GetAccountUsers st LockingStrengthShare accountID) →
     isGroupLinkedToUser st accountID groupID = (false, None))
  ∧ (∀ (group : Group) (userID : string),
       Group_AccountID group = accountID →
       Group_Issued group ≠ GroupIssuedIntegration →
       IsGroupAll group = false →
       readFails (GetAccountRoutes st LockingStrengthShare accountID) →
       readFails (GetAccountNameServerGroups st LockingStrengthShare accountID) →
       readFails (GetAccountPolicies st LockingStrengthShare accountID) →
       readFails (GetAccountSetupKeys st LockingStrengthShare accountID) →
       readFails (GetAccountUsers st LockingStrengthShare accountID) →
       validateDeleteGroup IsGroupAll st group userID
       = checkGroupLinkedToSettings st group)
  ∧ (∀ (dns : DNSSettings) (groupIDs : list string),
       GetAccountDNSSettings st LockingStrengthShare accountID = Ok dns →
       readFails (GetAccountNameServerGroups st LockingStrengthShare accountID) →
       readFails (GetAccountPolicies st LockingStrengthShare accountID) →
       readFails (GetAccountRoutes st LockingStrengthShare accountID) →
       areGroupChangesAffectPeers st accountID groupIDs
       = (existsb (slices_Contains (DisabledManagementGroups dns)) groupIDs, None)).
Proof.
  repeat split.
  - intros [e H]. unfold isGroupLinkedToRoute. by rewrite H.
  - intros [e H]. unfold isGroupLinkedToPolicy. by rewrite H.
  - intros [e H]. unfold isGroupLinkedToDns. by rewrite H.
  - intros [e H]. unfold isGroupLinkedToSetupKey. by rewrite H.
  - intros [e H]. unfold isGroupLinkedToUser. by rewrite H.
  - intros group userID Hacc Hiss Hall [e1 H1] [e2 H2] [e3 H3] [e4 H4] [e5 H5].
    unfold validateDeleteGroup.
    rewrite bool_decide_eq_false_2 by done. rewrite Hall.
    unfold isGroupLinkedToRoute, isGroupLinkedToDns, isGroupLinkedToPolicy,
      isGroupLinkedToSetupKey, isGroupLinkedToUser.
    rewrite Hacc, H1, H2, H3, H4, H5. reflexivity.
  - intros dns groupIDs Hdns Hn Hp Hr.
    unfold areGroupChangesAffectPeers. rewrite Hdns.
    destruct groupIDs as [|g rest]; [done|].
    by rewrite existsb_disabled_nil_free.
Qed.

Lemma linkage_read_failure_is_unlinked_witness :
  isGroupLinkedToPolicy exStore "acc1" "eng"
  = (true, Some (mkPolicy "Eng" true [mkPolicyRule true ["eng"] ["eng"]]))
  ∧ isGroupLinkedToPolicy exStoreFailing "acc1" "eng" = (false, None)
  ∧ validateDeleteGroup exIsGroupAll exStoreFailing
      (mkGroup "eng" "acc1" "eng" GroupIssuedAPI ["p1"]) "admin"
    = checkGroupLinkedToSettings exStoreFailing
        (mkGroup "eng" "acc1" "eng" GroupIssuedAPI ["p1"])
  ∧ areGroupChangesAffectPeers exStoreFailing "acc1" ["eng"] = (false, None).
Proof.
  pose proof (linkage_read_failure_is_unlinked exIsGroupAll exStoreFailing
                "acc1" "eng") as (_ & Hp & _ & _ & _ & Hv & Hi).
  split; [reflexivity|].
  split; [apply Hp; eexists; reflexivity|].
  split.
  - apply Hv; try reflexivity; try discriminate; eexists; reflexivity.
  - apply (Hi (mkDNSSettings [])); try reflexivity; eexists; reflexivity.
Defined.

(** ** Lemmas on the writes of the store *)

Lemma serialOf_withAccount (st : Store) (accountID acc : string) (a : Account) :
  serialOf (Store_withAccount st accountID a) acc
  = if decide (accountID = acc) then Account_Serial a else serialOf st acc.
Proof.
  unfold serialOf, Store_withAccount. simpl.
  rewrite lookup_insert. by destruct (decide (accountID = acc)).
Qed.

Lemma groupOf_withAccount (st : Store) (accountID acc gid : string) (a : Account) :
  groupOf (Store_withAccount st accountID a) acc gid
  = if decide (accountID = acc) then Account_Groups a !! gid
    else groupOf st acc gid.
Proof.
  unfold groupOf, Store_withAccount. simpl.
  rewrite lookup_insert. by destruct (decide (accountID = acc)).
Qed.

Lemma IncrementNetworkSerial_Ok (st st' : Store) (s : LockingStrength)
    (accountID : string) :
  IncrementNetworkSerial st s accountID = Ok st' →
  serialOf st' accountID = S (serialOf st accountID)
  ∧ (∀ acc gid, groupOf st' acc gid = groupOf st acc gid)
  ∧ faults st' = faults st.
Proof.
  unfold IncrementNetworkSerial. intros H.
  apply guarded_Ok in H as [_ H].
  apply withAccount_Ok in H as (a & Ha & [= <-]).
  split; [|split; [|done]].
  - rewrite serialOf_withAccount, decide_True by done.
    unfold serialOf. by rewrite Ha.
  - intros acc gid. rewrite groupOf_withAccount.
    destruct (decide (accountID = acc)) as [<-|]; [|done].
    unfold groupOf. by rewrite Ha.
Qed.

Lemma putGroup_Ok (st st' : Store) (g : Group) :
  putGroup st g = Ok st' →
  (∀ acc, serialOf st' acc = serialOf st acc)
  ∧ (∀ acc gid, groupOf st' acc gid
                = if decide (Group_AccountID g = acc ∧ Group_ID g = gid)
                  then Some g else groupOf st acc gid)
  ∧ faults st' = faults st.
Proof.
  unfold putGroup. intros H.
  apply withAccount_Ok in H as (a & Ha & [= <-]).
  split; [|split; [|done]].
  - intros acc. rewrite serialOf_withAccount.
    destruct (decide (Group_AccountID g = acc)) as [<-|]; [|done].
    unfold serialOf. by rewrite Ha.
  - intros acc gid. rewrite groupOf_withAccount. simpl.
    destruct (decide (Group_AccountID g = acc)) as [<-|Hne].
    + rewrite lookup_insert.
      destruct (decide (Group_ID g = gid)) as [<-|Hg].
      * by rewrite decide_True.
      * rewrite decide_False by (by intros [? ?]).
        unfold groupOf. by rewrite Ha.
    + by rewrite decide_False by (by intros [? ?]).
Qed.

Lemma putGroups_serialOf (groups : list Group) (st st' : Store) :
  putGroups st groups = Ok st' → ∀ acc, serialOf st' acc = serialOf st acc.
Proof.
  revert st. induction groups as [|g groups IH]; simpl; intros st H acc.
  - by injection H as <-.
  - destruct (putGroup st g) as [st1|e] eqn:Hp; [|discriminate].
    rewrite (IH _ H). by apply putGroup_Ok in Hp as (Hs & _).
Qed.

Lemma lookup_foldr_delete_list (m : gmap string Group) (ids : list string)
    (gid : string) :
  foldr delete m ids !! gid = if decide (gid ∈ ids) then None else m !! gid.
Proof.
  induction ids as [|i ids IH].
  - destruct (decide (gid ∈ [])) as [Hin|_]; [by apply elem_of_nil in Hin|done].
  - cbn [foldr]. rewrite lookup_delete, IH.
    destruct (decide (i = gid)) as [->|Hne];
      destruct (decide (gid ∈ ids)) as [Hin|Hnin];
      destruct (decide (gid ∈ _ :: ids)) as [Hin'|Hnin']; try done.
    + exfalso. apply Hnin'. left.
    + exfalso. apply Hnin'. left.
    + exfalso. apply Hnin'. by right.
    + exfalso. apply elem_of_cons in Hin' as [->|?]; done.
Qed.

Lemma Store_DeleteGroups_Ok (st st' : Store) (s : LockingStrength)
    (accountID : string) (ids : list string) :
  Store_DeleteGroups st s accountID ids = Ok st' →
  (∀ acc, serialOf st' acc = serialOf st acc)
  ∧ (∀ acc gid, groupOf st' acc gid
                = if decide (accountID = acc ∧ gid ∈ ids)
                  then None else groupOf st acc gid).
Proof.
  unfold Store_DeleteGroups. intros H.
  apply guarded_Ok in H as [_ H].
  apply withAccount_Ok in H as (a & Ha & [= <-]).
  split.
  - intros acc. rewrite serialOf_withAccount.
    destruct (decide (accountID = acc)) as [<-|]; [|done].
    unfold serialOf. by rewrite Ha.
  - intros acc gid. rewrite groupOf_withAccount. simpl.
    destruct (decide (accountID = acc)) as [<-|Hne].
    + rewrite lookup_foldr_delete_list.
      destruct (decide (gid ∈ ids)).
      * by rewrite decide_True.
      * rewrite decide_False by (by intros [? ?]). unfold groupOf. by rewrite Ha.
    + by rewrite decide_False by (by intros [? ?]).
Qed.

Lemma GetGroupByID_Ok (st : Store) (s : LockingStrength)
    (accountID groupID : string) (g : Group) :
  GetGroupByID st s accountID groupID = Ok g →
  groupOf st accountID groupID = Some g.
Proof.
  unfold GetGroupByID. intros H.
  apply guarded_Ok in H as [_ H].
  apply withAccount_Ok in H as (a & Ha & H).
  unfold groupOf. rewrite Ha. simpl.
  destruct (Account_Groups a !! groupID); [by injection H as ->|discriminate].
Qed.

Lemma AM_eta (am : DefaultAccountManager) :
  mkAM (AM_Store am) (AM_events am) (AM_peerUpdates am) (AM_xids am) = am.
Proof. by destruct am. Qed.

(** ** Failed transactions *)

(** C8. When the store transaction of [SaveGroups], [DeleteGroups],
    [GroupAddPeer] or [GroupDeletePeer] fails (a step returns an error or the
    commit fails), the operation returns that error, the store is as before,
    no audit event is stored and no propagation is triggered. *)
Theorem failed_transaction_has_no_side_effects
    (IsGroupAll : Group → bool) (xid_New : nat → string)
    (am : DefaultAccountManager) (accountID userID groupID peerID : string)
    (groups : list Group) (groupIDs : list string) (e : error) :
  (∀ l st',
     checkRequester (AM_Store am) accountID userID = None →
     ExecuteInTransaction (AM_Store am)
       (SaveGroups_tx xid_New accountID userID groups
          (mkSaveLocals [] [] false (AM_xids am))) = (Some e, l, st') →
     ∃ am', SaveGroups xid_New am accountID userID groups = (Some e, am')
            ∧ noSideEffects am am')
  ∧ (∀ l st',
       checkRequester (AM_Store am) accountID userID = None →
       ExecuteInTransaction (AM_Store am)
         (DeleteGroups_tx IsGroupAll accountID userID groupIDs
            (mkDeleteLocals None [] [])) = (Some e, l, st') →
       ∃ am', DeleteGroups IsGroupAll am accountID userID groupIDs = (Some e, am')
              ∧ noSideEffects am am')
  ∧ (∀ upd st',
       ExecuteInTransaction (AM_Store am)
         (GroupChangePeer_tx AddPeer accountID groupID peerID false)
       = (Some e, upd, st') →
       ∃ am', GroupAddPeer am accountID groupID peerID = (Some e, am')
              ∧ noSideEffects am am')
  ∧ (∀ upd st',
       ExecuteInTransaction (AM_Store am)
         (GroupChangePeer_tx RemovePeer accountID groupID peerID false)
       = (Some e, upd, st') →
       ∃ am', GroupDeletePeer am accountID groupID peerID = (Some e, am')
              ∧ noSideEffects am am').
Proof.
  repeat split.
  - intros l st' Hreq Htx. unfold SaveGroups. rewrite Hreq, Htx.
    apply ExecuteInTransaction_rollback in Htx as ->.
    eexists. split; [reflexivity|]. by repeat split.
  - intros l st' Hreq Htx. unfold DeleteGroups. rewrite Hreq, Htx.
    apply ExecuteInTransaction_rollback in Htx as ->.
    eexists. split; [reflexivity|]. by repeat split.
  - intros upd st' Htx. unfold GroupAddPeer, GroupChangePeer. rewrite Htx.
    apply ExecuteInTransaction_rollback in Htx as ->.
    eexists. split; [reflexivity|]. by repeat split.
  - intros upd st' Htx. unfold GroupDeletePeer, GroupChangePeer. rewrite Htx.
    apply ExecuteInTransaction_rollback in Htx as ->.
    eexists. split; [reflexivity|]. by repeat split.
Qed.

Lemma failed_transaction_has_no_side_effects_witness :
  (∃ am', SaveGroups exXid exAMCommitFails "acc1" "admin"
            [mkGroup "" "" "ops" GroupIssuedAPI ["p1"]]
          = (Some (StoreError OpCommit), am')
          ∧ noSideEffects exAMCommitFails am')
  ∧ (∃ am', GroupAddPeer exAMIncrementFails "acc1" "eng" "p2"
            = (Some (StoreError OpIncrementNetworkSerial), am')
            ∧ noSideEffects exAMIncrementFails am').
Proof.
  split.
  - pose proof (failed_transaction_has_no_side_effects exIsGroupAll exXid
                  exAMCommitFails "acc1" "admin" "" ""
                  [mkGroup "" "" "ops" GroupIssuedAPI ["p1"]] []
                  (StoreError OpCommit)) as (H & _).
    eapply H; [reflexivity|]. vm_compute. reflexivity.
  - pose proof (failed_transaction_has_no_side_effects exIsGroupAll exXid
                  exAMIncrementFails "acc1" "" "eng" "p2" [] []
                  (StoreError OpIncrementNetworkSerial)) as (_ & _ & H & _).
    eapply H. vm_compute. reflexivity.
Defined.

(** ** The checks of the requester *)

Lemma GroupChangePeer_tx_users (change : Group → string → bool * Group)
    (accountID groupID peerID : string) (upd0 : bool) (st : Store)
    (us : gmap string User) :
  GroupChangePeer_tx change accountID groupID peerID upd0 (Store_withUsers st us)
  = let '(err, upd, st') :=
      GroupChangePeer_tx change accountID groupID peerID upd0 st in
    (err, upd, Store_withUsers st' us).
Proof.
  unfold GroupChangePeer_tx.
  change (GetGroupByID (Store_withUsers st us) LockingStrengthUpdate accountID groupID)
    with (GetGroupByID st LockingStrengthUpdate accountID groupID).
  destruct (GetGroupByID st LockingStrengthUpdate accountID groupID) as [g|e];
    [|done].
  destruct (change g peerID) as [[] g']; cbn [negb]; [|done].
  change (areGroupChangesAffectPeers (Store_withUsers st us) accountID [groupID])
    with (areGroupChangesAffectPeers st accountID [groupID]).
  destruct (areGroupChangesAffectPeers st accountID [groupID]) as [u [e|]];
    [done|].
  unfold IncrementNetworkSerial, Store_SaveGroup, putGroup, guarded, withAccount.
  cbn [Store_withUsers faults accounts].
  destruct (faults st OpIncrementNetworkSerial); [reflexivity|].
  destruct (accounts st !! accountID) as [a|]; [|reflexivity].
  cbn [Store_withUsers Store_withAccount faults accounts users].
  destruct (faults st OpSaveGroup); [reflexivity|].
  destruct (<[accountID:=_]> (accounts st) !! Group_AccountID g'); reflexivity.
Qed.

(** The peer operations read no user: with another table of users they
    return the same error and make the same changes. *)
Lemma GroupChangePeer_users (change : Group → string → bool * Group)
    (am : DefaultAccountManager) (accountID groupID peerID : string)
    (us : gmap string User) :
  GroupChangePeer change (AM_withUsers am us) accountID groupID peerID
  = ((GroupChangePeer change am accountID groupID peerID).1,
     AM_withUsers (GroupChangePeer change am accountID groupID peerID).2 us).
Proof.
  unfold GroupChangePeer, ExecuteInTransaction. cbn [AM_withUsers AM_Store].
  rewrite GroupChangePeer_tx_users.
  destruct (GroupChangePeer_tx change accountID groupID peerID false (AM_Store am))
    as [[[e|] upd] st']; [reflexivity|].
  cbn [Store_withUsers faults].
  destruct (faults (AM_Store am) OpCommit); reflexivity.
Qed.

(** C7, as stated, fails. [GroupAddPeer] takes no requester and checks no
    permission: in the sample deployment it adds p2 to eng whoever asks, bob
    the regular user included. And [SaveGroups] compares the accounts before
    it looks at the role: eve, a regular user of another account, gets
    [UserNotPartOfAccount], not [PermissionDenied]. *)
Lemma regular_user_not_always_denied :
  (∃ bob, users exStore !! "bob" = Some bob ∧ IsRegularUser bob = true)
  ∧ (GroupAddPeer exAM "acc1" "eng" "p2").1 = None
  ∧ Group_Peers <$> groupOf (AM_Store (GroupAddPeer exAM "acc1" "eng" "p2").2)
                      "acc1" "eng" = Some ["p1"; "p2"]
  ∧ (∃ eve, users exStore !! "eve" = Some eve ∧ IsRegularUser eve = true)
  ∧ SaveGroups exXid exAM "acc1" "eve"
      [mkGroup "misc" "acc1" "misc" GroupIssuedAPI ["p1"]]
    = (Some NewUserNotPartOfAccountError, exAM)
  ∧ NewUserNotPartOfAccountError ≠ NewAdminPermissionError.
Proof.
  split; [eexists; split; vm_compute; reflexivity|].
  split; [vm_compute; reflexivity|].
  split; [vm_compute; reflexivity|].
  split; [eexists; split; vm_compute; reflexivity|].
  split; [vm_compute; reflexivity|discriminate].
Qed.

(** C7, amended. [SaveGroups] and [DeleteGroups] check the requester the
    store resolves before they open the transaction: a requester of another
    account gets [UserNotPartOfAccount], and a regular requester of the
    target account gets [PermissionDenied]; in both cases the manager is left
    exactly as it was, whatever the store would do in a transaction.
    [GroupAddPeer] and [GroupDeletePeer] take no requester and check no
    permission: what they return and change does not depend on the users. *)
Theorem requester_checked_before_transaction
    (IsGroupAll : Group → bool) (xid_New : nat → string)
    (am : DefaultAccountManager) (accountID userID : string) (user : User)
    (groups : list Group) (groupIDs : list string) :
  (GetUserByUserID (AM_Store am) LockingStrengthShare userID = Ok user →
   (User_AccountID user ≠ accountID →
    SaveGroups xid_New am accountID userID groups
    = (Some NewUserNotPartOfAccountError, am)
    ∧ DeleteGroups IsGroupAll am accountID userID groupIDs
      = (Some NewUserNotPartOfAccountError, am))
   ∧ (User_AccountID user = accountID → IsRegularUser user = true →
      SaveGroups xid_New am accountID userID groups
      = (Some NewAdminPermissionError, am)
      ∧ DeleteGroups IsGroupAll am accountID userID groupIDs
        = (Some NewAdminPermissionError, am)))
  ∧ (∀ (groupID peerID : string) (us : gmap string User),
       GroupAddPeer (AM_withUsers am us) accountID groupID peerID
       = ((GroupAddPeer am accountID groupID peerID).1,
          AM_withUsers (GroupAddPeer am accountID groupID peerID).2 us)
       ∧ GroupDeletePeer (AM_withUsers am us) accountID groupID peerID
         = ((GroupDeletePeer am accountID groupID peerID).1,
            AM_withUsers (GroupDeletePeer am accountID groupID peerID).2 us)).
Proof.
  split.
  - intros Hu. split.
    + intros Hne.
      assert (checkRequester (AM_Store am) accountID userID
              = Some NewUserNotPartOfAccountError) as Hc.
      { unfold checkRequester. rewrite Hu.
        by rewrite bool_decide_eq_false_2. }
      unfold SaveGroups, DeleteGroups. by rewrite Hc.
    + intros Heq Hreg.
      assert (checkRequester (AM_Store am) accountID userID
              = Some NewAdminPermissionError) as Hc.
      { unfold checkRequester. rewrite Hu.
        rewrite bool_decide_eq_true_2 by done. simpl. by rewrite Hreg. }
      unfold SaveGroups, DeleteGroups. by rewrite Hc.
  - intros groupID peerID us. split; apply GroupChangePeer_users.
Qed.

Lemma requester_checked_before_transaction_witness :
  (SaveGroups exXid exAM "acc1" "eve" [] = (Some NewUserNotPartOfAccountError, exAM)
   ∧ DeleteGroups exIsGroupAll exAM "acc1" "eve" ["misc"]
     = (Some NewUserNotPartOfAccountError, exAM))
  ∧ (SaveGroups exXid exAM "acc1" "bob" [] = (Some NewAdminPermissionError, exAM)
     ∧ DeleteGroups exIsGroupAll exAM "acc1" "bob" ["misc"]
       = (Some NewAdminPermissionError, exAM)).
Proof.
  split.
  - apply (requester_checked_before_transaction exIsGroupAll exXid exAM
             "acc1" "eve" (mkUser "eve" "acc2" UserRoleUser false []) [] ["misc"]).
    + reflexivity.
    + simpl. discriminate.
  - apply (requester_checked_before_transaction exIsGroupAll exXid exAM
             "acc1" "bob" (mkUser "bob" "acc1" UserRoleUser false []) [] ["misc"]).
    + reflexivity.
    + reflexivity.
    + reflexivity.
Defined.

(** ** The network serial *)

Lemma SaveGroups_tx_commit (xid_New : nat → string) (accountID userID : string)
    (groups : list Group) (l0 l : SaveLocals) (st st' : Store) :
  SaveGroups_tx xid_New accountID userID groups l0 st = (None, l, st') →
  serialOf st' accountID = S (serialOf st accountID).
Proof.
  unfold SaveGroups_tx.
  destruct (SaveGroups_loop xid_New st accountID userID groups [] l0)
    as [[[e|] ids] l1]; [discriminate|].
  destruct (areGroupChangesAffectPeers st accountID ids) as [upd [e|]];
    [discriminate|].
  destruct (IncrementNetworkSerial st LockingStrengthUpdate accountID)
    as [tx1|e] eqn:Hinc; [|discriminate].
  simpl.
  destruct (Store_SaveGroups tx1 LockingStrengthUpdate (groupsToSave l1))
    as [tx2|e] eqn:Hsave; [|discriminate].
  intros [= _ <-].
  apply IncrementNetworkSerial_Ok in Hinc as (Hs & _).
  unfold Store_SaveGroups in Hsave. apply guarded_Ok in Hsave as [_ Hsave].
  by rewrite (putGroups_serialOf _ _ _ Hsave).
Qed.

Lemma DeleteGroups_tx_commit (IsGroupAll : Group → bool)
    (accountID userID : string) (groupIDs : list string)
    (l0 l : DeleteLocals) (st st' : Store) :
  DeleteGroups_tx IsGroupAll accountID userID groupIDs l0 st = (None, l, st') →
  l = DeleteGroups_loop IsGroupAll st accountID userID groupIDs l0
  ∧ serialOf st' accountID = S (serialOf st accountID)
  ∧ (∀ acc gid, groupOf st' acc gid
                = if decide (accountID = acc ∧ gid ∈ groupIDsToDelete l)
                  then None else groupOf st acc gid).
Proof.
  unfold DeleteGroups_tx.
  destruct (IncrementNetworkSerial st LockingStrengthUpdate accountID)
    as [tx1|e] eqn:Hinc; [|discriminate].
  destruct (Store_DeleteGroups tx1 LockingStrengthUpdate accountID _)
    as [tx2|e] eqn:Hdel; [|discriminate].
  intros [= <- <-].
  apply IncrementNetworkSerial_Ok in Hinc as (Hs & Hg & _).
  apply Store_DeleteGroups_Ok in Hdel as (Hs' & Hg').
  split; [done|]. split.
  - by rewrite Hs'.
  - intros acc gid. by rewrite Hg', Hg.
Qed.

Lemma GroupChangePeer_tx_commit (change : Group → string → bool * Group)
    (accountID groupID peerID : string) (upd0 upd : bool) (st st' : Store)
    (g : Group) :
  GetGroupByID st LockingStrengthUpdate accountID groupID = Ok g →
  (change g peerID).1 = true →
  GroupChangePeer_tx change accountID groupID peerID upd0 st = (None, upd, st') →
  serialOf st' accountID = S (serialOf st accountID)
  ∧ upd = (areGroupChangesAffectPeers st accountID [groupID]).1
  ∧ (∀ acc gid, groupOf st' acc gid
       = if decide (Group_AccountID (change g peerID).2 = acc
                    ∧ Group_ID (change g peerID).2 = gid)
         then Some (change g peerID).2 else groupOf st acc gid).
Proof.
  intros Hg Hch. unfold GroupChangePeer_tx. rewrite Hg.
  destruct (change g peerID) as [updated g'] eqn:Hc.
  cbn [fst snd] in *. subst updated. cbn [negb].
  destruct (areGroupChangesAffectPeers st accountID [groupID]) as [u [e|]];
    [discriminate|].
  destruct (IncrementNetworkSerial st LockingStrengthUpdate accountID)
    as [tx1|e] eqn:Hinc; [|discriminate].
  destruct (Store_SaveGroup tx1 LockingStrengthUpdate g') as [tx2|e] eqn:Hsave;
    [|discriminate].
  intros [= <- <-].
  apply IncrementNetworkSerial_Ok in Hinc as (Hs & Hgr & _).
  unfold Store_SaveGroup in Hsave. apply guarded_Ok in Hsave as [_ Hsave].
  apply putGroup_Ok in Hsave as (Hs' & Hg' & _).
  split; [by rewrite Hs'|]. split; [done|].
  intros acc gid. by rewrite Hg', Hgr.
Qed.

Lemma GroupChangePeer_None (change : Group → string → bool * Group)
    (am am' : DefaultAccountManager) (accountID groupID peerID : string) :
  GroupChangePeer change am accountID groupID peerID = (None, am') →
  ∃ upd,
    GroupChangePeer_tx change accountID groupID peerID false (AM_Store am)
    = (None, upd, AM_Store am')
    ∧ AM_events am' = AM_events am
    ∧ AM_peerUpdates am'
      = (if upd then AM_peerUpdates am ++ [accountID] else AM_peerUpdates am)
    ∧ AM_xids am' = AM_xids am.
Proof.
  unfold GroupChangePeer.
  destruct (ExecuteInTransaction _ _) as [[[e|] upd] st] eqn:Htx; [discriminate|].
  intros [= <-]. apply ExecuteInTransaction_commit in Htx as [Htx _].
  exists upd. by rewrite Htx.
Qed.

(** C1, as stated, fails: the serial is incremented although the impact
    predicate is false. In the sample deployment nothing links misc; the
    administrator renames it with [SaveGroups]: the operation commits, the
    predicate over the touched ID is false, no propagation is triggered, and
    the serial goes from 7 to 8. *)
Lemma serial_incremented_without_impact :
  let renamed := mkGroup "misc" "acc1" "misc-renamed" GroupIssuedAPI [] in
  let after := (SaveGroups exXid exAM "acc1" "admin" [renamed]).2 in
  (SaveGroups exXid exAM "acc1" "admin" [renamed]).1 = None
  ∧ areGroupChangesAffectPeers exStore "acc1" ["misc"] = (false, None)
  ∧ AM_peerUpdates after = []
  ∧ serialOf exStore "acc1" = 7
  ∧ serialOf (AM_Store after) "acc1" = 8
  ∧ ¬ (serialOf (AM_Store after) "acc1" = S (serialOf exStore "acc1")
       ↔ (areGroupChangesAffectPeers exStore "acc1" ["misc"]).1 = true).
Proof.
  cbv zeta.
  split; [vm_compute; reflexivity|].
  split; [vm_compute; reflexivity|].
  split; [vm_compute; reflexivity|].
  split; [vm_compute; reflexivity|].
  split; [vm_compute; reflexivity|].
  intros [H _]. assert (false = true) as Hf; [|discriminate Hf].
  apply H. vm_compute. reflexivity.
Qed.

(** C1, amended. Every mutating group operation that commits increments the
    account's network serial by one inside the transaction, whether the
    impact predicate is true or false: [SaveGroups] that returns nil,
    [DeleteGroups] whose transaction commits, and [GroupAddPeer] or
    [GroupDeletePeer] that returns nil after a change of membership. *)
Theorem committed_mutation_increments_serial
    (IsGroupAll : Group → bool) (xid_New : nat → string)
    (am : DefaultAccountManager) (accountID userID groupID peerID : string)
    (groups : list Group) (groupIDs : list string) :
  (∀ am', SaveGroups xid_New am accountID userID groups = (None, am') →
          serialOf (AM_Store am') accountID = S (serialOf (AM_Store am) accountID))
  ∧ (∀ l st',
       checkRequester (AM_Store am) accountID userID = None →
       ExecuteInTransaction (AM_Store am)
         (DeleteGroups_tx IsGroupAll accountID userID groupIDs
            (mkDeleteLocals None [] [])) = (None, l, st') →
       AM_Store (DeleteGroups IsGroupAll am accountID userID groupIDs).2 = st'
       ∧ serialOf st' accountID = S (serialOf (AM_Store am) accountID))
  ∧ (∀ g am',
       GetGroupByID (AM_Store am) LockingStrengthUpdate accountID groupID = Ok g →
       peerID ∉ Group_Peers g →
       GroupAddPeer am accountID groupID peerID = (None, am') →
       serialOf (AM_Store am') accountID = S (serialOf (AM_Store am) accountID))
  ∧ (∀ g am',
       GetGroupByID (AM_Store am) LockingStrengthUpdate accountID groupID = Ok g →
       peerID ∈ Group_Peers g →
       GroupDeletePeer am accountID groupID peerID = (None, am') →
       serialOf (AM_Store am') accountID = S (serialOf (AM_Store am) accountID)).
Proof.
  split; [|split; [|split]].
  - intros am'. unfold SaveGroups.
    destruct (checkRequester (AM_Store am) accountID userID); [discriminate|].
    destruct (ExecuteInTransaction _ _) as [[[e|] l] st] eqn:Htx; [discriminate|].
    intros [= <-]. simpl.
    apply ExecuteInTransaction_commit in Htx as [Htx _].
    by apply SaveGroups_tx_commit in Htx.
  - intros l st' Hreq Hexec. split.
    + unfold DeleteGroups. rewrite Hreq, Hexec. reflexivity.
    + apply ExecuteInTransaction_commit in Hexec as [Htx _].
      by apply DeleteGroups_tx_commit in Htx as (_ & Hs & _).
  - intros g am' Hg Hnin Hop.
    apply GroupChangePeer_None in Hop as (upd & Htx & _).
    eapply GroupChangePeer_tx_commit in Htx as (Hs & _); [done|done|].
    unfold AddPeer. by rewrite bool_decide_eq_false_2.
  - intros g am' Hg Hin Hop.
    apply GroupChangePeer_None in Hop as (upd & Htx & _).
    eapply GroupChangePeer_tx_commit in Htx as (Hs & _); [done|done|].
    unfold RemovePeer. by rewrite bool_decide_eq_true_2.
Qed.

Lemma committed_mutation_increments_serial_witness :
  serialOf
    (AM_Store (SaveGroups exXid exAM "acc1" "admin"
                 [mkGroup "misc" "acc1" "misc-renamed" GroupIssuedAPI []]).2)
    "acc1" = 8
  ∧ serialOf (AM_Store (DeleteGroups exIsGroupAll exAM "acc1" "admin" ["misc"]).2)
      "acc1" = 8
  ∧ serialOf (AM_Store (GroupAddPeer exAM "acc1" "misc" "p1").2) "acc1" = 8
  ∧ serialOf (AM_Store (GroupDeletePeer exAM "acc1" "eng" "p1").2) "acc1" = 8.
Proof.
  pose proof (committed_mutation_increments_serial exIsGroupAll exXid exAM
                "acc1" "admin" "misc" "p1"
                [mkGroup "misc" "acc1" "misc-renamed" GroupIssuedAPI []] ["misc"])
    as (Hsave & Hdel & Hadd & _).
  pose proof (committed_mutation_increments_serial exIsGroupAll exXid exAM
                "acc1" "admin" "eng" "p1" [] [])
    as (_ & _ & _ & Hrem).
  split; [|split; [|split]].
  - apply (Hsave (SaveGroups exXid exAM "acc1" "admin"
                    [mkGroup "misc" "acc1" "misc-renamed" GroupIssuedAPI []]).2).
    vm_compute. reflexivity.
  - pose proof (Hdel _ _ eq_refl eq_refl) as [Hst Hs].
    rewrite Hst. apply Hs.
  - apply (Hadd (mkGroup "misc" "acc1" "misc" GroupIssuedAPI [])
             (GroupAddPeer exAM "acc1" "misc" "p1").2).
    + reflexivity.
    + simpl. apply not_elem_of_nil.
    + vm_compute. reflexivity.
  - apply (Hrem (mkGroup "eng" "acc1" "eng" GroupIssuedAPI ["p1"])
             (GroupDeletePeer exAM "acc1" "eng" "p1").2).
    + reflexivity.
    + simpl. left.
    + vm_compute. reflexivity.
Defined.

(** ** Idempotence of the peer operations *)

Lemma GetGroupByID_of_groupOf (st : Store) (s : LockingStrength)
    (accountID groupID : string) (g : Group) :
  faults st OpGetGroupByID = false →
  groupOf st accountID groupID = Some g →
  GetGroupByID st s accountID groupID = Ok g.
Proof.
  intros Hf Hg. unfold GetGroupByID. rewrite guarded_no_fault by done.
  unfold groupOf in Hg. unfold withAccount.
  destruct (accounts st !! accountID) as [a|]; [|discriminate].
  simpl in Hg. by rewrite Hg.
Qed.

Lemma GroupChangePeer_tx_faults (change : Group → string → bool * Group)
    (accountID groupID peerID : string) (upd0 upd : bool) (st st' : Store) :
  GroupChangePeer_tx change accountID groupID peerID upd0 st = (None, upd, st') →
  faults st' = faults st ∧ faults st OpGetGroupByID = false.
Proof.
  unfold GroupChangePeer_tx.
  destruct (GetGroupByID st LockingStrengthUpdate accountID groupID)
    as [g|e] eqn:Hg; [|discriminate].
  apply guarded_Ok in Hg as [Hf _].
  destruct (change g peerID) as [[] g']; cbn [negb].
  - destruct (areGroupChangesAffectPeers st accountID [groupID]) as [u [e|]];
      [discriminate|].
    destruct (IncrementNetworkSerial st LockingStrengthUpdate accountID)
      as [tx1|e] eqn:Hinc; [|discriminate].
    destruct (Store_SaveGroup tx1 LockingStrengthUpdate g') as [tx2|e] eqn:Hsave;
      [|discriminate].
    intros [= _ <-].
    apply IncrementNetworkSerial_Ok in Hinc as (_ & _ & Hf1).
    unfold Store_SaveGroup in Hsave. apply guarded_Ok in Hsave as [_ Hsave].
    apply putGroup_Ok in Hsave as (_ & _ & Hf2).
    split; [congruence|done].
  - by intros [= _ <-].
Qed.

(** An operation that finds the group and does not change it leaves the
    manager as it was; it fails only if the commit does. *)
Lemma GroupChangePeer_unchanged (change : Group → string → bool * Group)
    (am : DefaultAccountManager) (accountID groupID peerID : string) (g : Group) :
  GetGroupByID (AM_Store am) LockingStrengthUpdate accountID groupID = Ok g →
  (change g peerID).1 = false →
  GroupChangePeer change am accountID groupID peerID
  = (if faults (AM_Store am) OpCommit then Some (StoreError OpCommit) else None,
     am).
Proof.
  intros Hg Hch.
  unfold GroupChangePeer, ExecuteInTransaction, GroupChangePeer_tx.
  rewrite Hg. destruct (change g peerID) as [updated g'].
  cbn [fst] in Hch. subst updated. cbn [negb].
  destruct (faults (AM_Store am) OpCommit); by rewrite AM_eta.
Qed.

(** C4. [GroupAddPeer] with a peer already in the group, and
    [GroupDeletePeer] with a peer not in the group, leave the manager exactly
    as it was: membership, serial, stored events and propagation calls. So
    two successive [GroupAddPeer] with the same group and peer make one
    change of membership and one increment of the serial, or none when the
    peer was in the group before: the second call changes nothing. *)
Theorem peer_operations_idempotent
    (am : DefaultAccountManager) (accountID groupID peerID : string) (g : Group) :
  GetGroupByID (AM_Store am) LockingStrengthUpdate accountID groupID = Ok g →
  (peerID ∈ Group_Peers g →
   GroupAddPeer am accountID groupID peerID
   = (if faults (AM_Store am) OpCommit then Some (StoreError OpCommit) else None,
      am))
  ∧ (peerID ∉ Group_Peers g →
     GroupDeletePeer am accountID groupID peerID
     = (if faults (AM_Store am) OpCommit then Some (StoreError OpCommit) else None,
        am))
  ∧ (∀ am1,
       Group_ID g = groupID → Group_AccountID g = accountID →
       GroupAddPeer am accountID groupID peerID = (None, am1) →
       GroupAddPeer am1 accountID groupID peerID = (None, am1)
       ∧ groupOf (AM_Store am1) accountID groupID
         = Some (if bool_decide (peerID ∈ Group_Peers g) then g
                 else Group_withPeers g (Group_Peers g ++ [peerID]))
       ∧ serialOf (AM_Store am1) accountID
         = (if bool_decide (peerID ∈ Group_Peers g)
            then serialOf (AM_Store am) accountID
            else S (serialOf (AM_Store am) accountID))).
Proof.
  intros Hg. split; [|split].
  - intros Hin. apply (GroupChangePeer_unchanged AddPeer _ _ _ _ g Hg).
    unfold AddPeer. by rewrite bool_decide_eq_true_2.
  - intros Hnin. apply (GroupChangePeer_unchanged RemovePeer _ _ _ _ g Hg).
    unfold RemovePeer. by rewrite bool_decide_eq_false_2.
  - intros am1 Hid Hacc Hop.
    destruct (bool_decide (peerID ∈ Group_Peers g)) eqn:Hmem.
    + apply bool_decide_eq_true in Hmem.
      unfold GroupAddPeer in *.
      rewrite (GroupChangePeer_unchanged AddPeer _ _ _ _ g Hg) in Hop
        by (unfold AddPeer; by rewrite bool_decide_eq_true_2).
      destruct (faults (AM_Store am) OpCommit) eqn:Hc; [discriminate|].
      injection Hop as <-.
      split; [|split; [by apply GetGroupByID_Ok in Hg|done]].
      rewrite (GroupChangePeer_unchanged AddPeer _ _ _ _ g Hg)
        by (unfold AddPeer; by rewrite bool_decide_eq_true_2).
      by rewrite Hc.
    + apply bool_decide_eq_false in Hmem.
      assert (AddPeer g peerID
              = (true, Group_withPeers g (Group_Peers g ++ [peerID]))) as Hadd.
      { unfold AddPeer. by rewrite bool_decide_eq_false_2. }
      pose proof Hop as Hop'.
      unfold GroupAddPeer, GroupChangePeer in Hop'.
      destruct (ExecuteInTransaction _ _) as [[[e|] upd] st1] eqn:Hexec;
        [discriminate|].
      injection Hop' as <-. cbn [AM_Store].
      apply ExecuteInTransaction_commit in Hexec as [Htx Hc].
      pose proof (GroupChangePeer_tx_faults _ _ _ _ _ _ _ _ Htx) as [Hf Hfg].
      eapply GroupChangePeer_tx_commit in Htx as (Hs & _ & Hgr);
        [|exact Hg|by rewrite Hadd].
      rewrite Hadd in Hgr. cbn [snd Group_withPeers Group_AccountID Group_ID] in Hgr.
      assert (groupOf st1 accountID groupID
              = Some (Group_withPeers g (Group_Peers g ++ [peerID]))) as Hg1.
      { rewrite Hgr. by rewrite decide_True. }
      split; [|by split].
      unfold GroupAddPeer.
      erewrite (GroupChangePeer_unchanged AddPeer).
      * cbn [AM_Store]. by rewrite Hf, Hc.
      * cbn [AM_Store]. apply GetGroupByID_of_groupOf; [by rewrite Hf|exact Hg1].
      * unfold AddPeer. cbn [Group_withPeers Group_Peers].
        rewrite bool_decide_eq_true_2; [done|].
        apply elem_of_app. right. left.
Qed.

Lemma peer_operations_idempotent_witness :
  GroupAddPeer exAM "acc1" "eng" "p1" = (None, exAM)
  ∧ GroupDeletePeer exAM "acc1" "eng" "p2" = (None, exAM)
  ∧ (let am1 := (GroupAddPeer exAM "acc1" "eng" "p2").2 in
     GroupAddPeer am1 "acc1" "eng" "p2" = (None, am1)
     ∧ groupOf (AM_Store am1) "acc1" "eng"
       = Some (mkGroup "eng" "acc1" "eng" GroupIssuedAPI ["p1"; "p2"])
     ∧ serialOf (AM_Store am1) "acc1" = 8).
Proof.
  pose proof (peer_operations_idempotent exAM "acc1" "eng" "p1"
                (mkGroup "eng" "acc1" "eng" GroupIssuedAPI ["p1"]) eq_refl)
    as (Hadd & _ & _).
  pose proof (peer_operations_idempotent exAM "acc1" "eng" "p2"
                (mkGroup "eng" "acc1" "eng" GroupIssuedAPI ["p1"]) eq_refl)
    as (_ & Hdel & Htwice).
  split; [apply Hadd; simpl; left|].
  split.
  - apply Hdel. simpl. intros Hin.
    apply list_elem_of_singleton in Hin. discriminate Hin.
  - cbv zeta.
    apply (Htwice (GroupAddPeer exAM "acc1" "eng" "p2").2); reflexivity.
Defined.

(** ** Deletion of several groups *)

Lemma error_leaves_atomic (e : error) :
  atomicError e = true → error_leaves e = [e].
Proof. by destruct e. Qed.

Lemma plainError_atomic (e : error) : plainError e = true → atomicError e = true.
Proof. by destruct e. Qed.

Lemma guarded_Err {A} (st : Store) (op : StoreOp) (r : Result A) (e : error) :
  guarded st op r = Err e → e = StoreError op ∨ r = Err e.
Proof. unfold guarded. destruct (faults st op); [intros [= <-]|]; auto. Qed.

Lemma withAccount_Err {A} (st : Store) (accountID : string)
    (k : Account → Result A) (e : error) :
  withAccount st accountID k = Err e →
  plainError e = true ∨ ∃ a, accounts st !! accountID = Some a ∧ k a = Err e.
Proof.
  unfold withAccount, notFound.
  destruct (accounts st !! accountID) as [a|]; [eauto|].
  intros [= <-]. by left.
Qed.

Lemma GetGroupByID_Err (st : Store) (s : LockingStrength)
    (accountID groupID : string) (e : error) :
  GetGroupByID st s accountID groupID = Err e → plainError e = true.
Proof.
  unfold GetGroupByID. intros [->|H]%guarded_Err; [done|].
  apply withAccount_Err in H as [H|(a & _ & H)]; [done|].
  destruct (Account_Groups a !! groupID); [discriminate|].
  unfold notFound in H. by injection H as <-.
Qed.

Lemma GetUserByUserID_Err (st : Store) (s : LockingStrength)
    (userID : string) (e : error) :
  GetUserByUserID st s userID = Err e → plainError e = true.
Proof.
  unfold GetUserByUserID. intros [->|H]%guarded_Err; [done|].
  destruct (users st !! userID); [discriminate|].
  unfold notFound in H. by injection H as <-.
Qed.

Lemma GetAccountDNSSettings_Err (st : Store) (s : LockingStrength)
    (accountID : string) (e : error) :
  GetAccountDNSSettings st s accountID = Err e → plainError e = true.
Proof.
  unfold GetAccountDNSSettings. intros [->|H]%guarded_Err; [done|].
  by apply withAccount_Err in H as [H|(a & _ & [=])].
Qed.

Lemma GetAccountSettings_Err (st : Store) (s : LockingStrength)
    (accountID : string) (e : error) :
  GetAccountSettings st s accountID = Err e → plainError e = true.
Proof.
  unfold GetAccountSettings. intros [->|H]%guarded_Err; [done|].
  by apply withAccount_Err in H as [H|(a & _ & [=])].
Qed.

Lemma IncrementNetworkSerial_Err (st : Store) (s : LockingStrength)
    (accountID : string) (e : error) :
  IncrementNetworkSerial st s accountID = Err e → plainError e = true.
Proof.
  unfold IncrementNetworkSerial. intros [->|H]%guarded_Err; [done|].
  by apply withAccount_Err in H as [H|(a & _ & [=])].
Qed.

Lemma Store_DeleteGroups_Err (st : Store) (s : LockingStrength)
    (accountID : string) (ids : list string) (e : error) :
  Store_DeleteGroups st s accountID ids = Err e → plainError e = true.
Proof.
  unfold Store_DeleteGroups. intros [->|H]%guarded_Err; [done|].
  by apply withAccount_Err in H as [H|(a & _ & [=])].
Qed.

Lemma checkGroupLinkedToSettings_atomic (tx : Store) (group : Group) (e : error) :
  checkGroupLinkedToSettings tx group = Some e → atomicError e = true.
Proof.
  unfold checkGroupLinkedToSettings.
  destruct (GetAccountDNSSettings tx LockingStrengthShare (Group_AccountID group))
    as [dns|e1] eqn:H1.
  - destruct (slices_Contains _ _); [by intros [= <-]|].
    destruct (GetAccountSettings tx LockingStrengthShare (Group_AccountID group))
      as [settings|e2] eqn:H2.
    + destruct (Settings_Extra settings) as [extra|]; [|discriminate].
      destruct (slices_Contains _ _); [by intros [= <-]|discriminate].
    + intros [= <-]. apply plainError_atomic. by apply GetAccountSettings_Err in H2.
  - intros [= <-]. apply plainError_atomic.
    by apply GetAccountDNSSettings_Err in H1.
Qed.

Lemma validateDeleteGroup_atomic (IsGroupAll : Group → bool) (tx : Store)
    (group : Group) (userID : string) (e : error) :
  validateDeleteGroup IsGroupAll tx group userID = Some e → atomicError e = true.
Proof.
  unfold validateDeleteGroup.
  destruct (bool_decide (Group_Issued group = GroupIssuedIntegration)).
  - destruct (GetUserByUserID tx LockingStrengthShare userID) as [u|e1] eqn:Hu.
    + destruct (negb _ || negb _); [by intros [= <-]|].
      destruct (IsGroupAll group); [by intros [= <-]|].
      destruct (isGroupLinkedToRoute _ _ _) as [[] ?]; [by intros [= <-]|].
      destruct (isGroupLinkedToDns _ _ _) as [[] ?]; [by intros [= <-]|].
      destruct (isGroupLinkedToPolicy _ _ _) as [[] ?]; [by intros [= <-]|].
      destruct (isGroupLinkedToSetupKey _ _ _) as [[] ?]; [by intros [= <-]|].
      destruct (isGroupLinkedToUser _ _ _) as [[] ?]; [by intros [= <-]|].
      apply checkGroupLinkedToSettings_atomic.
    + intros [= <-]. apply plainError_atomic. by apply GetUserByUserID_Err in Hu.
  - destruct (IsGroupAll group); [by intros [= <-]|].
    destruct (isGroupLinkedToRoute _ _ _) as [[] ?]; [by intros [= <-]|].
    destruct (isGroupLinkedToDns _ _ _) as [[] ?]; [by intros [= <-]|].
    destruct (isGroupLinkedToPolicy _ _ _) as [[] ?]; [by intros [= <-]|].
    destruct (isGroupLinkedToSetupKey _ _ _) as [[] ?]; [by intros [= <-]|].
    destruct (isGroupLinkedToUser _ _ _) as [[] ?]; [by intros [= <-]|].
    apply checkGroupLinkedToSettings_atomic.
Qed.

Lemma deleteOutcome_atomic (IsGroupAll : Group → bool) (tx : Store)
    (accountID userID groupID : string) (e : error) :
  deleteOutcome IsGroupAll tx accountID userID groupID = Err e →
  atomicError e = true.
Proof.
  unfold deleteOutcome.
  destruct (GetGroupByID tx LockingStrengthUpdate accountID groupID)
    as [g|e1] eqn:Hg.
  - destruct (validateDeleteGroup IsGroupAll tx g userID) as [e2|] eqn:Hv;
      [|discriminate].
    intros [= <-]. by apply validateDeleteGroup_atomic in Hv.
  - intros [= <-]. apply plainError_atomic. by apply GetGroupByID_Err in Hg.
Qed.

Lemma errors_Join_leaves (a : option error) (e : error) :
  option_error_leaves (errors_Join [a; Some e])
  = option_error_leaves a ++ error_leaves e.
Proof.
  destruct a as [a|]; unfold errors_Join; simpl; by rewrite app_nil_r.
Qed.

Lemma DeleteGroups_loop_cons (IsGroupAll : Group → bool) (tx : Store)
    (accountID userID groupID : string) (rest : list string) (l : DeleteLocals) :
  DeleteGroups_loop IsGroupAll tx accountID userID (groupID :: rest) l
  = DeleteGroups_loop IsGroupAll tx accountID userID rest
      match deleteOutcome IsGroupAll tx accountID userID groupID with
      | Ok group => mkDeleteLocals (allErrors l) (groupIDsToDelete l ++ [groupID])
                      (deletedGroups l ++ [group])
      | Err err => mkDeleteLocals (errors_Join [allErrors l; Some err])
                     (groupIDsToDelete l) (deletedGroups l)
      end.
Proof.
  unfold deleteOutcome. simpl.
  destruct (GetGroupByID tx LockingStrengthUpdate accountID groupID) as [g|e];
    [|done].
  by destruct (validateDeleteGroup IsGroupAll tx g userID).
Qed.

Lemma omap_cons_eq {A B} (f : A → option B) (x : A) (l : list A) :
  omap f (x :: l)
  = match f x with Some y => y :: omap f l | None => omap f l end.
Proof. reflexivity. Qed.

(** What the loop of [DeleteGroups] leaves in its variables: the IDs and
    groups that passed, and the errors of the others, each in the order of
    the IDs. *)
Lemma DeleteGroups_loop_spec (IsGroupAll : Group → bool) (tx : Store)
    (accountID userID : string) (groupIDs : list string) (l : DeleteLocals) :
  let outcome := deleteOutcome IsGroupAll tx accountID userID in
  let l' := DeleteGroups_loop IsGroupAll tx accountID userID groupIDs l in
  (∀ gid, gid ∈ groupIDsToDelete l' ↔
          gid ∈ groupIDsToDelete l ∨ (gid ∈ groupIDs ∧ ∃ g, outcome gid = Ok g))
  ∧ deletedGroups l'
    = deletedGroups l ++ omap (λ gid, outcomeValue (outcome gid)) groupIDs
  ∧ option_error_leaves (allErrors l')
    = option_error_leaves (allErrors l)
      ++ omap (λ gid, outcomeError (outcome gid)) groupIDs
  ∧ (allErrors l' = None ↔
     allErrors l = None ∧ ∀ gid, gid ∈ groupIDs → ∃ g, outcome gid = Ok g).
Proof.
  cbv zeta. revert l. induction groupIDs as [|id rest IH]; intros l.
  - simpl. rewrite !app_nil_r. split; [|split; [done|split; [done|]]].
    + intros gid. split; [auto|]. intros [H|[H _]]; [done|].
      by apply elem_of_nil in H.
    + split; [|by intros [? _]]. intros H. split; [done|].
      intros gid Hin. by apply elem_of_nil in Hin.
  - rewrite DeleteGroups_loop_cons, !omap_cons_eq.
    destruct (deleteOutcome IsGroupAll tx accountID userID id) as [g|e] eqn:Ho;
      cbn [outcomeValue outcomeError].
    + destruct (IH (mkDeleteLocals (allErrors l) (groupIDsToDelete l ++ [id])
                      (deletedGroups l ++ [g]))) as (Hids & Hdel & Herr & Hnone).
      cbn [allErrors groupIDsToDelete deletedGroups] in *.
      split; [|split; [|split]].
      * intros gid. rewrite Hids, elem_of_app, list_elem_of_singleton, elem_of_cons.
        split.
        -- intros [[H| ->]|[H Hg]]; [by left|right; split; [by left|eauto]|].
           right. split; [by right|done].
        -- intros [H|[[->|H] Hg]]; [by left; left|by left; right|by right].
      * rewrite Hdel. by rewrite <- app_assoc.
      * done.
      * rewrite Hnone. split.
        -- intros [Hn Hall]. split; [done|].
           intros gid [->|Hin]%elem_of_cons; [eauto|by apply Hall].
        -- intros [Hn Hall]. split; [done|].
           intros gid Hin. apply Hall. by right.
    + destruct (IH (mkDeleteLocals (errors_Join [allErrors l; Some e])
                      (groupIDsToDelete l) (deletedGroups l)))
        as (Hids & Hdel & Herr & Hnone).
      cbn [allErrors groupIDsToDelete deletedGroups] in *.
      split; [|split; [|split]].
      * intros gid. rewrite Hids, elem_of_cons. split.
        -- intros [H|[H Hg]]; [by left|]. right. split; [by right|done].
        -- intros [H|[[->|H] [g Hg]]]; [by left|congruence|]. right. eauto.
      * done.
      * rewrite Herr, errors_Join_leaves.
        rewrite (error_leaves_atomic e) by (by eapply deleteOutcome_atomic).
        by rewrite <- app_assoc.
      * rewrite Hnone. split.
        -- intros [Hn _]. exfalso. revert Hn. unfold errors_Join.
           by destruct (allErrors l).
        -- intros [_ Hall]. exfalso.
           destruct (Hall id) as [g Hg]; [left|congruence].
Qed.

(** C3. When [DeleteGroups] commits, it has deleted exactly the groups
    whose ID passed the validation, every other group is as before, the
    failing ones included, and the error returned joins the errors of the
    failing IDs, in order: it is nil exactly when no ID failed. One event is
    stored for each group deleted. *)
Theorem partial_deletion (IsGroupAll : Group → bool)
    (am : DefaultAccountManager) (accountID userID : string)
    (groupIDs : list string) (l : DeleteLocals) (st' : Store) :
  let outcome := deleteOutcome IsGroupAll (AM_Store am) accountID userID in
  checkRequester (AM_Store am) accountID userID = None →
  ExecuteInTransaction (AM_Store am)
    (DeleteGroups_tx IsGroupAll accountID userID groupIDs
       (mkDeleteLocals None [] [])) = (None, l, st') →
  ∃ err am',
    DeleteGroups IsGroupAll am accountID userID groupIDs = (err, am')
    ∧ AM_Store am' = st'
    ∧ (∀ gid g, gid ∈ groupIDs → outcome gid = Ok g →
                groupOf st' accountID gid = None)
    ∧ (∀ gid e, outcome gid = Err e →
                groupOf st' accountID gid = groupOf (AM_Store am) accountID gid)
    ∧ (∀ gid, gid ∉ groupIDs →
              groupOf st' accountID gid = groupOf (AM_Store am) accountID gid)
    ∧ option_error_leaves err = omap (λ gid, outcomeError (outcome gid)) groupIDs
    ∧ (err = None ↔ ∀ gid, gid ∈ groupIDs → ∃ g, outcome gid = Ok g)
    ∧ AM_events am'
      = AM_events am
        ++ map (λ group, mkEvent userID (Group_ID group) accountID GroupDeleted
                           (GroupEventMeta group))
             (omap (λ gid, outcomeValue (outcome gid)) groupIDs)
    ∧ AM_peerUpdates am' = AM_peerUpdates am.
Proof.
  cbv zeta. intros Hreq Hexec.
  unfold DeleteGroups. rewrite Hreq, Hexec.
  eexists _, _. split; [reflexivity|]. cbn [AM_Store AM_events AM_peerUpdates].
  apply ExecuteInTransaction_commit in Hexec as [Htx _].
  apply DeleteGroups_tx_commit in Htx as (Hl & _ & Hgr).
  pose proof (DeleteGroups_loop_spec IsGroupAll (AM_Store am) accountID userID
                groupIDs (mkDeleteLocals None [] [])) as Hspec.
  cbv zeta in Hspec. rewrite <- Hl in Hspec.
  destruct Hspec as (Hids & Hdel & Herr & Hnone).
  cbn [allErrors groupIDsToDelete deletedGroups option_error_leaves] in *.
  rewrite app_nil_l in Hdel, Herr.
  split; [done|]. split; [|split; [|split; [|split; [|split; [|split]]]]].
  - intros gid g Hin Ho. rewrite Hgr, decide_True; [done|].
    split; [done|]. apply Hids. right. eauto.
  - intros gid e Ho. rewrite Hgr, decide_False; [done|].
    intros [_ [H|[_ [g Hg]]]%Hids]; [by apply elem_of_nil in H|congruence].
  - intros gid Hnin. rewrite Hgr, decide_False; [done|].
    intros [_ [H|[H _]]%Hids]; [by apply elem_of_nil in H|done].
  - done.
  - rewrite Hnone. split; [by intros [_ ?]|done].
  - by rewrite Hdel.
  - done.
Qed.

Lemma partial_deletion_witness :
  let r := DeleteGroups exIsGroupAll exAM "acc1" "admin" ["misc"; "eng"; "zz"] in
  groupOf (AM_Store r.2) "acc1" "misc" = None
  ∧ groupOf (AM_Store r.2) "acc1" "eng" = groupOf exStore "acc1" "eng"
  ∧ option_error_leaves r.1
    = [GroupLinkError "policy" "Eng"; StatusError NotFound "group not found"].
Proof.
  cbv zeta.
  destruct (partial_deletion exIsGroupAll exAM "acc1" "admin"
              ["misc"; "eng"; "zz"] _ _ eq_refl eq_refl)
    as (err & am' & Hop & Hst & Hdel & Hkeep & _ & Hleaves & _).
  rewrite Hop. cbn [fst snd]. rewrite Hst.
  split; [|split].
  - apply (Hdel "misc" (mkGroup "misc" "acc1" "misc" GroupIssuedAPI [])).
    + left.
    + vm_compute. reflexivity.
  - apply (Hkeep "eng" (GroupLinkError "policy" "Eng")).
    vm_compute. reflexivity.
  - rewrite Hleaves. vm_compute. reflexivity.
Defined.

(** ** Deletion of a linked group *)

Lemma dnsGroupLinks_true (G : string) (groups : list string) :
  dnsGroupLinks G groups = true ↔ G ∈ groups.
Proof.
  induction groups as [|x groups IH]; simpl.
  - split; [discriminate|]. intros H. by apply elem_of_nil in H.
  - destruct (bool_decide (x = G)) eqn:Hx.
    + apply bool_decide_eq_true in Hx as ->. split; [|done]. intros _. left.
    + apply bool_decide_eq_false in Hx. rewrite IH, elem_of_cons.
      split; [auto|]. intros [->|?]; done.
Qed.

(** Each search loop returns the first element that references the group,
    or (false, nil) when no element does. *)
Ltac find_spec l test :=
  let x := fresh "x" in
  let IH := fresh "IH" in
  let Htest := fresh "Htest" in
  induction l as [|x l IH]; simpl;
  [ right; split; [done|]; intros ? Hin; by apply elem_of_nil in Hin
  | let t := eval cbv beta in (test x) in
    destruct t eqn:Htest;
    [ left; exists x; split; [done|]; split; [left|done]
    | destruct IH as [(y & Hy & Hin & Hl)|[Hn Hall]];
      [ left; exists y; split; [done|]; split; [by right|done]
      | right; split; [done|];
        intros y [->|Hin]%elem_of_cons; [congruence|by apply Hall] ] ] ].

Lemma findLinkedRoute_spec (G : string) (routes : list Route) :
  (∃ r, findLinkedRoute G routes = (true, Some r) ∧ r ∈ routes
        ∧ (slices_Contains (Route_Groups r) G
           || slices_Contains (Route_PeerGroups r) G) = true)
  ∨ (findLinkedRoute G routes = (false, None)
     ∧ ∀ r, r ∈ routes →
            (slices_Contains (Route_Groups r) G
             || slices_Contains (Route_PeerGroups r) G) = false).
Proof.
  find_spec routes
    (λ r, slices_Contains (Route_Groups r) G
          || slices_Contains (Route_PeerGroups r) G).
Qed.

Lemma findLinkedDns_spec (G : string) (nsgs : list NameServerGroup) :
  (∃ d, findLinkedDns G nsgs = (true, Some d) ∧ d ∈ nsgs
        ∧ dnsGroupLinks G (NSGroup_Groups d) = true)
  ∨ (findLinkedDns G nsgs = (false, None)
     ∧ ∀ d, d ∈ nsgs → dnsGroupLinks G (NSGroup_Groups d) = false).
Proof. find_spec nsgs (λ d, dnsGroupLinks G (NSGroup_Groups d)). Qed.

Lemma findLinkedPolicy_spec (G : string) (policies : list Policy) :
  (∃ p, findLinkedPolicy G policies = (true, Some p) ∧ p ∈ policies
        ∧ ruleLinks G (Policy_Rules p) = true)
  ∨ (findLinkedPolicy G policies = (false, None)
     ∧ ∀ p, p ∈ policies → ruleLinks G (Policy_Rules p) = false).
Proof. find_spec policies (λ p, ruleLinks G (Policy_Rules p)). Qed.

Lemma findLinkedSetupKey_spec (G : string) (keys : list SetupKey) :
  (∃ k, findLinkedSetupKey G keys = (true, Some k) ∧ k ∈ keys
        ∧ slices_Contains (SetupKey_AutoGroups k) G = true)
  ∨ (findLinkedSetupKey G keys = (false, None)
     ∧ ∀ k, k ∈ keys → slices_Contains (SetupKey_AutoGroups k) G = false).
Proof. find_spec keys (λ k, slices_Contains (SetupKey_AutoGroups k) G). Qed.

Lemma findLinkedUser_spec (G : string) (us : list User) :
  (∃ u, findLinkedUser G us = (true, Some u) ∧ u ∈ us
        ∧ slices_Contains (User_AutoGroups u) G = true)
  ∨ (findLinkedUser G us = (false, None)
     ∧ ∀ u, u ∈ us → slices_Contains (User_AutoGroups u) G = false).
Proof. find_spec us (λ u, slices_Contains (User_AutoGroups u) G). Qed.

Lemma orb_contains_true (l1 l2 : list string) (G : string) :
  (slices_Contains l1 G || slices_Contains l2 G) = true ↔ G ∈ l1 ∨ G ∈ l2.
Proof. by rewrite orb_true_iff, !slices_Contains_true. Qed.

Lemma accountUsers_elem (st : Store) (accountID : string) (u : User) :
  u ∈ filter (λ u, User_AccountID u = accountID) (snd <$> map_to_list (users st))
  ↔ User_AccountID u = accountID ∧ ∃ uid, users st !! uid = Some u.
Proof.
  rewrite list_elem_of_filter, list_elem_of_fmap. split.
  - intros [Hacc ([uid u'] & -> & Hin)]. split; [done|].
    exists uid. by apply elem_of_map_to_list.
  - intros [Hacc (uid & Hu)]. split; [done|].
    exists (uid, u). split; [done|]. by apply elem_of_map_to_list.
Qed.

(** On a store without failures, the validation of a group that is not ALL,
    by a requester allowed to delete it, reports a resource that references
    the group whenever there is one. *)
Lemma validateDeleteGroup_linked (IsGroupAll : Group → bool) (st : Store)
    (a : Account) (g : Group) (userID : string) :
  (∀ op, faults st op = false) →
  accounts st !! Group_AccountID g = Some a →
  IsGroupAll g = false →
  (Group_Issued g = GroupIssuedIntegration →
   ∃ u, users st !! userID = Some u
        ∧ User_Role u = UserRoleAdmin ∧ User_IsServiceUser u = true) →
  (∃ res name, GroupLinked st a g res name) →
  ∃ res name, GroupLinked st a g res name
              ∧ validateDeleteGroup IsGroupAll st g userID
                = Some (GroupLinkError res name).
Proof.
  intros Hf Ha Hall Hperm Hlinked.
  unfold validateDeleteGroup.
  assert ((if bool_decide (Group_Issued g = GroupIssuedIntegration)
           then match GetUserByUserID st LockingStrengthShare userID with
                | Ok executingUser =>
                    if negb (bool_decide (User_Role executingUser = UserRoleAdmin))
                       || negb (User_IsServiceUser executingUser)
                    then Some (status_Errorf PermissionDenied
                      "only service users with admin power can delete integration group")
                    else None
                | Err err => Some err
                end
           else None) = None) as ->.
  { destruct (bool_decide (Group_Issued g = GroupIssuedIntegration)) eqn:Hi;
      [|done].
    apply bool_decide_eq_true in Hi.
    destruct (Hperm Hi) as (u & Hu & Hrole & Hsvc).
    unfold GetUserByUserID, guarded. rewrite Hf, Hu, Hsvc.
    by rewrite bool_decide_eq_true_2. }
  rewrite Hall.
  unfold isGroupLinkedToRoute, GetAccountRoutes, guarded, withAccount.
  rewrite Hf, Ha.
  destruct (findLinkedRoute_spec (Group_ID g) (Account_Routes a))
    as [(r & -> & Hin & Hl)|[-> Hroute]].
  { exists "route", (Route_NetID r). split; [|done].
    apply (linked_route _ _ _ r Hin). by apply orb_contains_true. }
  unfold isGroupLinkedToDns, GetAccountNameServerGroups, guarded, withAccount.
  rewrite Hf, Ha.
  destruct (findLinkedDns_spec (Group_ID g) (Account_NameServerGroups a))
    as [(d & -> & Hin & Hl)|[-> Hdns]].
  { exists "name server groups", (NSGroup_Name d). split; [|done].
    apply (linked_dns _ _ _ d Hin). by apply dnsGroupLinks_true. }
  unfold isGroupLinkedToPolicy, GetAccountPolicies, guarded, withAccount.
  rewrite Hf, Ha.
  destruct (findLinkedPolicy_spec (Group_ID g) (Account_Policies a))
    as [(p & -> & Hin & Hl)|[-> Hpol]].
  { exists "policy", (Policy_Name p). split; [|done].
    apply ruleLinks_true in Hl as (rule & Hr & Hsd).
    by apply (linked_policy _ _ _ p rule). }
  unfold isGroupLinkedToSetupKey, GetAccountSetupKeys, guarded, withAccount.
  rewrite Hf, Ha.
  destruct (findLinkedSetupKey_spec (Group_ID g) (Account_SetupKeys a))
    as [(k & -> & Hin & Hl)|[-> Hkey]].
  { exists "setup key", (SetupKey_Name k). split; [|done].
    apply (linked_setup_key _ _ _ k Hin). by apply slices_Contains_true. }
  unfold isGroupLinkedToUser, GetAccountUsers, guarded, withAccount.
  rewrite Hf, Ha.
  destruct (findLinkedUser_spec (Group_ID g)
              (filter (λ u, User_AccountID u = Group_AccountID g)
                 (snd <$> map_to_list (users st))))
    as [(u & -> & Hin & Hl)|[-> Huser]].
  { exists "user", (User_Id u). split; [|done].
    apply accountUsers_elem in Hin as [Hacc (uid & Hu)].
    apply (linked_user _ _ _ uid u Hu Hacc). by apply slices_Contains_true. }
  unfold checkGroupLinkedToSettings, GetAccountDNSSettings, GetAccountSettings,
    guarded, withAccount.
  rewrite !Hf, Ha.
  destruct (slices_Contains (DisabledManagementGroups (Account_DNSSettings a))
              (Group_ID g)) eqn:Hdis.
  { exists "disabled DNS management groups", (Group_Name g). split; [|done].
    apply linked_dns_disabled. by apply slices_Contains_true. }
  destruct (Settings_Extra (Account_Settings a)) as [extra|] eqn:Hextra.
  - destruct (slices_Contains (IntegratedValidatorGroups extra) (Group_ID g))
      eqn:Hval.
    { exists "integrated validator", (Group_Name g). split; [|done].
      apply (linked_validator _ _ _ extra Hextra).
      by apply slices_Contains_true. }
    exfalso. destruct Hlinked as (res & name & Hlink).
    destruct Hlink as [r Hin Hl|d Hin Hl|p rule Hin Hr Hl|k Hin Hl
                      |uid u Hu Hacc Hl|Hl|extra' He Hl].
    + apply orb_contains_true in Hl. rewrite (Hroute r Hin) in Hl. discriminate.
    + apply dnsGroupLinks_true in Hl. rewrite (Hdns d Hin) in Hl. discriminate.
    + assert (ruleLinks (Group_ID g) (Policy_Rules p) = true) as Hrl
        by (apply ruleLinks_true; eauto).
      rewrite (Hpol p Hin) in Hrl. discriminate.
    + apply slices_Contains_true in Hl. rewrite (Hkey k Hin) in Hl. discriminate.
    + apply slices_Contains_true in Hl. rewrite Huser in Hl; [discriminate|].
      apply accountUsers_elem. eauto.
    + apply slices_Contains_true in Hl. congruence.
    + apply slices_Contains_true in Hl. congruence.
  - exfalso. destruct Hlinked as (res & name & Hlink).
    destruct Hlink as [r Hin Hl|d Hin Hl|p rule Hin Hr Hl|k Hin Hl
                      |uid u Hu Hacc Hl|Hl|extra' He Hl].
    + apply orb_contains_true in Hl. rewrite (Hroute r Hin) in Hl. discriminate.
    + apply dnsGroupLinks_true in Hl. rewrite (Hdns d Hin) in Hl. discriminate.
    + assert (ruleLinks (Group_ID g) (Policy_Rules p) = true) as Hrl
        by (apply ruleLinks_true; eauto).
      rewrite (Hpol p Hin) in Hrl. discriminate.
    + apply slices_Contains_true in Hl. rewrite (Hkey k Hin) in Hl. discriminate.
    + apply slices_Contains_true in Hl. rewrite Huser in Hl; [discriminate|].
      apply accountUsers_elem. eauto.
    + apply slices_Contains_true in Hl. congruence.
    + congruence.
Qed.

Lemma checkRequester_plain (st : Store) (accountID userID : string) (e : error) :
  checkRequester st accountID userID = Some e → plainError e = true.
Proof.
  unfold checkRequester.
  destruct (GetUserByUserID st LockingStrengthShare userID) as [u|e1] eqn:Hu.
  - destruct (negb _); [by intros [= <-]|].
    destruct (IsRegularUser u); [by intros [= <-]|discriminate].
  - intros [= <-]. by apply GetUserByUserID_Err in Hu.
Qed.

(** A group whose ID does not pass is where it was after [DeleteGroups],
    whatever else the call did. *)
Lemma DeleteGroups_keeps_rejected (IsGroupAll : Group → bool)
    (am : DefaultAccountManager) (accountID userID : string)
    (groupIDs : list string) (gid : string) (e : error) :
  deleteOutcome IsGroupAll (AM_Store am) accountID userID gid = Err e →
  groupOf (AM_Store (DeleteGroups IsGroupAll am accountID userID groupIDs).2)
    accountID gid
  = groupOf (AM_Store am) accountID gid.
Proof.
  intros Ho. unfold DeleteGroups.
  destruct (checkRequester (AM_Store am) accountID userID); [done|].
  destruct (ExecuteInTransaction _ _) as [[[e'|] l] st'] eqn:Hexec.
  - by apply ExecuteInTransaction_rollback in Hexec as ->.
  - cbn [snd AM_Store].
    apply ExecuteInTransaction_commit in Hexec as [Htx _].
    apply DeleteGroups_tx_commit in Htx as (Hl & _ & Hgr).
    pose proof (DeleteGroups_loop_spec IsGroupAll (AM_Store am) accountID userID
                  groupIDs (mkDeleteLocals None [] [])) as Hspec.
    cbv zeta in Hspec. rewrite <- Hl in Hspec. destruct Hspec as (Hids & _).
    rewrite Hgr, decide_False; [done|].
    intros [_ [H|[_ [g Hg]]]%Hids]; [by apply elem_of_nil in H|congruence].
Qed.

(** [DeleteGroups] of one ID that does not pass returns the error of that
    ID, joined, unless the requester check or the transaction fails with an
    error of the store or of the [status] package. *)
Lemma DeleteGroups_single_rejected (IsGroupAll : Group → bool)
    (am : DefaultAccountManager) (accountID userID gid : string) (e : error) :
  deleteOutcome IsGroupAll (AM_Store am) accountID userID gid = Err e →
  (DeleteGroups IsGroupAll am accountID userID [gid]).1 = Some (joinError [e])
  ∨ ∃ e', (DeleteGroups IsGroupAll am accountID userID [gid]).1 = Some e'
          ∧ plainError e' = true.
Proof.
  intros Ho. unfold DeleteGroups.
  destruct (checkRequester (AM_Store am) accountID userID) as [e'|] eqn:Hreq.
  { right. exists e'. split; [done|]. by apply checkRequester_plain in Hreq. }
  unfold ExecuteInTransaction, DeleteGroups_tx.
  rewrite DeleteGroups_loop_cons, Ho. cbn [DeleteGroups_loop groupIDsToDelete].
  destruct (IncrementNetworkSerial (AM_Store am) LockingStrengthUpdate accountID)
    as [tx1|e1] eqn:Hinc.
  - destruct (Store_DeleteGroups tx1 LockingStrengthUpdate accountID [])
      as [tx2|e2] eqn:Hdel.
    + destruct (faults (AM_Store am) OpCommit).
      * right. by exists (StoreError OpCommit).
      * left. reflexivity.
    + right. exists e2. split; [done|]. by apply Store_DeleteGroups_Err in Hdel.
  - right. exists e1. split; [done|]. by apply IncrementNetworkSerial_Err in Hinc.
Qed.

Lemma DeleteGroups_single_rejected_no_fault (IsGroupAll : Group → bool)
    (am : DefaultAccountManager) (accountID userID gid : string) (e : error)
    (a : Account) :
  deleteOutcome IsGroupAll (AM_Store am) accountID userID gid = Err e →
  checkRequester (AM_Store am) accountID userID = None →
  (∀ op, faults (AM_Store am) op = false) →
  accounts (AM_Store am) !! accountID = Some a →
  (DeleteGroups IsGroupAll am accountID userID [gid]).1 = Some (joinError [e]).
Proof.
  intros Ho Hreq Hf Ha. unfold DeleteGroups. rewrite Hreq.
  unfold ExecuteInTransaction, DeleteGroups_tx.
  rewrite DeleteGroups_loop_cons, Ho. cbn [DeleteGroups_loop groupIDsToDelete].
  unfold IncrementNetworkSerial, Store_DeleteGroups, guarded, withAccount.
  rewrite Hf, Ha. cbn [Store_withAccount faults accounts].
  rewrite Hf, lookup_insert_eq, Hf. reflexivity.
Qed.

Lemma hasGroupLinkError_plain (e : error) :
  plainError e = true → hasGroupLinkError (Some e) = false.
Proof. by destruct e. Qed.

Lemma hasGroupLinkError_join_plain (e : error) :
  plainError e = true → hasGroupLinkError (Some (joinError [e])) = false.
Proof. by destruct e. Qed.

Lemma validateDeleteGroup_all (IsGroupAll : Group → bool) (st : Store)
    (g : Group) (userID : string) :
  IsGroupAll g = true →
  ∃ e, validateDeleteGroup IsGroupAll st g userID = Some e
       ∧ plainError e = true
       ∧ (Group_Issued g ≠ GroupIssuedIntegration →
          e = status_Errorf InvalidArgument "deleting group ALL is not allowed").
Proof.
  intros Hall. unfold validateDeleteGroup. rewrite Hall.
  destruct (bool_decide (Group_Issued g = GroupIssuedIntegration)) eqn:Hi.
  - apply bool_decide_eq_true in Hi.
    destruct (GetUserByUserID st LockingStrengthShare userID) as [u|e1] eqn:Hu.
    + destruct (negb _ || negb _); eexists; (split; [reflexivity|]); by split.
    + exists e1. split; [done|]. split; [by apply GetUserByUserID_Err in Hu|done].
  - eexists. split; [reflexivity|]. by split.
Qed.

(** C5, as stated, fails. In the sample deployment the default policy
    references the ALL group, and a route references the integration group
    idp; the administrator, who is not a service user, deletes each: the
    first call returns [InvalidArgument] and the second [PermissionDenied],
    neither holds a [GroupLinkError]. Both groups stay. *)
Lemma linked_group_error_not_always_GroupLinked :
  let r1 := DeleteGroups exIsGroupAll exAM "acc1" "admin" ["all"] in
  let r2 := DeleteGroups exIsGroupAll exAM "acc1" "admin" ["idp"] in
  isGroupLinkedToPolicy exStore "acc1" "all"
  = (true, Some (mkPolicy "Default" true [mkPolicyRule true ["all"] ["all"]]))
  ∧ r1.1 = Some (joinError [StatusError InvalidArgument
                              "deleting group ALL is not allowed"])
  ∧ hasGroupLinkError r1.1 = false
  ∧ isGroupLinkedToRoute exStore "acc1" "idp"
    = (true, Some (mkRoute "net1" ["idp"] []))
  ∧ r2.1 = Some (joinError [StatusError PermissionDenied
       "only service users with admin power can delete integration group"])
  ∧ hasGroupLinkError r2.1 = false
  ∧ groupOf (AM_Store r1.2) "acc1" "all" = groupOf exStore "acc1" "all"
  ∧ groupOf (AM_Store r2.2) "acc1" "idp" = groupOf exStore "acc1" "idp".
Proof. cbv zeta. repeat split; vm_compute; reflexivity. Qed.

(** C5, amended. On a store whose calls succeed, for a group other than ALL
    that a permitted requester deletes (an admin service user when the group
    is integration-issued): if a policy rule, a route, a name-server group,
    a setup key, a user of the account, the DNS-management-disabled list or
    the integrated-validator list references the group, [DeleteGroups] of
    its ID returns the join of one [GroupLinkError] that carries the kind
    and name of a resource referencing it, and the group stays. *)
Theorem linked_group_not_deleted (IsGroupAll : Group → bool)
    (am : DefaultAccountManager) (accountID userID groupID : string)
    (a : Account) (g : Group) :
  checkRequester (AM_Store am) accountID userID = None →
  (∀ op, faults (AM_Store am) op = false) →
  accounts (AM_Store am) !! accountID = Some a →
  Account_Groups a !! groupID = Some g →
  Group_ID g = groupID → Group_AccountID g = accountID →
  IsGroupAll g = false →
  (Group_Issued g = GroupIssuedIntegration →
   ∃ u, users (AM_Store am) !! userID = Some u
        ∧ User_Role u = UserRoleAdmin ∧ User_IsServiceUser u = true) →
  (∃ res name, GroupLinked (AM_Store am) a g res name) →
  ∃ res name,
    GroupLinked (AM_Store am) a g res name
    ∧ (DeleteGroups IsGroupAll am accountID userID [groupID]).1
      = Some (joinError [GroupLinkError res name])
    ∧ groupOf (AM_Store (DeleteGroups IsGroupAll am accountID userID [groupID]).2)
        accountID groupID = Some g.
Proof.
  intros Hreq Hf Ha Hg Hid Hacc Hall Hperm Hlinked.
  destruct (validateDeleteGroup_linked IsGroupAll (AM_Store am) a g userID)
    as (res & name & Hlink & Hval); try done.
  { by rewrite Hacc. }
  assert (groupOf (AM_Store am) accountID groupID = Some g) as Hgo.
  { unfold groupOf. rewrite Ha. exact Hg. }
  assert (deleteOutcome IsGroupAll (AM_Store am) accountID userID groupID
          = Err (GroupLinkError res name)) as Ho.
  { unfold deleteOutcome.
    rewrite (GetGroupByID_of_groupOf _ _ _ _ g) by done. by rewrite Hval. }
  exists res, name. split; [done|]. split.
  - by apply (DeleteGroups_single_rejected_no_fault _ _ _ _ _ _ a).
  - by rewrite (DeleteGroups_keeps_rejected _ _ _ _ _ _ _ Ho).
Qed.

Lemma linked_group_not_deleted_witness :
  ∃ res name,
    GroupLinked exStore exAccount1
      (mkGroup "eng" "acc1" "eng" GroupIssuedAPI ["p1"]) res name
    ∧ (DeleteGroups exIsGroupAll exAM "acc1" "admin" ["eng"]).1
      = Some (joinError [GroupLinkError res name])
    ∧ groupOf (AM_Store (DeleteGroups exIsGroupAll exAM "acc1" "admin" ["eng"]).2)
        "acc1" "eng"
      = Some (mkGroup "eng" "acc1" "eng" GroupIssuedAPI ["p1"]).
Proof.
  apply (linked_group_not_deleted exIsGroupAll exAM "acc1" "admin" "eng"
           exAccount1 (mkGroup "eng" "acc1" "eng" GroupIssuedAPI ["p1"]));
    try reflexivity.
  - intros H. discriminate H.
  - exists "policy", "Eng".
    apply (linked_policy exStore exAccount1 _
             (mkPolicy "Eng" true [mkPolicyRule true ["eng"] ["eng"]])
             (mkPolicyRule true ["eng"] ["eng"])).
    + simpl. right. left.
    + simpl. left.
    + left. simpl. left.
Defined.

(** C6, as stated, fails. In the sample deployment nothing references the
    ALL group of account acc2; its administrator deletes it: the error is
    [InvalidArgument] and holds no [GroupLinkError]. The group stays. *)
Lemma all_group_error_is_not_GroupLinked :
  let r := DeleteGroups exIsGroupAll exAM "acc2" "root2" ["all2"] in
  exIsGroupAll <$> groupOf exStore "acc2" "all2" = Some true
  ∧ r.1 = Some (joinError [StatusError InvalidArgument
                             "deleting group ALL is not allowed"])
  ∧ hasGroupLinkError r.1 = false
  ∧ groupOf (AM_Store r.2) "acc2" "all2" = groupOf exStore "acc2" "all2".
Proof. cbv zeta. repeat split; vm_compute; reflexivity. Qed.

(** C6, amended. [DeleteGroups] applied to the distinguished ALL group
    always fails and the ALL group stays, but the error never holds a
    [GroupLinkError]: for a permitted requester on a store whose calls
    succeed, and an ALL group that is not integration-issued, it is the join
    of [InvalidArgument], deleting group ALL is not allowed. *)
Theorem all_group_never_deleted (IsGroupAll : Group → bool)
    (am : DefaultAccountManager) (accountID userID groupID : string) (g : Group) :
  groupOf (AM_Store am) accountID groupID = Some g →
  IsGroupAll g = true →
  (DeleteGroups IsGroupAll am accountID userID [groupID]).1 ≠ None
  ∧ groupOf (AM_Store (DeleteGroups IsGroupAll am accountID userID [groupID]).2)
      accountID groupID = Some g
  ∧ hasGroupLinkError (DeleteGroups IsGroupAll am accountID userID [groupID]).1
    = false
  ∧ (checkRequester (AM_Store am) accountID userID = None →
     (∀ op, faults (AM_Store am) op = false) →
     Group_Issued g ≠ GroupIssuedIntegration →
     (DeleteGroups IsGroupAll am accountID userID [groupID]).1
     = Some (joinError [status_Errorf InvalidArgument
                          "deleting group ALL is not allowed"])).
Proof.
  intros Hgo Hall.
  assert (∃ e, deleteOutcome IsGroupAll (AM_Store am) accountID userID groupID
               = Err e
               ∧ plainError e = true
               ∧ (faults (AM_Store am) OpGetGroupByID = false →
                  Group_Issued g ≠ GroupIssuedIntegration →
                  e = status_Errorf InvalidArgument
                        "deleting group ALL is not allowed"))
    as (e & Ho & Hplain & Hkind).
  { unfold deleteOutcome.
    destruct (GetGroupByID (AM_Store am) LockingStrengthUpdate accountID groupID)
      as [g'|e1] eqn:Hg.
    - apply GetGroupByID_Ok in Hg. rewrite Hgo in Hg. injection Hg as <-.
      destruct (validateDeleteGroup_all IsGroupAll (AM_Store am) g userID Hall)
        as (e & -> & Hp & Hk).
      exists e. split; [done|]. split; [done|]. intros _. exact Hk.
    - exists e1. split; [done|]. split; [by apply GetGroupByID_Err in Hg|].
      intros Hf. unfold GetGroupByID in Hg.
      rewrite guarded_no_fault in Hg by done.
      unfold groupOf in Hgo. unfold withAccount in Hg.
      destruct (accounts (AM_Store am) !! accountID) as [a|]; [|discriminate].
      simpl in Hgo. rewrite Hgo in Hg. discriminate. }
  split; [|split; [|split]].
  - destruct (DeleteGroups_single_rejected IsGroupAll am accountID userID
                groupID e Ho) as [->|(e' & -> & _)]; done.
  - by rewrite (DeleteGroups_keeps_rejected _ _ _ _ _ _ _ Ho).
  - destruct (DeleteGroups_single_rejected IsGroupAll am accountID userID
                groupID e Ho) as [->|(e' & -> & Hp)].
    + by apply hasGroupLinkError_join_plain.
    + by apply hasGroupLinkError_plain.
  - intros Hreq Hf Hiss.
    unfold groupOf in Hgo.
    destruct (accounts (AM_Store am) !! accountID) as [a|] eqn:Ha; [|discriminate].
    rewrite (DeleteGroups_single_rejected_no_fault _ _ _ _ _ e a) by done.
    by rewrite Hkind.
Qed.

Lemma all_group_never_deleted_witness :
  (DeleteGroups exIsGroupAll exAM "acc1" "admin" ["all"]).1 ≠ None
  ∧ groupOf (AM_Store (DeleteGroups exIsGroupAll exAM "acc1" "admin" ["all"]).2)
      "acc1" "all"
    = Some (mkGroup "all" "acc1" "All" GroupIssuedAPI ["p1"; "p2"])
  ∧ hasGroupLinkError (DeleteGroups exIsGroupAll exAM "acc1" "admin" ["all"]).1
    = false
  ∧ (DeleteGroups exIsGroupAll exAM "acc1" "admin" ["all"]).1
    = Some (joinError [status_Errorf InvalidArgument
                         "deleting group ALL is not allowed"]).
Proof.
  destruct (all_group_never_deleted exIsGroupAll exAM "acc1" "admin" "all"
              (mkGroup "all" "acc1" "All" GroupIssuedAPI ["p1"; "p2"])
              eq_refl eq_refl) as (H1 & H2 & H3 & H4).
  split; [exact H1|]. split; [exact H2|]. split; [exact H3|].
  apply H4; [reflexivity|reflexivity|discriminate].
Defined.

(** ** The membership delta and the events of a saved group *)

Lemma difference_elem (a b : list string) (x : string) :
  x ∈ difference a b ↔ x ∈ a ∧ x ∉ b.
Proof. unfold difference. rewrite list_elem_of_filter. tauto. Qed.

(** X1. The delta that [prepareGroupEvents] computes with [difference] is
    exact: no peer is both added and removed, the added peers are not in the
    old group, the removed ones are, and a peer is in the new group exactly
    when it was added, or was in the old group and was not removed. *)
Theorem membership_delta_exact (newPeers oldPeers : list string) (x : string) :
  let addedPeers := difference newPeers oldPeers in
  let removedPeers := difference oldPeers newPeers in
  ¬ (x ∈ addedPeers ∧ x ∈ removedPeers)
  ∧ (x ∈ addedPeers → x ∉ oldPeers)
  ∧ (x ∈ removedPeers → x ∈ oldPeers)
  ∧ (x ∈ newPeers ↔ x ∈ addedPeers ∨ (x ∈ oldPeers ∧ x ∉ removedPeers)).
Proof.
  cbv zeta. rewrite !difference_elem.
  destruct (decide (x ∈ newPeers)), (decide (x ∈ oldPeers)); tauto.
Qed.

Lemma membership_delta_exact_witness :
  ("p2" ∉ ["p1"; "p3"]) ∧ ("p3" ∈ ["p1"; "p3"]).
Proof.
  destruct (membership_delta_exact ["p1"; "p2"] ["p1"; "p3"] "p2")
    as (_ & Hadded & _ & _).
  destruct (membership_delta_exact ["p1"; "p2"] ["p1"; "p3"] "p3")
    as (_ & _ & Hremoved & _).
  split.
  - apply Hadded. vm_compute. left.
  - apply Hremoved. vm_compute. left.
Defined.

Lemma difference_nil_iff (a b : list string) :
  difference a b = [] ↔ ∀ x, x ∈ a → x ∈ b.
Proof.
  split.
  - intros Hnil x Ha. destruct (decide (x ∈ b)) as [|Hnb]; [done|].
    assert (x ∈ difference a b) as Hin by (by apply difference_elem).
    rewrite Hnil in Hin. by apply elem_of_nil in Hin.
  - intros Hsub. destruct (difference a b) as [|y l] eqn:Hd; [done|].
    assert (y ∈ difference a b) as Hin by (rewrite Hd; left).
    apply difference_elem in Hin as [Ha Hnb]. by apply Hsub in Ha.
Qed.

Lemma GetPeersByIDs_lookup (tx : Store) (s : LockingStrength)
    (accountID : string) (peerIDs : list string) (a : Account)
    (peers : gmap string Peer) (peerID : string) :
  accounts tx !! accountID = Some a →
  GetPeersByIDs tx s accountID peerIDs = Ok peers →
  peers !! peerID
  = if decide (peerID ∈ peerIDs) then Account_Peers a !! peerID else None.
Proof.
  intros Ha H. unfold GetPeersByIDs in H.
  apply guarded_Ok in H as [_ H]. unfold withAccount in H. rewrite Ha in H.
  injection H as <-.
  induction peerIDs as [|id ids IH].
  - rewrite decide_False by apply not_elem_of_nil. apply lookup_empty.
  - rewrite omap_cons_eq.
    destruct (Account_Peers a !! id) as [p|] eqn:Hp; cbn [fmap option_fmap option_map].
    + cbn [list_to_map foldr fst snd]. rewrite lookup_insert.
      destruct (decide (id = peerID)) as [->|Hne].
      * rewrite decide_True by left. done.
      * rewrite IH. destruct (decide (peerID ∈ ids)) as [Hin|Hnin].
        -- rewrite decide_True by (by right). done.
        -- rewrite decide_False; [done|].
           intros [->|?]%elem_of_cons; done.
    + rewrite IH. destruct (decide (peerID ∈ ids)) as [Hin|Hnin].
      * rewrite decide_True by (by right). done.
      * destruct (decide (peerID ∈ id :: ids)) as [[->|?]%elem_of_cons|]; done.
Qed.

Lemma peerEvents_found (act : Activity) (accountID userID : string)
    (newGroup : Group) (peers : gmap string Peer) (a : Account)
    (asked peerIDs : list string) :
  (∀ peerID, peers !! peerID
             = if decide (peerID ∈ asked) then Account_Peers a !! peerID
               else None) →
  (∀ peerID, peerID ∈ peerIDs → peerID ∈ asked) →
  peerEvents act accountID userID newGroup peers peerIDs
  = omap (λ peerID,
            (λ peer, mkEvent userID (Peer_ID peer) accountID act
                       (GroupPeerMeta (Group_Name newGroup) (Group_ID newGroup)
                          peer))
            <$> Account_Peers a !! peerID) peerIDs.
Proof.
  intros Hpeers Hsub. unfold peerEvents.
  induction peerIDs as [|id ids IH]; [done|].
  rewrite !omap_cons_eq, Hpeers.
  rewrite decide_True by (apply Hsub; left).
  rewrite IH; [done|]. intros x Hx. apply Hsub. by right.
Qed.

(** X2. Saving a group that the store holds with the same members, in any
    order, prepares no event: not for a change of name, and whether the read
    of the peers succeeds or not. *)
Theorem unchanged_membership_prepares_no_event (tx : Store)
    (accountID userID : string) (newGroup oldGroup : Group) :
  GetGroupByID tx LockingStrengthShare accountID (Group_ID newGroup)
  = Ok oldGroup →
  (∀ peerID, peerID ∈ Group_Peers newGroup ↔ peerID ∈ Group_Peers oldGroup) →
  prepareGroupEvents tx accountID userID newGroup = [].
Proof.
  intros Hold Hsame. unfold prepareGroupEvents. rewrite Hold.
  assert (difference (Group_Peers newGroup) (Group_Peers oldGroup) = []) as ->.
  { apply difference_nil_iff. intros x. apply Hsame. }
  assert (difference (Group_Peers oldGroup) (Group_Peers newGroup) = []) as ->.
  { apply difference_nil_iff. intros x. apply Hsame. }
  cbn [app].
  by destruct (GetPeersByIDs tx LockingStrengthShare accountID []).
Qed.

Lemma unchanged_membership_prepares_no_event_witness :
  prepareGroupEvents exStore "acc1" "admin"
    (mkGroup "all" "acc1" "Everyone" GroupIssuedAPI ["p2"; "p1"]) = [].
Proof.
  apply (unchanged_membership_prepares_no_event exStore "acc1" "admin" _
           (mkGroup "all" "acc1" "All" GroupIssuedAPI ["p1"; "p2"])).
  - reflexivity.
  - intros peerID. simpl. rewrite !elem_of_cons. tauto.
Defined.

(** X3. For a group that the store does not return, [prepareGroupEvents]
    prepares the GroupCreated event and then one GroupAddedToPeer event for
    each peer of the group that the account holds, in the order of the
    group, and no GroupRemovedFromPeer event; with all peers in the account
    that is one event more than the group has peers. When the read of the
    peers fails it prepares nothing, the GroupCreated event included. *)
Theorem new_group_events (tx : Store) (accountID userID : string)
    (newGroup : Group) (a : Account) :
  readFails (GetGroupByID tx LockingStrengthShare accountID (Group_ID newGroup)) →
  accounts tx !! accountID = Some a →
  (faults tx OpGetPeersByIDs = false →
   prepareGroupEvents tx accountID userID newGroup
   = mkEvent userID (Group_ID newGroup) accountID GroupCreated
       (GroupEventMeta newGroup)
     :: omap (λ peerID,
                (λ peer, mkEvent userID (Peer_ID peer) accountID GroupAddedToPeer
                           (GroupPeerMeta (Group_Name newGroup)
                              (Group_ID newGroup) peer))
                <$> Account_Peers a !! peerID) (Group_Peers newGroup))
  ∧ (faults tx OpGetPeersByIDs = false →
     (∀ peerID, peerID ∈ Group_Peers newGroup →
                is_Some (Account_Peers a !! peerID)) →
     length (prepareGroupEvents tx accountID userID newGroup)
     = S (length (Group_Peers newGroup)))
  ∧ (faults tx OpGetPeersByIDs = true →
     prepareGroupEvents tx accountID userID newGroup = []).
Proof.
  intros [e He] Ha.
  assert (faults tx OpGetPeersByIDs = false →
          prepareGroupEvents tx accountID userID newGroup
          = mkEvent userID (Group_ID newGroup) accountID GroupCreated
              (GroupEventMeta newGroup)
            :: omap (λ peerID,
                 (λ peer, mkEvent userID (Peer_ID peer) accountID GroupAddedToPeer
                            (GroupPeerMeta (Group_Name newGroup)
                               (Group_ID newGroup) peer))
                 <$> Account_Peers a !! peerID) (Group_Peers newGroup)) as Hev.
  { intros Hf. unfold prepareGroupEvents. rewrite He, app_nil_r.
    destruct (GetPeersByIDs tx LockingStrengthShare accountID
                (Group_Peers newGroup)) as [peers|e'] eqn:Hp.
    - cbn [app]. f_equal.
      rewrite (peerEvents_found _ _ _ _ _ a (Group_Peers newGroup)
                 (Group_Peers newGroup)); [by rewrite app_nil_r| |done].
      intros peerID. by eapply GetPeersByIDs_lookup.
    - exfalso. unfold GetPeersByIDs, guarded, withAccount in Hp.
      rewrite Hf, Ha in Hp. discriminate. }
  split; [done|]. split.
  - intros Hf Hall. rewrite Hev by done. cbn [length]. f_equal.
    clear -Hall. induction (Group_Peers newGroup) as [|id ids IH]; [done|].
    rewrite omap_cons_eq.
    destruct (Hall id) as [p ->]; [left|].
    cbn [fmap option_fmap option_map length]. f_equal.
    apply IH. intros x Hx. apply Hall. by right.
  - intros Hf. unfold prepareGroupEvents. rewrite He, app_nil_r.
    unfold GetPeersByIDs, guarded. by rewrite Hf.
Qed.

Lemma new_group_events_witness :
  prepareGroupEvents exStore "acc1" "admin"
    (mkGroup "ops" "acc1" "ops" GroupIssuedAPI ["p1"; "p2"])
  = [mkEvent "admin" "ops" "acc1" GroupCreated
       (GroupEventMeta (mkGroup "ops" "acc1" "ops" GroupIssuedAPI ["p1"; "p2"]));
     mkEvent "admin" "p1" "acc1" GroupAddedToPeer
       (GroupPeerMeta "ops" "ops" (mkPeer "p1" "100.64.0.1" "p1"));
     mkEvent "admin" "p2" "acc1" GroupAddedToPeer
       (GroupPeerMeta "ops" "ops" (mkPeer "p2" "100.64.0.2" "p2"))].
Proof.
  destruct (new_group_events exStore "acc1" "admin"
              (mkGroup "ops" "acc1" "ops" GroupIssuedAPI ["p1"; "p2"]) exAccount1)
    as (Hev & _ & _).
  - eexists. reflexivity.
  - reflexivity.
  - rewrite Hev by reflexivity. reflexivity.
Defined.

(** X4. For a group that the store holds, on a store that returns the
    peers, [prepareGroupEvents] prepares one GroupAddedToPeer event for each
    peer of the new group that the old one lacks and then one
    GroupRemovedFromPeer event for each peer of the old group that the new
    one lacks, leaving out the peers the account does not hold; it prepares
    no GroupCreated event. *)
Theorem existing_group_events (tx : Store) (accountID userID : string)
    (newGroup oldGroup : Group) (a : Account) :
  GetGroupByID tx LockingStrengthShare accountID (Group_ID newGroup)
  = Ok oldGroup →
  accounts tx !! accountID = Some a →
  faults tx OpGetPeersByIDs = false →
  let peerEvent act peerID :=
    (λ peer, mkEvent userID (Peer_ID peer) accountID act
               (GroupPeerMeta (Group_Name newGroup) (Group_ID newGroup) peer))
    <$> Account_Peers a !! peerID in
  prepareGroupEvents tx accountID userID newGroup
  = omap (peerEvent GroupAddedToPeer)
      (difference (Group_Peers newGroup) (Group_Peers oldGroup))
    ++ omap (peerEvent GroupRemovedFromPeer)
         (difference (Group_Peers oldGroup) (Group_Peers newGroup))
  ∧ ∀ ev, ev ∈ prepareGroupEvents tx accountID userID newGroup →
          Event_Activity ev ≠ GroupCreated.
Proof.
  intros Hold Ha Hf. cbv zeta.
  assert (prepareGroupEvents tx accountID userID newGroup
          = omap (λ peerID,
                    (λ peer, mkEvent userID (Peer_ID peer) accountID
                               GroupAddedToPeer
                               (GroupPeerMeta (Group_Name newGroup)
                                  (Group_ID newGroup) peer))
                    <$> Account_Peers a !! peerID)
              (difference (Group_Peers newGroup) (Group_Peers oldGroup))
            ++ omap (λ peerID,
                       (λ peer, mkEvent userID (Peer_ID peer) accountID
                                  GroupRemovedFromPeer
                                  (GroupPeerMeta (Group_Name newGroup)
                                     (Group_ID newGroup) peer))
                       <$> Account_Peers a !! peerID)
                 (difference (Group_Peers oldGroup) (Group_Peers newGroup)))
    as Hev.
  { unfold prepareGroupEvents. rewrite Hold.
    destruct (GetPeersByIDs tx LockingStrengthShare accountID _)
      as [peers|e'] eqn:Hp.
    - cbn [app].
      rewrite (peerEvents_found GroupAddedToPeer _ _ _ _ a
                 (difference (Group_Peers newGroup) (Group_Peers oldGroup)
                  ++ difference (Group_Peers oldGroup) (Group_Peers newGroup))).
      + rewrite (peerEvents_found GroupRemovedFromPeer _ _ _ _ a
                 (difference (Group_Peers newGroup) (Group_Peers oldGroup)
                  ++ difference (Group_Peers oldGroup) (Group_Peers newGroup)));
          [done| |].
        * intros peerID. by eapply GetPeersByIDs_lookup.
        * intros x Hx. apply elem_of_app. by right.
      + intros peerID. by eapply GetPeersByIDs_lookup.
      + intros x Hx. apply elem_of_app. by left.
    - exfalso. unfold GetPeersByIDs, guarded, withAccount in Hp.
      rewrite Hf, Ha in Hp. discriminate. }
  split; [done|].
  intros ev. rewrite Hev, elem_of_app, !list_elem_of_omap.
  intros [(pid & _ & Hpid)|(pid & _ & Hpid)];
    destruct (Account_Peers a !! pid); simpl in Hpid; [|done| |done];
    injection Hpid as <-; done.
Qed.

Lemma existing_group_events_witness :
  prepareGroupEvents exStore "acc1" "admin"
    (mkGroup "eng" "acc1" "eng" GroupIssuedAPI ["p2"])
  = [mkEvent "admin" "p2" "acc1" GroupAddedToPeer
       (GroupPeerMeta "eng" "eng" (mkPeer "p2" "100.64.0.2" "p2"));
     mkEvent "admin" "p1" "acc1" GroupRemovedFromPeer
       (GroupPeerMeta "eng" "eng" (mkPeer "p1" "100.64.0.1" "p1"))].
Proof.
  destruct (existing_group_events exStore "acc1" "admin"
              (mkGroup "eng" "acc1" "eng" GroupIssuedAPI ["p2"])
              (mkGroup "eng" "acc1" "eng" GroupIssuedAPI ["p1"]) exAccount1
              eq_refl eq_refl eq_refl) as [Hev _].
  rewrite Hev. reflexivity.
Defined.

(** ** Validation of a group to save *)

Lemma peersExist_None (tx : Store) (accountID : string) (peerIDs : list string) :
  peersExist tx accountID peerIDs = None ↔
  ∀ peerID, peerID ∈ peerIDs →
            ∃ peer, GetPeerByID tx LockingStrengthShare accountID peerID = Ok peer.
Proof.
  induction peerIDs as [|id ids IH]; simpl.
  - split; [|done]. intros _ x Hx. by apply elem_of_nil in Hx.
  - destruct (GetPeerByID tx LockingStrengthShare accountID id) as [p|e] eqn:Hp.
    + rewrite IH. split.
      * intros Hall x [->|Hx]%elem_of_cons; [eauto|by apply Hall].
      * intros Hall x Hx. apply Hall. by right.
    + split; [discriminate|]. intros Hall.
      destruct (Hall id) as [p Hp']; [left|congruence].
Qed.

(** X5. A group that [validateNewGroup] accepts has all its peers in the
    account, and keeps its name, issuer and peers. When it carried an ID it
    is returned as it was and no identifier is drawn; when it carried none
    it is API-issued, no group of the account has its name, and it gets the
    next fresh identifier. *)
Theorem validated_new_group (xid_New : nat → string) (tx : Store)
    (accountID : string) (newGroup g : Group) (n n' : nat) :
  validateNewGroup xid_New tx accountID newGroup n = (None, g, n') →
  (∀ peerID, peerID ∈ Group_Peers g →
             ∃ peer, GetPeerByID tx LockingStrengthShare accountID peerID = Ok peer)
  ∧ Group_Name g = Group_Name newGroup
  ∧ Group_Issued g = Group_Issued newGroup
  ∧ Group_Peers g = Group_Peers newGroup
  ∧ Group_AccountID g = Group_AccountID newGroup
  ∧ (Group_ID newGroup ≠ "" → g = newGroup ∧ n' = n)
  ∧ (Group_ID newGroup = "" →
     Group_Issued newGroup = GroupIssuedAPI
     ∧ Group_ID g = xid_New n ∧ n' = S n
     ∧ ∀ existing, GetGroupByName tx LockingStrengthShare accountID
                     (Group_Name newGroup) ≠ Ok existing).
Proof.
  unfold validateNewGroup.
  destruct (bool_decide (Group_ID newGroup = "")) eqn:Hid.
  - apply bool_decide_eq_true in Hid.
    destruct (bool_decide (Group_Issued newGroup = GroupIssuedAPI)) eqn:Hiss;
      cbn [negb andb]; [|discriminate].
    apply bool_decide_eq_true in Hiss.
    destruct (GetGroupByName tx LockingStrengthShare accountID
                (Group_Name newGroup)) as [ex|e] eqn:Hname; [discriminate|].
    destruct (negb (isNotFound e)); [discriminate|].
    intros [= Hp <- <-].
    pose proof (proj1 (peersExist_None _ _ _) Hp) as Hall.
    repeat split; try done.
  - apply bool_decide_eq_false in Hid. cbn [andb].
    intros [= Hp <- <-].
    pose proof (proj1 (peersExist_None _ _ _) Hp) as Hall.
    repeat split; try done.
Qed.

Lemma validated_new_group_witness :
  Group_ID (validateNewGroup exXid exStore "acc1"
              (mkGroup "" "" "ops" GroupIssuedAPI ["p1"]) 4).1.2 = exXid 4
  ∧ (validateNewGroup exXid exStore "acc1"
       (mkGroup "" "" "ops" GroupIssuedAPI ["p1"]) 4).2 = 5.
Proof.
  destruct (validated_new_group exXid exStore "acc1"
              (mkGroup "" "" "ops" GroupIssuedAPI ["p1"])
              (mkGroup (exXid 4) "" "ops" GroupIssuedAPI ["p1"]) 4 5)
    as (_ & _ & _ & _ & _ & _ & Hfresh).
  - vm_compute. reflexivity.
  - destruct Hfresh as (_ & Hid & Hn & _); [reflexivity|].
    split; vm_compute; reflexivity.
Defined.

(** X6. What [validateNewGroup] refuses, case by case. A group without ID
    that is not API-issued gets InvalidArgument before the store is read,
    whatever the store holds or fails. For an API-issued group without ID:
    when the store returns a group for its name it gets AlreadyExists; when
    the read by name fails with an error that is not NotFound it gets that
    error; in these refusals no identifier is drawn. When the read by name
    answers NotFound the identifier is drawn first and the peers are tested
    after: a missing peer refuses the group after the draw, and the group
    keeps the identifier. A group that carries an ID is never compared by
    name: its only test is that its peers exist, and no identifier is
    drawn. *)
Theorem refused_new_group (xid_New : nat → string) (tx : Store)
    (accountID : string) (newGroup : Group) (n : nat) :
  (Group_ID newGroup = "" → Group_Issued newGroup ≠ GroupIssuedAPI →
   validateNewGroup xid_New tx accountID newGroup n
   = (Some (status_Errorf InvalidArgument
              (GroupIssued_String (Group_Issued newGroup)
               +:+ " group without ID set")), newGroup, n))
  ∧ (∀ existing,
       Group_ID newGroup = "" → Group_Issued newGroup = GroupIssuedAPI →
       GetGroupByName tx LockingStrengthShare accountID (Group_Name newGroup)
       = Ok existing →
       validateNewGroup xid_New tx accountID newGroup n
       = (Some (status_Errorf AlreadyExists
                  ("group with name " +:+ Group_Name newGroup
                   +:+ " already exists")), newGroup, n))
  ∧ (∀ err,
       Group_ID newGroup = "" → Group_Issued newGroup = GroupIssuedAPI →
       GetGroupByName tx LockingStrengthShare accountID (Group_Name newGroup)
       = Err err →
       isNotFound err = false →
       validateNewGroup xid_New tx accountID newGroup n
       = (Some err, newGroup, n))
  ∧ (∀ err,
       Group_ID newGroup = "" → Group_Issued newGroup = GroupIssuedAPI →
       GetGroupByName tx LockingStrengthShare accountID (Group_Name newGroup)
       = Err err →
       isNotFound err = true →
       validateNewGroup xid_New tx accountID newGroup n
       = (peersExist tx accountID (Group_Peers newGroup),
          Group_withID newGroup (xid_New n), S n))
  ∧ (Group_ID newGroup ≠ "" →
     validateNewGroup xid_New tx accountID newGroup n
     = (peersExist tx accountID (Group_Peers newGroup), newGroup, n)).
Proof.
  unfold validateNewGroup. split; [|split; [|split; [|split]]].
  - intros Hid Hiss.
    by rewrite bool_decide_eq_true_2, bool_decide_eq_false_2.
  - intros existing Hid Hiss Hname.
    rewrite !bool_decide_eq_true_2 by done. cbn [negb andb].
    by rewrite Hname.
  - intros err Hid Hiss Hname Hnf.
    rewrite !bool_decide_eq_true_2 by done. cbn [negb andb].
    by rewrite Hname, Hnf.
  - intros err Hid Hiss Hname Hnf.
    rewrite !bool_decide_eq_true_2 by done. cbn [negb andb].
    rewrite Hname, Hnf. cbn [negb Group_withID Group_Peers].
    by destruct (peersExist tx accountID (Group_Peers newGroup)).
  - intros Hid. rewrite !bool_decide_eq_false_2 by done. reflexivity.
Qed.

Lemma refused_new_group_witness :
  validateNewGroup exXid exStoreFailing "acc1"
    (mkGroup "" "acc1" "sync" GroupIssuedJWT []) 0
  = (Some (StatusError InvalidArgument "jwt group without ID set"),
     mkGroup "" "acc1" "sync" GroupIssuedJWT [], 0)
  ∧ validateNewGroup exXid exStore "acc1"
      (mkGroup "" "acc1" "eng" GroupIssuedAPI []) 0
    = (Some (StatusError AlreadyExists "group with name eng already exists"),
       mkGroup "" "acc1" "eng" GroupIssuedAPI [], 0)
  ∧ validateNewGroup exXid exStoreNameFails "acc1"
      (mkGroup "" "acc1" "ops" GroupIssuedAPI []) 0
    = (Some (StoreError OpGetGroupByName),
       mkGroup "" "acc1" "ops" GroupIssuedAPI [], 0)
  ∧ validateNewGroup exXid exStore "acc1"
      (mkGroup "" "acc1" "ops" GroupIssuedAPI ["p9"]) 0
    = (Some (StatusError InvalidArgument
               ("peer with ID " +:+ quote +:+ "p9" +:+ quote +:+ " not found")),
       mkGroup (exXid 0) "acc1" "ops" GroupIssuedAPI ["p9"], 1)
  ∧ validateNewGroup exXid exStore "acc1"
      (mkGroup "misc" "acc1" "eng" GroupIssuedAPI []) 0
    = (None, mkGroup "misc" "acc1" "eng" GroupIssuedAPI [], 0).
Proof.
  split; [|split; [|split; [|split]]].
  - destruct (refused_new_group exXid exStoreFailing "acc1"
                (mkGroup "" "acc1" "sync" GroupIssuedJWT []) 0)
      as (Hissuer & _).
    apply Hissuer; [reflexivity|discriminate].
  - destruct (refused_new_group exXid exStore "acc1"
                (mkGroup "" "acc1" "eng" GroupIssuedAPI []) 0)
      as (_ & Hexists & _).
    apply (Hexists (mkGroup "eng" "acc1" "eng" GroupIssuedAPI ["p1"]));
      [reflexivity|reflexivity|vm_compute; reflexivity].
  - destruct (refused_new_group exXid exStoreNameFails "acc1"
                (mkGroup "" "acc1" "ops" GroupIssuedAPI []) 0)
      as (_ & _ & Hstore & _).
    apply Hstore; reflexivity.
  - destruct (refused_new_group exXid exStore "acc1"
                (mkGroup "" "acc1" "ops" GroupIssuedAPI ["p9"]) 0)
      as (_ & _ & _ & Hdrawn & _).
    rewrite (Hdrawn (StatusError NotFound "group not found"));
      [reflexivity|reflexivity|reflexivity|vm_compute; reflexivity|reflexivity].
  - destruct (refused_new_group exXid exStore "acc1"
                (mkGroup "misc" "acc1" "eng" GroupIssuedAPI []) 0)
      as (_ & _ & _ & _ & Hid).
    apply Hid. discriminate.
Defined.

(** ** What the operations change *)

(** X7. [SaveGroups], [GroupAddPeer] and [GroupDeletePeer] are all or
    nothing: whenever one of them returns an error, for the requester, for a
    group that does not validate, or from the store, the store is as
    before, no event is stored and no propagation is triggered. In
    [SaveGroups] that holds also for the groups of the list that were valid. *)
Theorem error_means_no_change (xid_New : nat → string)
    (am am' : DefaultAccountManager) (accountID userID groupID peerID : string)
    (groups : list Group) (e : error) :
  (SaveGroups xid_New am accountID userID groups = (Some e, am') →
   noSideEffects am am')
  ∧ (GroupAddPeer am accountID groupID peerID = (Some e, am') →
     noSideEffects am am')
  ∧ (GroupDeletePeer am accountID groupID peerID = (Some e, am') →
     noSideEffects am am').
Proof.
  split; [|split].
  - unfold SaveGroups.
    destruct (checkRequester (AM_Store am) accountID userID).
    { by intros [= _ <-]. }
    destruct (ExecuteInTransaction _ _) as [[[e'|] l] st] eqn:Htx; [|discriminate].
    apply ExecuteInTransaction_rollback in Htx as ->.
    by intros [= _ <-].
  - unfold GroupAddPeer, GroupChangePeer.
    destruct (ExecuteInTransaction _ _) as [[[e'|] l] st] eqn:Htx; [|discriminate].
    apply ExecuteInTransaction_rollback in Htx as ->.
    by intros [= _ <-].
  - unfold GroupDeletePeer, GroupChangePeer.
    destruct (ExecuteInTransaction _ _) as [[[e'|] l] st] eqn:Htx; [|discriminate].
    apply ExecuteInTransaction_rollback in Htx as ->.
    by intros [= _ <-].
Qed.

Lemma error_means_no_change_witness :
  noSideEffects exAM
    (SaveGroups exXid exAM "acc1" "admin"
       [mkGroup "misc" "acc1" "misc" GroupIssuedAPI ["p1"];
        mkGroup "eng" "acc1" "eng" GroupIssuedAPI ["p9"]]).2.
Proof.
  pose proof (error_means_no_change exXid exAM
                (SaveGroups exXid exAM "acc1" "admin"
                   [mkGroup "misc" "acc1" "misc" GroupIssuedAPI ["p1"];
                    mkGroup "eng" "acc1" "eng" GroupIssuedAPI ["p9"]]).2
                "acc1" "admin" "" ""
                [mkGroup "misc" "acc1" "misc" GroupIssuedAPI ["p1"];
                 mkGroup "eng" "acc1" "eng" GroupIssuedAPI ["p9"]]
                (StatusError InvalidArgument
                   ("peer with ID " +:+ quote +:+ "p9" +:+ quote
                    +:+ " not found")))
    as (H & _).
  apply H. vm_compute. reflexivity.
Defined.

(** The loop of [SaveGroups] over groups that all carry an ID: each group is
    queued with the target account as its account, its ID is noted, and its
    events are prepared against the store as it is before any save. *)
Lemma SaveGroups_loop_with_IDs (xid_New : nat → string) (tx : Store)
    (accountID userID : string) (groups : list Group) (ids ids' : list string)
    (l l' : SaveLocals) :
  (∀ g, g ∈ groups → Group_ID g ≠ "") →
  SaveGroups_loop xid_New tx accountID userID groups ids l = (None, ids', l') →
  ids' = ids ++ (Group_ID <$> groups)
  ∧ groupsToSave l'
    = groupsToSave l ++ ((λ g, Group_withAccountID g accountID) <$> groups)
  ∧ eventsToStore l'
    = eventsToStore l
      ++ concat ((λ g, prepareGroupEvents tx accountID userID
                         (Group_withAccountID g accountID)) <$> groups)
  ∧ updateAccountPeers l' = updateAccountPeers l
  ∧ xids l' = xids l.
Proof.
  revert ids l. induction groups as [|g groups IH]; intros ids l Hids.
  - simpl. intros [= <- <-]. by rewrite !app_nil_r.
  - cbn [SaveGroups_loop].
    assert (validateNewGroup xid_New tx accountID g (xids l)
            = (peersExist tx accountID (Group_Peers g), g, xids l)) as ->.
    { unfold validateNewGroup.
      rewrite !bool_decide_eq_false_2 by (apply Hids; left). reflexivity. }
    destruct (peersExist tx accountID (Group_Peers g)); [discriminate|].
    intros Hloop. apply IH in Hloop as (-> & -> & -> & -> & ->).
    + cbn [groupsToSave eventsToStore updateAccountPeers xids
            Group_withAccountID Group_ID].
      rewrite !fmap_cons, concat_cons, <- !app_assoc. done.
    + intros g' Hg'. apply Hids. by right.
Qed.

Lemma savedGroup_app (groupID : string) (groups : list Group) (g : Group) :
  savedGroup groupID (groups ++ [g])
  = if bool_decide (Group_ID g = groupID) then Some g
    else savedGroup groupID groups.
Proof. unfold savedGroup. by rewrite foldl_app. Qed.

Lemma putGroups_app (st : Store) (groups : list Group) (g : Group) :
  putGroups st (groups ++ [g])
  = match putGroups st groups with
    | Ok st' => putGroup st' g
    | Err e => Err e
    end.
Proof.
  revert st. induction groups as [|g0 groups IH]; intros st; simpl.
  - by destruct (putGroup st g).
  - destruct (putGroup st g0); [apply IH|done].
Qed.

(** The groups of a store after a sequence of saves under one account. *)
Lemma putGroups_groupOf (accountID : string) (groups : list Group)
    (st st' : Store) :
  (∀ g, g ∈ groups → Group_AccountID g = accountID) →
  putGroups st groups = Ok st' →
  ∀ acc gid,
    groupOf st' acc gid
    = if decide (acc = accountID)
      then match savedGroup gid groups with
           | Some g => Some g
           | None => groupOf st acc gid
           end
      else groupOf st acc gid.
Proof.
  revert st'. induction groups as [|g groups IH] using rev_ind; intros st' Hacc.
  - simpl. intros [= <-] acc gid. by destruct (decide (acc = accountID)).
  - rewrite putGroups_app.
    destruct (putGroups st groups) as [st1|e] eqn:Hp; [|discriminate].
    intros Hput acc gid. apply putGroup_Ok in Hput as (_ & Hg & _).
    rewrite Hg, savedGroup_app.
    rewrite (Hacc g) by (apply elem_of_app; right; left).
    rewrite (IH st1) by (try done; intros g' Hg'; apply Hacc, elem_of_app; by left).
    destruct (decide (acc = accountID)) as [->|Hne].
    + destruct (decide (Group_ID g = gid)) as [Hid|Hid].
      * rewrite decide_True by done. by rewrite bool_decide_eq_true_2.
      * rewrite decide_False by (by intros [_ ?]).
        by rewrite bool_decide_eq_false_2.
    + by rewrite decide_False by (intros [? _]; congruence).
Qed.

Lemma savedGroup_fmap (groupID accountID : string) (groups : list Group) :
  savedGroup groupID ((λ g, Group_withAccountID g accountID) <$> groups)
  = (λ g, Group_withAccountID g accountID) <$> savedGroup groupID groups.
Proof.
  induction groups as [|g groups IH] using rev_ind; [done|].
  rewrite fmap_app. cbn [fmap list_fmap].
  rewrite !savedGroup_app, IH. cbn [Group_withAccountID Group_ID].
  by destruct (bool_decide (Group_ID g = groupID)).
Qed.

(** What a [SaveGroups] that returns nil has run, for groups that all carry
    an ID. *)
Lemma SaveGroups_None_with_IDs (xid_New : nat → string)
    (am am' : DefaultAccountManager) (accountID userID : string)
    (groups : list Group) :
  (∀ g, g ∈ groups → Group_ID g ≠ "") →
  SaveGroups xid_New am accountID userID groups = (None, am') →
  ∃ tx1,
    IncrementNetworkSerial (AM_Store am) LockingStrengthUpdate accountID = Ok tx1
    ∧ putGroups tx1 ((λ g, Group_withAccountID g accountID) <$> groups)
      = Ok (AM_Store am')
    ∧ AM_events am'
      = AM_events am
        ++ concat ((λ g, prepareGroupEvents (AM_Store am) accountID userID
                           (Group_withAccountID g accountID)) <$> groups)
    ∧ AM_peerUpdates am'
      = (if (areGroupChangesAffectPeers (AM_Store am) accountID
               (Group_ID <$> groups)).1
         then AM_peerUpdates am ++ [accountID] else AM_peerUpdates am)
    ∧ AM_xids am' = AM_xids am.
Proof.
  intros Hids. unfold SaveGroups.
  destruct (checkRequester (AM_Store am) accountID userID); [discriminate|].
  destruct (ExecuteInTransaction _ _) as [[[e|] l] st] eqn:Htx; [discriminate|].
  intros [= <-]. cbn [AM_Store AM_events AM_peerUpdates AM_xids].
  apply ExecuteInTransaction_commit in Htx as [Htx _].
  unfold SaveGroups_tx in Htx.
  destruct (SaveGroups_loop xid_New (AM_Store am) accountID userID groups []
              (mkSaveLocals [] [] false (AM_xids am)))
    as [[[e|] ids] l1] eqn:Hloop; [discriminate|].
  apply SaveGroups_loop_with_IDs in Hloop as (-> & Hsave & Hev & _ & Hx);
    [|done].
  cbn [groupsToSave eventsToStore xids app] in *.
  destruct (areGroupChangesAffectPeers (AM_Store am) accountID
              (Group_ID <$> groups)) as [upd [e|]]; [discriminate|].
  destruct (IncrementNetworkSerial (AM_Store am) LockingStrengthUpdate accountID)
    as [tx1|e] eqn:Hinc; [|discriminate].
  cbn [groupsToSave] in Htx.
  destruct (Store_SaveGroups tx1 LockingStrengthUpdate (groupsToSave l1))
    as [tx2|e] eqn:Hst; [|discriminate].
  injection Htx as <- <-.
  cbn [eventsToStore updateAccountPeers xids fst].
  unfold Store_SaveGroups in Hst. apply guarded_Ok in Hst as [_ Hst].
  rewrite Hsave in Hst.
  exists tx1. by rewrite Hev, Hx.
Qed.

(** X8. After a [SaveGroups] that returns nil, for groups that all carry an
    ID: the target account holds, under each ID of the list, the last group
    of the list with that ID, with the target account as its account
    whatever account the caller had written in it; every other group of the
    account, and every group of another account, is as before. *)
Theorem saved_groups_are_stored (xid_New : nat → string)
    (am am' : DefaultAccountManager) (accountID userID : string)
    (groups : list Group) :
  (∀ g, g ∈ groups → Group_ID g ≠ "") →
  SaveGroups xid_New am accountID userID groups = (None, am') →
  ∀ acc gid,
    groupOf (AM_Store am') acc gid
    = if decide (acc = accountID)
      then match savedGroup gid groups with
           | Some g => Some (Group_withAccountID g accountID)
           | None => groupOf (AM_Store am) acc gid
           end
      else groupOf (AM_Store am) acc gid.
Proof.
  intros Hids Hop acc gid.
  apply SaveGroups_None_with_IDs in Hop as (tx1 & Hinc & Hput & _); [|done].
  apply IncrementNetworkSerial_Ok in Hinc as (_ & Hg & _).
  assert (∀ g, g ∈ (λ g0, Group_withAccountID g0 accountID) <$> groups →
               Group_AccountID g = accountID) as Hacc.
  { intros g (g0 & -> & _)%list_elem_of_fmap. reflexivity. }
  rewrite (putGroups_groupOf accountID _ _ _ Hacc Hput).
  rewrite savedGroup_fmap, !Hg.
  destruct (decide (acc = accountID)); [|done].
  by destruct (savedGroup gid groups).
Qed.

Lemma saved_groups_are_stored_witness :
  groupOf
    (AM_Store (SaveGroups exXid exAM "acc1" "admin"
                 [mkGroup "ops" "acc2" "ops" GroupIssuedAPI ["p1"]]).2)
    "acc1" "ops"
  = Some (mkGroup "ops" "acc1" "ops" GroupIssuedAPI ["p1"])
  ∧ groupOf
      (AM_Store (SaveGroups exXid exAM "acc1" "admin"
                   [mkGroup "ops" "acc2" "ops" GroupIssuedAPI ["p1"]]).2)
      "acc2" "ops" = None.
Proof.
  pose proof (saved_groups_are_stored exXid exAM
                (SaveGroups exXid exAM "acc1" "admin"
                   [mkGroup "ops" "acc2" "ops" GroupIssuedAPI ["p1"]]).2
                "acc1" "admin"
                [mkGroup "ops" "acc2" "ops" GroupIssuedAPI ["p1"]]) as H.
  split.
  - rewrite H; [reflexivity| |vm_compute; reflexivity].
    intros g Hg. apply list_elem_of_singleton in Hg. subst g. discriminate.
  - rewrite H; [reflexivity| |vm_compute; reflexivity].
    intros g Hg. apply list_elem_of_singleton in Hg. subst g. discriminate.
Defined.

(** X9. A [SaveGroups] that returns nil, for groups that all carry an ID,
    triggers one propagation for the account when the impact predicate over
    the IDs of the list is true and none otherwise, however many groups the
    list has; the events it stores are those prepared for each group, in the
    order of the list, each against the store as it was before the call; it
    draws no identifier. *)
Theorem saved_groups_effects (xid_New : nat → string)
    (am am' : DefaultAccountManager) (accountID userID : string)
    (groups : list Group) :
  (∀ g, g ∈ groups → Group_ID g ≠ "") →
  SaveGroups xid_New am accountID userID groups = (None, am') →
  AM_peerUpdates am'
  = (if (areGroupChangesAffectPeers (AM_Store am) accountID
           (Group_ID <$> groups)).1
     then AM_peerUpdates am ++ [accountID] else AM_peerUpdates am)
  ∧ AM_events am'
    = AM_events am
      ++ concat ((λ g, prepareGroupEvents (AM_Store am) accountID userID
                         (Group_withAccountID g accountID)) <$> groups)
  ∧ AM_xids am' = AM_xids am.
Proof.
  intros Hids Hop.
  by apply SaveGroups_None_with_IDs in Hop as (tx1 & _ & _ & Hev & Hupd & Hx).
Qed.

Lemma saved_groups_effects_witness :
  AM_peerUpdates
    (SaveGroups exXid exAM "acc1" "admin"
       [mkGroup "misc" "acc1" "misc" GroupIssuedAPI ["p1"];
        mkGroup "eng" "acc1" "eng" GroupIssuedAPI ["p1"; "p2"];
        mkGroup "all" "acc1" "All" GroupIssuedAPI ["p1"; "p2"]]).2
  = ["acc1"].
Proof.
  destruct (saved_groups_effects exXid exAM
              (SaveGroups exXid exAM "acc1" "admin"
                 [mkGroup "misc" "acc1" "misc" GroupIssuedAPI ["p1"];
                  mkGroup "eng" "acc1" "eng" GroupIssuedAPI ["p1"; "p2"];
                  mkGroup "all" "acc1" "All" GroupIssuedAPI ["p1"; "p2"]]).2
              "acc1" "admin"
              [mkGroup "misc" "acc1" "misc" GroupIssuedAPI ["p1"];
               mkGroup "eng" "acc1" "eng" GroupIssuedAPI ["p1"; "p2"];
               mkGroup "all" "acc1" "All" GroupIssuedAPI ["p1"; "p2"]])
    as (Hupd & _).
  - intros g Hg. repeat (apply elem_of_cons in Hg as [->|Hg]; [discriminate|]).
    by apply elem_of_nil in Hg.
  - vm_compute. reflexivity.
  - rewrite Hupd. reflexivity.
Defined.

(** X10. What the operations never do. [DeleteGroups] never triggers a
    propagation, also when it deletes groups, and draws no identifier.
    [GroupAddPeer] and [GroupDeletePeer] never store an event, also when
    they change the membership, and draw no identifier. *)
Theorem operations_never (IsGroupAll : Group → bool)
    (am : DefaultAccountManager) (accountID userID groupID peerID : string)
    (groupIDs : list string) :
  (AM_peerUpdates (DeleteGroups IsGroupAll am accountID userID groupIDs).2
   = AM_peerUpdates am
   ∧ AM_xids (DeleteGroups IsGroupAll am accountID userID groupIDs).2
     = AM_xids am)
  ∧ (AM_events (GroupAddPeer am accountID groupID peerID).2 = AM_events am
     ∧ AM_xids (GroupAddPeer am accountID groupID peerID).2 = AM_xids am)
  ∧ (AM_events (GroupDeletePeer am accountID groupID peerID).2 = AM_events am
     ∧ AM_xids (GroupDeletePeer am accountID groupID peerID).2 = AM_xids am).
Proof.
  split; [|split].
  - unfold DeleteGroups.
    destruct (checkRequester (AM_Store am) accountID userID); [done|].
    by destruct (ExecuteInTransaction _ _) as [[[e|] l] st].
  - unfold GroupAddPeer, GroupChangePeer.
    by destruct (ExecuteInTransaction _ _) as [[[e|] l] st].
  - unfold GroupDeletePeer, GroupChangePeer.
    by destruct (ExecuteInTransaction _ _) as [[[e|] l] st].
Qed.

(** X11. A [GroupAddPeer] or [GroupDeletePeer] that returns nil after a
    change of the group, the store holding the group under its own ID and
    account, triggers one propagation when the impact predicate of the group
    is true and none otherwise; it stores the changed group, and every other
    group is as before. *)
Theorem peer_change_effects (change : Group → string → bool * Group)
    (am am' : DefaultAccountManager) (accountID groupID peerID : string)
    (g : Group) :
  change = AddPeer ∨ change = RemovePeer →
  GetGroupByID (AM_Store am) LockingStrengthUpdate accountID groupID = Ok g →
  Group_ID g = groupID → Group_AccountID g = accountID →
  (change g peerID).1 = true →
  GroupChangePeer change am accountID groupID peerID = (None, am') →
  AM_peerUpdates am'
  = (if (areGroupChangesAffectPeers (AM_Store am) accountID [groupID]).1
     then AM_peerUpdates am ++ [accountID] else AM_peerUpdates am)
  ∧ groupOf (AM_Store am') accountID groupID = Some (change g peerID).2
  ∧ ∀ acc gid, (acc, gid) ≠ (accountID, groupID) →
               groupOf (AM_Store am') acc gid = groupOf (AM_Store am) acc gid.
Proof.
  intros Hchange Hg Hid Hacc Hupd Hop.
  apply GroupChangePeer_None in Hop as (upd & Htx & _ & Hpu & _).
  eapply GroupChangePeer_tx_commit in Htx as (_ & -> & Hgr); [|done|done].
  assert (Group_ID (change g peerID).2 = groupID
          ∧ Group_AccountID (change g peerID).2 = accountID) as [Hid' Hacc'].
  { destruct Hchange as [-> | ->]; unfold AddPeer, RemovePeer;
      destruct (bool_decide (peerID ∈ Group_Peers g)); done. }
  split; [done|]. split.
  - rewrite Hgr. by rewrite decide_True.
  - intros acc gid Hne. rewrite Hgr.
    rewrite decide_False; [done|]. intros [<- <-]. congruence.
Qed.

Lemma peer_change_effects_witness :
  AM_peerUpdates (GroupAddPeer exAM "acc1" "eng" "p2").2 = ["acc1"]
  ∧ AM_peerUpdates (GroupDeletePeer exAM "acc1" "all" "p1").2 = ["acc1"]
  ∧ AM_peerUpdates (GroupAddPeer exAM "acc1" "misc" "p2").2 = [].
Proof.
  split; [|split].
  - destruct (peer_change_effects AddPeer exAM
                (GroupAddPeer exAM "acc1" "eng" "p2").2 "acc1" "eng" "p2"
                (mkGroup "eng" "acc1" "eng" GroupIssuedAPI ["p1"])
                (or_introl eq_refl) eq_refl eq_refl eq_refl eq_refl eq_refl)
      as (H & _).
    rewrite H. reflexivity.
  - destruct (peer_change_effects RemovePeer exAM
                (GroupDeletePeer exAM "acc1" "all" "p1").2 "acc1" "all" "p1"
                (mkGroup "all" "acc1" "All" GroupIssuedAPI ["p1"; "p2"])
                (or_intror eq_refl) eq_refl eq_refl eq_refl eq_refl eq_refl)
      as (H & _).
    rewrite H. reflexivity.
  - destruct (peer_change_effects AddPeer exAM
                (GroupAddPeer exAM "acc1" "misc" "p2").2 "acc1" "misc" "p2"
                (mkGroup "misc" "acc1" "misc" GroupIssuedAPI [])
                (or_introl eq_refl) eq_refl eq_refl eq_refl eq_refl eq_refl)
      as (H & _).
    rewrite H. reflexivity.
Defined.

(** X12. An empty list is not a no-op. [SaveGroups] and [DeleteGroups] of no
    group, by a permitted requester on an account the store holds, when the
    increment, the write and the commit succeed, return nil and increment
    the serial; they change no group, store no event and trigger no
    propagation. [SaveGroups] does so even when the DNS settings cannot be
    read, for the impact predicate of an empty list reads nothing. *)
Theorem empty_list_increments_serial (IsGroupAll : Group → bool)
    (xid_New : nat → string) (am : DefaultAccountManager)
    (accountID userID : string) (a : Account) :
  checkRequester (AM_Store am) accountID userID = None →
  accounts (AM_Store am) !! accountID = Some a →
  faults (AM_Store am) OpIncrementNetworkSerial = false →
  faults (AM_Store am) OpCommit = false →
  (faults (AM_Store am) OpSaveGroups = false →
   ∃ am', SaveGroups xid_New am accountID userID [] = (None, am')
          ∧ serialOf (AM_Store am') accountID = S (Account_Serial a)
          ∧ (∀ acc gid, groupOf (AM_Store am') acc gid
                        = groupOf (AM_Store am) acc gid)
          ∧ AM_events am' = AM_events am
          ∧ AM_peerUpdates am' = AM_peerUpdates am)
  ∧ (faults (AM_Store am) OpDeleteGroups = false →
     ∃ am', DeleteGroups IsGroupAll am accountID userID [] = (None, am')
            ∧ serialOf (AM_Store am') accountID = S (Account_Serial a)
            ∧ (∀ acc gid, groupOf (AM_Store am') acc gid
                          = groupOf (AM_Store am) acc gid)
            ∧ AM_events am' = AM_events am
            ∧ AM_peerUpdates am' = AM_peerUpdates am).
Proof.
  intros Hreq Ha Hinc Hcommit.
  assert (serialOf (AM_Store am) accountID = Account_Serial a) as Hserial.
  { unfold serialOf. by rewrite Ha. }
  destruct (IncrementNetworkSerial (AM_Store am) LockingStrengthUpdate accountID)
    as [tx1|e] eqn:Htx1.
  2: { exfalso. unfold IncrementNetworkSerial, guarded, withAccount in Htx1.
       rewrite Hinc, Ha in Htx1. discriminate. }
  pose proof (IncrementNetworkSerial_Ok _ _ _ _ Htx1) as (Hs & Hg & Hf).
  split.
  - intros Hsave. unfold SaveGroups. rewrite Hreq.
    unfold ExecuteInTransaction, SaveGroups_tx.
    cbn [SaveGroups_loop areGroupChangesAffectPeers groupsToSave eventsToStore
         updateAccountPeers xids].
    rewrite Htx1. unfold Store_SaveGroups, guarded. rewrite Hf, Hsave.
    cbn [putGroups]. rewrite Hcommit.
    eexists. split; [reflexivity|]. cbn [AM_Store AM_events AM_peerUpdates].
    rewrite app_nil_r. by rewrite Hs, Hserial.
  - intros Hdel. unfold DeleteGroups. rewrite Hreq.
    unfold ExecuteInTransaction, DeleteGroups_tx.
    cbn [DeleteGroups_loop groupIDsToDelete deletedGroups allErrors].
    rewrite Htx1.
    destruct (Store_DeleteGroups tx1 LockingStrengthUpdate accountID [])
      as [tx2|e] eqn:Htx2.
    2: { exfalso. unfold Store_DeleteGroups, guarded, withAccount in Htx2.
         rewrite Hf, Hdel in Htx2.
         unfold serialOf in Hs. rewrite Ha in Hs.
         destruct (accounts tx1 !! accountID); discriminate. }
    apply Store_DeleteGroups_Ok in Htx2 as (Hs2 & Hg2).
    rewrite Hcommit.
    eexists. split; [reflexivity|]. cbn [AM_Store AM_events AM_peerUpdates map].
    rewrite app_nil_r. split; [by rewrite Hs2, Hs, Hserial|]. split; [|done].
    intros acc gid. rewrite Hg2, Hg.
    rewrite decide_False; [done|]. intros [_ Hin]. by apply elem_of_nil in Hin.
Qed.

Lemma empty_list_increments_serial_witness :
  let am := mkAM (mkStore (accounts exStore) (users exStore) dnsSettingsFail)
              [] [] 0 in
  (∃ am', SaveGroups exXid am "acc1" "admin" [] = (None, am')
          ∧ serialOf (AM_Store am') "acc1" = 8
          ∧ (∀ acc gid, groupOf (AM_Store am') acc gid
                        = groupOf (AM_Store am) acc gid)
          ∧ AM_events am' = [] ∧ AM_peerUpdates am' = [])
  ∧ (∃ am', DeleteGroups exIsGroupAll am "acc1" "admin" [] = (None, am')
            ∧ serialOf (AM_Store am') "acc1" = 8
            ∧ (∀ acc gid, groupOf (AM_Store am') acc gid
                          = groupOf (AM_Store am) acc gid)
            ∧ AM_events am' = [] ∧ AM_peerUpdates am' = []).
Proof.
  cbv zeta.
  destruct (empty_list_increments_serial exIsGroupAll exXid
              (mkAM (mkStore (accounts exStore) (users exStore) dnsSettingsFail)
                 [] [] 0) "acc1" "admin" exAccount1
              eq_refl eq_refl eq_refl eq_refl) as [Hsave Hdel].
  split; [apply Hsave|apply Hdel]; reflexivity.
Defined.

(** ** The impact predicate, exactly *)

Lemma findLinkedDns_true (G : string) (nsgs : list NameServerGroup) :
  (findLinkedDns G nsgs).1 = true ↔ ∃ d, d ∈ nsgs ∧ G ∈ NSGroup_Groups d.
Proof.
  destruct (findLinkedDns_spec G nsgs) as [(d & -> & Hin & Hl)|[-> Hall]].
  - split; [|done]. intros _. exists d. split; [done|].
    by apply dnsGroupLinks_true.
  - split; [discriminate|]. intros (d & Hin & Hl).
    apply dnsGroupLinks_true in Hl. by rewrite (Hall d Hin) in Hl.
Qed.

(** X13. On a store that returns the account's DNS settings, name-server
    groups, policies and routes, [areGroupChangesAffectPeers] returns no
    error, and answers true exactly when a group of the list is in the
    DNS-management-disabled list, or in the groups of a name-server group,
    or a source or destination of a policy rule, or in the groups or peer
    groups of a route: a reference from a setup key, a user or the
    integrated-validator list alone does not make it true. For an empty list
    it answers false without reading the store; for another list it returns
    the error of a failed read of the DNS settings. *)
Theorem impact_exact (st : Store) (accountID : string) (a : Account)
    (groupIDs : list string) :
  (accounts st !! accountID = Some a →
   faults st OpGetAccountDNSSettings = false →
   faults st OpGetAccountNameServerGroups = false →
   faults st OpGetAccountPolicies = false →
   faults st OpGetAccountRoutes = false →
   ∃ b, areGroupChangesAffectPeers st accountID groupIDs = (b, None)
        ∧ (b = true ↔
           ∃ G, G ∈ groupIDs
                ∧ (G ∈ DisabledManagementGroups (Account_DNSSettings a)
                   ∨ (∃ d, d ∈ Account_NameServerGroups a ∧ G ∈ NSGroup_Groups d)
                   ∨ (∃ policy rule,
                        policy ∈ Account_Policies a ∧ rule ∈ Policy_Rules policy
                        ∧ (G ∈ Rule_Sources rule ∨ G ∈ Rule_Destinations rule))
                   ∨ (∃ r, r ∈ Account_Routes a
                           ∧ (G ∈ Route_Groups r ∨ G ∈ Route_PeerGroups r)))))
  ∧ areGroupChangesAffectPeers st accountID [] = (false, None)
  ∧ (∀ e, groupIDs ≠ [] →
          GetAccountDNSSettings st LockingStrengthShare accountID = Err e →
          areGroupChangesAffectPeers st accountID groupIDs = (false, Some e)).
Proof.
  split; [|split].
  - intros Ha Hf1 Hf2 Hf3 Hf4.
    exists (anyGroupAffectsPeers st accountID (Account_DNSSettings a) groupIDs).
    split.
    + unfold areGroupChangesAffectPeers, GetAccountDNSSettings, guarded,
        withAccount. rewrite Hf1, Ha. by destruct groupIDs.
    + rewrite anyGroupAffectsPeers_true.
      unfold isGroupLinkedToDns, isGroupLinkedToPolicy, isGroupLinkedToRoute,
        GetAccountNameServerGroups, GetAccountPolicies, GetAccountRoutes,
        guarded, withAccount.
      rewrite Hf2, Hf3, Hf4, Ha.
      split; intros (G & HG & Hl); exists G; (split; [done|]).
      * destruct Hl as [H|[H|[H|H]]]; [by left| | |].
        -- right; left. by apply findLinkedDns_true.
        -- right; right; left.
           apply findLinkedPolicy_true in H as (p & Hp & Hr).
           apply ruleLinks_true in Hr as (rule & Hr & Hsd). eauto.
        -- right; right; right. by apply findLinkedRoute_true.
      * destruct Hl as [H|[H|[H|H]]]; [by left| | |].
        -- right; left. by apply findLinkedDns_true.
        -- right; right; left. destruct H as (p & rule & Hp & Hr & Hsd).
           apply findLinkedPolicy_true. exists p. split; [done|].
           apply ruleLinks_true. eauto.
        -- right; right; right. by apply findLinkedRoute_true.
  - reflexivity.
  - intros e Hne He. unfold areGroupChangesAffectPeers. rewrite He.
    by destruct groupIDs.
Qed.

Lemma impact_exact_witness :
  areGroupChangesAffectPeers exStoreKeys "acc3" ["k"] = (false, None)
  ∧ areGroupChangesAffectPeers exStore "acc1" ["misc"; "idp"] = (true, None).
Proof.
  split.
  - destruct (impact_exact exStoreKeys "acc3" exAccountKeys ["k"])
      as (H & _).
    destruct H as (b & -> & Hb); try reflexivity.
    destruct b; [|done]. exfalso.
    destruct (proj1 Hb eq_refl) as (G & _ & [H|[(d & H & _)|[(p & r & H & _)
                                              |(r & H & _)]]]);
      simpl in H; by apply elem_of_nil in H.
  - destruct (impact_exact exStore "acc1" exAccount1 ["misc"; "idp"])
      as (H & _).
    destruct H as (b & -> & Hb); try reflexivity.
    f_equal. apply Hb. exists "idp". split; [right; left|].
    right; right; right. exists (mkRoute "net1" ["idp"] []).
    split; [left|]. left. left.
Defined.

(** ** Who may delete what *)

(** X14. An integration-issued group is never deleted for a requester the
    store resolves to a user that is not an admin or not a service user:
    after [DeleteGroups] of any list of IDs the group is where it was. What
    [DeleteGroup] of its ID returns depends on the requester check: a
    requester that passes it gets, on a store whose calls succeed, the join
    of PermissionDenied, whatever references the group; a requester that
    does not pass it gets the error of the check, not joined, and nothing
    changes. *)
Theorem integration_group_needs_admin_service_user (IsGroupAll : Group → bool)
    (am : DefaultAccountManager) (accountID userID groupID : string)
    (groupIDs : list string) (g : Group) (u : User) :
  groupOf (AM_Store am) accountID groupID = Some g →
  Group_Issued g = GroupIssuedIntegration →
  users (AM_Store am) !! userID = Some u →
  User_Role u ≠ UserRoleAdmin ∨ User_IsServiceUser u = false →
  groupOf (AM_Store (DeleteGroups IsGroupAll am accountID userID groupIDs).2)
    accountID groupID = Some g
  ∧ (checkRequester (AM_Store am) accountID userID = None →
     (∀ op, faults (AM_Store am) op = false) →
     (DeleteGroup IsGroupAll am accountID userID groupID).1
     = Some (joinError [status_Errorf PermissionDenied
          "only service users with admin power can delete integration group"]))
  ∧ (∀ err, checkRequester (AM_Store am) accountID userID = Some err →
            DeleteGroup IsGroupAll am accountID userID groupID = (Some err, am)).
Proof.
  intros Hgo Hiss Hu Hnot.
  assert (∀ g', validateDeleteGroup IsGroupAll (AM_Store am) g' userID = None →
                g' ≠ g) as Hrej.
  { intros g' Hv ->. unfold validateDeleteGroup in Hv.
    rewrite bool_decide_eq_true_2 in Hv by done.
    unfold GetUserByUserID, guarded in Hv.
    destruct (faults (AM_Store am) OpGetUserByUserID); [discriminate|].
    rewrite Hu in Hv.
    destruct Hnot as [Hr|Hs].
    - by rewrite bool_decide_eq_false_2 in Hv.
    - rewrite Hs, orb_true_r in Hv. discriminate. }
  assert (∃ e, deleteOutcome IsGroupAll (AM_Store am) accountID userID groupID
               = Err e) as [e Ho].
  { unfold deleteOutcome.
    destruct (GetGroupByID (AM_Store am) LockingStrengthUpdate accountID groupID)
      as [g'|e1] eqn:Hg; [|eauto].
    apply GetGroupByID_Ok in Hg. rewrite Hgo in Hg. injection Hg as <-.
    destruct (validateDeleteGroup IsGroupAll (AM_Store am) g userID) eqn:Hv;
      [eauto|]. by destruct (Hrej g Hv). }
  split; [|split].
  3: { intros err Hreq. unfold DeleteGroup, DeleteGroups. by rewrite Hreq. }
  - by rewrite (DeleteGroups_keeps_rejected _ _ _ _ _ _ _ Ho).
  - intros Hreq Hf. unfold DeleteGroup.
    unfold groupOf in Hgo.
    destruct (accounts (AM_Store am) !! accountID) as [a|] eqn:Ha; [|discriminate].
    rewrite (DeleteGroups_single_rejected_no_fault _ _ _ _ _ e a) by done.
    do 3 f_equal. revert Ho. unfold deleteOutcome.
    assert (groupOf (AM_Store am) accountID groupID = Some g) as Hgo'.
    { unfold groupOf. by rewrite Ha. }
    rewrite (GetGroupByID_of_groupOf _ _ _ _ g) by done.
    unfold validateDeleteGroup. rewrite bool_decide_eq_true_2 by done.
    unfold GetUserByUserID, guarded. rewrite Hf, Hu.
    destruct Hnot as [Hr|Hs].
    + rewrite bool_decide_eq_false_2 by done. by intros [= <-].
    + rewrite Hs, orb_true_r. by intros [= <-].
Qed.

Lemma integration_group_needs_admin_service_user_witness :
  groupOf (AM_Store (DeleteGroups exIsGroupAll exAM "acc1" "admin"
                       ["misc"; "idp"]).2) "acc1" "idp"
  = Some (mkGroup "idp" "acc1" "idp" GroupIssuedIntegration [])
  ∧ (DeleteGroup exIsGroupAll exAM "acc1" "admin" "idp").1
    = Some (joinError [status_Errorf PermissionDenied
         "only service users with admin power can delete integration group"])
  ∧ DeleteGroup exIsGroupAll exAM "acc1" "bob" "idp"
    = (Some NewAdminPermissionError, exAM)
  ∧ DeleteGroup exIsGroupAll exAM "acc1" "eve" "idp"
    = (Some NewUserNotPartOfAccountError, exAM).
Proof.
  destruct (integration_group_needs_admin_service_user exIsGroupAll exAM
              "acc1" "admin" "idp" ["misc"; "idp"]
              (mkGroup "idp" "acc1" "idp" GroupIssuedIntegration [])
              (mkUser "admin" "acc1" UserRoleAdmin false [])
              eq_refl eq_refl eq_refl (or_intror eq_refl)) as (H1 & H2 & _).
  destruct (integration_group_needs_admin_service_user exIsGroupAll exAM
              "acc1" "bob" "idp" []
              (mkGroup "idp" "acc1" "idp" GroupIssuedIntegration [])
              (mkUser "bob" "acc1" UserRoleUser false [])
              eq_refl eq_refl eq_refl (or_intror eq_refl)) as (_ & _ & Hbob).
  destruct (integration_group_needs_admin_service_user exIsGroupAll exAM
              "acc1" "eve" "idp" []
              (mkGroup "idp" "acc1" "idp" GroupIssuedIntegration [])
              (mkUser "eve" "acc2" UserRoleUser false [])
              eq_refl eq_refl eq_refl (or_intror eq_refl)) as (_ & _ & Heve).
  split; [exact H1|]. split; [apply H2; reflexivity|].
  split; [apply Hbob|apply Heve]; reflexivity.
Defined.

Lemma validateDeleteGroup_None (IsGroupAll : Group → bool) (st : Store)
    (g : Group) (userID : string) :
  (∀ op, faults st op = false) →
  validateDeleteGroup IsGroupAll st g userID = None →
  IsGroupAll g = false
  ∧ (Group_Issued g = GroupIssuedIntegration →
     ∃ u, users st !! userID = Some u
          ∧ User_Role u = UserRoleAdmin ∧ User_IsServiceUser u = true).
Proof.
  intros Hf. unfold validateDeleteGroup.
  destruct (bool_decide (Group_Issued g = GroupIssuedIntegration)) eqn:Hi.
  - unfold GetUserByUserID, guarded. rewrite Hf.
    destruct (users st !! userID) as [u|]; [|discriminate].
    destruct (bool_decide (User_Role u = UserRoleAdmin)) eqn:Hr;
      cbn [negb orb]; [|discriminate].
    destruct (User_IsServiceUser u) eqn:Hs; cbn [negb]; [|discriminate].
    destruct (IsGroupAll g); [discriminate|].
    intros _. split; [done|]. intros _. exists u.
    apply bool_decide_eq_true in Hr. done.
  - apply bool_decide_eq_false in Hi.
    destruct (IsGroupAll g); [discriminate|]. by intros _.
Qed.

(** X15. [DeleteGroups] leaves no dangling reference: on a store whose calls
    succeed, a group of the account that is gone after the call was not the
    ALL group and nothing referenced it: no policy rule, route, name-server
    group, setup key, user of the account, nor the DNS-management-disabled
    or integrated-validator list; and when it was integration-issued the
    requester was an admin service user. *)
Theorem deleted_group_was_unreferenced (IsGroupAll : Group → bool)
    (am : DefaultAccountManager) (accountID userID groupID : string)
    (groupIDs : list string) (a : Account) (g : Group) :
  (∀ op, faults (AM_Store am) op = false) →
  accounts (AM_Store am) !! accountID = Some a →
  Account_Groups a !! groupID = Some g →
  Group_AccountID g = accountID →
  groupOf (AM_Store (DeleteGroups IsGroupAll am accountID userID groupIDs).2)
    accountID groupID = None →
  IsGroupAll g = false
  ∧ (∀ res name, ¬ GroupLinked (AM_Store am) a g res name)
  ∧ (Group_Issued g = GroupIssuedIntegration →
     ∃ u, users (AM_Store am) !! userID = Some u
          ∧ User_Role u = UserRoleAdmin ∧ User_IsServiceUser u = true).
Proof.
  intros Hf Ha Hg Hacc Hgone.
  assert (groupOf (AM_Store am) accountID groupID = Some g) as Hgo.
  { unfold groupOf. rewrite Ha. exact Hg. }
  assert (validateDeleteGroup IsGroupAll (AM_Store am) g userID = None) as Hv.
  { destruct (deleteOutcome IsGroupAll (AM_Store am) accountID userID groupID)
      as [g'|e] eqn:Ho.
    - unfold deleteOutcome in Ho.
      rewrite (GetGroupByID_of_groupOf _ _ _ _ g) in Ho by done.
      by destruct (validateDeleteGroup IsGroupAll (AM_Store am) g userID).
    - rewrite (DeleteGroups_keeps_rejected _ _ _ _ _ _ _ Ho) in Hgone.
      congruence. }
  destruct (validateDeleteGroup_None _ _ _ _ Hf Hv) as [Hall Hperm].
  split; [done|]. split; [|done].
  intros res name Hlink.
  destruct (validateDeleteGroup_linked IsGroupAll (AM_Store am) a g userID)
    as (res' & name' & _ & Hv'); try done.
  - by rewrite Hacc.
  - eauto.
  - congruence.
Qed.

Lemma deleted_group_was_unreferenced_witness :
  exIsGroupAll (mkGroup "misc" "acc1" "misc" GroupIssuedAPI []) = false
  ∧ ¬ GroupLinked exStore exAccount1
        (mkGroup "misc" "acc1" "misc" GroupIssuedAPI []) "policy" "Eng".
Proof.
  destruct (deleted_group_was_unreferenced exIsGroupAll exAM "acc1" "admin"
              "misc" ["misc"; "eng"] exAccount1
              (mkGroup "misc" "acc1" "misc" GroupIssuedAPI [])
              (λ _, eq_refl) eq_refl eq_refl eq_refl eq_refl)
    as (Hall & Hnone & _).
  split; [exact Hall|apply Hnone].
Defined.

(** ** Reading groups *)

Lemma CheckGroupPermissions_None (am : DefaultAccountManager)
    (accountID userID : string) :
  CheckGroupPermissions am accountID userID = None →
  ∃ u, users (AM_Store am) !! userID = Some u
       ∧ User_AccountID u = accountID ∧ IsRegularUser u = false.
Proof.
  unfold CheckGroupPermissions, GetUserByUserID, guarded.
  destruct (faults (AM_Store am) OpGetUserByUserID); [discriminate|].
  destruct (users (AM_Store am) !! userID) as [u|]; [|discriminate].
  destruct (bool_decide (User_AccountID u = accountID)) eqn:Hacc;
    cbn [negb]; [|discriminate].
  apply bool_decide_eq_true in Hacc.
  destruct (IsRegularUser u) eqn:Hreg; [discriminate|].
  intros _. by exists u.
Qed.

(** X16. [GetGroup] and [GetAllGroups] give groups only to a requester that
    the store resolves to a user of the target account that is not a regular
    user; what [GetGroup] gives is the group the store holds under the ID in
    that account, and what [GetAllGroups] gives is the store's list for that
    account. *)
Theorem groups_read_only_by_permitted_user
    (GetAccountGroups : Store → LockingStrength → string → Result (list Group))
    (am : DefaultAccountManager) (accountID groupID userID : string) :
  (∀ g, GetGroup am accountID groupID userID = Ok g →
        (∃ u, users (AM_Store am) !! userID = Some u
              ∧ User_AccountID u = accountID ∧ IsRegularUser u = false)
        ∧ groupOf (AM_Store am) accountID groupID = Some g)
  ∧ (∀ gs, GetAllGroups GetAccountGroups am accountID userID = Ok gs →
           (∃ u, users (AM_Store am) !! userID = Some u
                 ∧ User_AccountID u = accountID ∧ IsRegularUser u = false)
           ∧ GetAccountGroups (AM_Store am) LockingStrengthShare accountID
             = Ok gs).
Proof.
  split.
  - intros g. unfold GetGroup.
    destruct (CheckGroupPermissions am accountID userID) eqn:Hc; [discriminate|].
    intros Hg. split; [by apply CheckGroupPermissions_None|].
    by apply GetGroupByID_Ok in Hg.
  - intros gs. unfold GetAllGroups.
    destruct (CheckGroupPermissions am accountID userID) eqn:Hc; [discriminate|].
    intros Hg. split; [by apply CheckGroupPermissions_None|done].
Qed.

Lemma groups_read_only_by_permitted_user_witness :
  (∃ u, users exStore !! "admin" = Some u
        ∧ User_AccountID u = "acc1" ∧ IsRegularUser u = false)
  ∧ groupOf exStore "acc1" "eng"
    = Some (mkGroup "eng" "acc1" "eng" GroupIssuedAPI ["p1"]).
Proof.
  apply (groups_read_only_by_permitted_user exGetAccountGroups
           exAM "acc1" "eng" "admin").
  reflexivity.
Defined.

Lemma IncrementNetworkSerial_users (st st' : Store) (s : LockingStrength)
    (accountID : string) :
  IncrementNetworkSerial st s accountID = Ok st' → users st' = users st.
Proof.
  unfold IncrementNetworkSerial. intros H.
  apply guarded_Ok in H as [_ H].
  by apply withAccount_Ok in H as (a & Ha & [= <-]).
Qed.

Lemma putGroups_frame (groups : list Group) (st st' : Store) :
  putGroups st groups = Ok st' → users st' = users st ∧ faults st' = faults st.
Proof.
  revert st. induction groups as [|g groups IH]; simpl; intros st H.
  - by injection H as <-.
  - destruct (putGroup st g) as [st1|e] eqn:Hp; [|discriminate].
    apply IH in H as [-> ->].
    unfold putGroup in Hp. by apply withAccount_Ok in Hp as (a & Ha & [= <-]).
Qed.

Lemma checkRequester_frame (st st' : Store) (accountID userID : string) :
  users st' = users st → faults st' = faults st →
  checkRequester st' accountID userID = checkRequester st accountID userID.
Proof.
  intros Hu Hf. unfold checkRequester, GetUserByUserID, guarded.
  by rewrite Hu, Hf.
Qed.

(** X17. What [SaveGroups] saved, [GetGroup] returns: after a [SaveGroups]
    that returns nil, for groups that all carry an ID, [GetGroup] by the same
    requester, when the read of the group does not fail, returns under each
    ID of the list the last group of the list with that ID, with the target
    account as its account. *)
Theorem save_then_get (xid_New : nat → string)
    (am am' : DefaultAccountManager) (accountID userID groupID : string)
    (groups : list Group) (g : Group) :
  (∀ g, g ∈ groups → Group_ID g ≠ "") →
  SaveGroups xid_New am accountID userID groups = (None, am') →
  faults (AM_Store am) OpGetGroupByID = false →
  savedGroup groupID groups = Some g →
  GetGroup am' accountID groupID userID
  = Ok (Group_withAccountID g accountID).
Proof.
  intros Hids Hop Hf Hsaved.
  assert (checkRequester (AM_Store am) accountID userID = None) as Hreq.
  { unfold SaveGroups in Hop.
    by destruct (checkRequester (AM_Store am) accountID userID). }
  apply SaveGroups_None_with_IDs in Hop as (tx1 & Hinc & Hput & _); [|done].
  pose proof (IncrementNetworkSerial_users _ _ _ _ Hinc) as Hu1.
  apply IncrementNetworkSerial_Ok in Hinc as (_ & Hg & Hf1).
  pose proof (putGroups_frame _ _ _ Hput) as [Hu2 Hf2].
  assert (∀ g0, g0 ∈ (λ g0, Group_withAccountID g0 accountID) <$> groups →
                Group_AccountID g0 = accountID) as Hacc.
  { intros g0 (g1 & -> & _)%list_elem_of_fmap. reflexivity. }
  pose proof (putGroups_groupOf accountID _ _ _ Hacc Hput accountID groupID)
    as Hgo.
  rewrite decide_True, savedGroup_fmap, Hsaved in Hgo by done.
  unfold GetGroup.
  change (CheckGroupPermissions am' accountID userID)
    with (checkRequester (AM_Store am') accountID userID).
  rewrite (checkRequester_frame (AM_Store am) (AM_Store am')), Hreq
    by congruence.
  apply GetGroupByID_of_groupOf; [congruence|done].
Qed.

Lemma save_then_get_witness :
  GetGroup
    (SaveGroups exXid exAM "acc1" "admin"
       [mkGroup "misc" "" "misc" GroupIssuedAPI ["p1"];
        mkGroup "misc" "" "renamed" GroupIssuedAPI ["p2"]]).2
    "acc1" "misc" "admin"
  = Ok (mkGroup "misc" "acc1" "renamed" GroupIssuedAPI ["p2"]).
Proof.
  apply (save_then_get exXid exAM _ "acc1" "admin" "misc"
           [mkGroup "misc" "" "misc" GroupIssuedAPI ["p1"];
            mkGroup "misc" "" "renamed" GroupIssuedAPI ["p2"]]
           (mkGroup "misc" "" "renamed" GroupIssuedAPI ["p2"])).
  - intros g Hg. repeat (apply elem_of_cons in Hg as [->|Hg]; [discriminate|]).
    by apply elem_of_nil in Hg.
  - vm_compute. reflexivity.
  - reflexivity.
  - reflexivity.
Defined.

(** X18. [anyGroupHasPeers] is true exactly when one of the IDs names a group
    of the account that has peers; an ID that names no group of the account
    is passed over, and an empty list gives false. *)
Theorem anyGroupHasPeers_exactly (HasPeers : Group → bool) (account : Account)
    (groupIDs : list string) :
  anyGroupHasPeers HasPeers account groupIDs = true ↔
  ∃ groupID group, groupID ∈ groupIDs
                   ∧ Account_Groups account !! groupID = Some group
                   ∧ HasPeers group = true.
Proof.
  induction groupIDs as [|id ids IH]; simpl.
  - split; [discriminate|]. intros (x & g & Hx & _). by apply elem_of_nil in Hx.
  - destruct (Account_Groups account !! id) as [g|] eqn:Hg.
    + destruct (HasPeers g) eqn:Hp.
      * split; [|done]. intros _. exists id, g. split; [left|done].
      * rewrite IH. split.
        -- intros (x & g' & Hx & Hg' & Hp'). exists x, g'. split; [by right|done].
        -- intros (x & g' & [->|Hx]%elem_of_cons & Hg' & Hp'); [congruence|eauto].
    + rewrite IH. split.
      * intros (x & g' & Hx & Hg' & Hp'). exists x, g'. split; [by right|done].
      * intros (x & g' & [->|Hx]%elem_of_cons & Hg' & Hp'); [congruence|eauto].
Qed.

(** ** Wrapping of text *)

Lemma wrapText_loop_lines (lineLength : Z) (text : list Z) (cur : Z) :
  (0 ≤ cur < lineLength)%Z →
  ∃ first rest,
    splitLines (wrapText_loop text lineLength cur) = first :: rest
    ∧ (Z.of_nat (length first) ≤ lineLength - cur)%Z
    ∧ Forall (λ line, (Z.of_nat (length line) ≤ lineLength)%Z) rest.
Proof.
  revert cur. induction text as [|r text IH]; intros cur Hcur.
  - exists [], []. simpl. split; [done|]. split; [lia|constructor].
  - cbn [wrapText_loop].
    destruct (bool_decide (lineLength ≤ cur + 1)%Z
              || bool_decide (r = newline)) eqn:Hbreak.
    + destruct (IH 0%Z) as (first & rest & Hsplit & Hfirst & Hrest); [lia|].
      destruct (bool_decide (r = newline)) eqn:Hr.
      * exists [], ([] :: first :: rest).
        cbn [splitLines]. rewrite Hr.
        rewrite (bool_decide_eq_true_2 (newline = newline)) by done.
        rewrite Hsplit. split; [done|]. split; [simpl; lia|].
        repeat constructor; [simpl; lia|lia|done].
      * exists [r], (first :: rest).
        cbn [splitLines]. rewrite Hr.
        rewrite (bool_decide_eq_true_2 (newline = newline)) by done.
        rewrite Hsplit. split; [done|]. split; [simpl; lia|].
        constructor; [lia|done].
    + apply orb_false_iff in Hbreak as [Hlen Hr].
      apply bool_decide_eq_false in Hlen.
      destruct (IH (cur + 1)%Z) as (first & rest & Hsplit & Hfirst & Hrest);
        [lia|].
      exists (r :: first), rest.
      cbn [splitLines]. rewrite Hr, Hsplit.
      split; [done|]. split; [|done]. cbn [length]. lia.
Qed.

(** X19. For a line length of at least 1, no line of the text that
    [wrapText] returns is longer than the line length, as its comment says.
    For a line length of 1 or less, zero and negative ones included, it puts
    a newline after every rune. *)
Theorem wrapText_line_length (text : list Z) (lineLength : Z) :
  ((1 ≤ lineLength)%Z →
   Forall (λ line, (Z.of_nat (length line) ≤ lineLength)%Z)
     (splitLines (wrapText text lineLength)))
  ∧ ((lineLength ≤ 1)%Z →
     wrapText text lineLength = concat ((λ r, [r; newline]) <$> text)).
Proof.
  split.
  - intros Hn. unfold wrapText.
    destruct (wrapText_loop_lines lineLength text 0)
      as (first & rest & -> & Hfirst & Hrest); [lia|].
    constructor; [lia|done].
  - intros Hn. unfold wrapText.
    assert (∀ cur, (0 ≤ cur)%Z →
                   wrapText_loop text lineLength cur
                   = concat ((λ r, [r; newline]) <$> text)) as H.
    { induction text as [|r text IH]; intros cur Hcur; [done|].
      cbn [wrapText_loop]. rewrite bool_decide_eq_true_2 by lia.
      cbn [orb]. rewrite IH by lia. reflexivity. }
    apply H. lia.
Qed.

Lemma wrapText_line_length_witness :
  Forall (λ line, (Z.of_nat (length line) ≤ 3)%Z)
    (splitLines (wrapText [97; 98; 99; 100; 10; 101; 102; 103; 104]%Z 3))
  ∧ wrapText [97; 98]%Z 0 = [97; 10; 98; 10]%Z.
Proof.
  split.
  - apply (wrapText_line_length [97; 98; 99; 100; 10; 101; 102; 103; 104]%Z 3).
    lia.
  - apply (wrapText_line_length [97; 98]%Z 0). lia.
Defined.

(** X20. [wrapText] only inserts newlines, for every line length: the text
    is a subsequence of the result, the runes other than newline are the
    same in the same order, and the result is at most twice as long. *)
Theorem wrapText_only_inserts_newlines (text : list Z) (lineLength : Z) :
  text `sublist_of` wrapText text lineLength
  ∧ filter (λ r, r ≠ newline) (wrapText text lineLength)
    = filter (λ r, r ≠ newline) text
  ∧ (List.length (wrapText text lineLength) ≤ 2 * List.length text)%nat.
Proof.
  unfold wrapText. generalize 0%Z as cur.
  induction text as [|r text IH]; intros cur.
  - simpl. split; [constructor|]. split; [done|lia].
  - cbn [wrapText_loop].
    destruct (bool_decide (lineLength ≤ cur + 1)%Z
              || bool_decide (r = newline)).
    + destruct (IH 0%Z) as (Hsub & Hfilter & Hlen).
      split; [|split].
      * apply sublist_skip, sublist_cons, Hsub.
      * rewrite !filter_cons.
        destruct (decide (newline ≠ newline)) as [Hne|_]; [done|].
        by rewrite Hfilter.
      * cbn [length]. lia.
    + destruct (IH (cur + 1)%Z) as (Hsub & Hfilter & Hlen).
      split; [|split].
      * by apply sublist_skip.
      * rewrite !filter_cons. by rewrite Hfilter.
      * cbn [length]. lia.
Qed.

(** ** Creating and deleting one group *)

(** X21. [SaveGroup] of an API-issued group without ID that returns nil has
    created the group: it drew one identifier, the account holds the group
    under that identifier with the target account as its account and its
    name, issuer and peers as given, no group of the account was returned
    for its name, and the serial is incremented. *)
Theorem created_group_is_stored (xid_New : nat → string)
    (am am' : DefaultAccountManager) (accountID userID : string)
    (newGroup : Group) :
  Group_ID newGroup = "" →
  SaveGroup xid_New am accountID userID newGroup = (None, am') →
  Group_Issued newGroup = GroupIssuedAPI
  ∧ (∀ existing, GetGroupByName (AM_Store am) LockingStrengthShare accountID
                   (Group_Name newGroup) ≠ Ok existing)
  ∧ AM_xids am' = S (AM_xids am)
  ∧ groupOf (AM_Store am') accountID (xid_New (AM_xids am))
    = Some (mkGroup (xid_New (AM_xids am)) accountID (Group_Name newGroup)
              GroupIssuedAPI (Group_Peers newGroup))
  ∧ serialOf (AM_Store am') accountID = S (serialOf (AM_Store am) accountID).
Proof.
  intros Hid. unfold SaveGroup, SaveGroups.
  destruct (checkRequester (AM_Store am) accountID userID); [discriminate|].
  destruct (ExecuteInTransaction _ _) as [[[e|] l] st] eqn:Htx; [discriminate|].
  intros [= <-]. cbn [AM_Store AM_xids].
  apply ExecuteInTransaction_commit in Htx as [Htx _].
  pose proof (SaveGroups_tx_commit _ _ _ _ _ _ _ _ Htx) as Hserial.
  unfold SaveGroups_tx in Htx. cbn [SaveGroups_loop xids] in Htx.
  unfold validateNewGroup in Htx.
  rewrite (bool_decide_eq_true_2 (Group_ID newGroup = "")) in Htx by done.
  destruct (bool_decide (Group_Issued newGroup = GroupIssuedAPI)) eqn:Hiss;
    cbn [negb andb] in Htx; [|discriminate].
  apply bool_decide_eq_true in Hiss.
  destruct (GetGroupByName (AM_Store am) LockingStrengthShare accountID
              (Group_Name newGroup)) as [ex|e] eqn:Hname; [discriminate|].
  destruct (negb (isNotFound e)); [discriminate|].
  cbn [Group_withID Group_Peers] in Htx.
  destruct (peersExist (AM_Store am) accountID (Group_Peers newGroup));
    [discriminate|].
  cbn [Group_withAccountID Group_withID Group_ID Group_AccountID Group_Name
       Group_Issued Group_Peers groupsToSave eventsToStore updateAccountPeers
       xids app] in Htx.
  destruct (areGroupChangesAffectPeers (AM_Store am) accountID
              [xid_New (AM_xids am)]) as [upd [e'|]]; [discriminate|].
  destruct (IncrementNetworkSerial (AM_Store am) LockingStrengthUpdate accountID)
    as [tx1|e'] eqn:Hinc; [|discriminate].
  cbn [groupsToSave] in Htx.
  destruct (Store_SaveGroups tx1 LockingStrengthUpdate _) as [tx2|e'] eqn:Hsave;
    [|discriminate].
  injection Htx as <- <-. cbn [xids].
  unfold Store_SaveGroups in Hsave. apply guarded_Ok in Hsave as [_ Hsave].
  cbn [putGroups] in Hsave.
  destruct (putGroup tx1 _) as [tx3|e'] eqn:Hput; [|discriminate].
  injection Hsave as <-.
  apply putGroup_Ok in Hput as (_ & Hg & _).
  split; [done|]. split; [congruence|]. split; [done|]. split; [|done].
  rewrite Hg.
  cbn [Group_withAccountID Group_withID Group_AccountID Group_ID Group_Name
       Group_Issued Group_Peers].
  rewrite decide_True by done.
  unfold Group_withAccountID, Group_withID. simpl. by rewrite Hiss.
Qed.

Lemma created_group_is_stored_witness :
  groupOf
    (AM_Store (SaveGroup exXid exAM "acc1" "admin"
                 (mkGroup "" "" "ops" GroupIssuedAPI ["p1"; "p2"])).2)
    "acc1" (exXid 0)
  = Some (mkGroup (exXid 0) "acc1" "ops" GroupIssuedAPI ["p1"; "p2"]).
Proof.
  apply (created_group_is_stored exXid exAM _ "acc1" "admin"
           (mkGroup "" "" "ops" GroupIssuedAPI ["p1"; "p2"])).
  - reflexivity.
  - vm_compute. reflexivity.
Defined.

Lemma validateDeleteGroup_unlinked (IsGroupAll : Group → bool) (st : Store)
    (a : Account) (g : Group) (userID : string) :
  (∀ op, faults st op = false) →
  accounts st !! Group_AccountID g = Some a →
  IsGroupAll g = false →
  (Group_Issued g = GroupIssuedIntegration →
   ∃ u, users st !! userID = Some u
        ∧ User_Role u = UserRoleAdmin ∧ User_IsServiceUser u = true) →
  (∀ res name, ¬ GroupLinked st a g res name) →
  validateDeleteGroup IsGroupAll st g userID = None.
Proof.
  intros Hf Ha Hall Hperm Hnone.
  destruct (validateDeleteGroup IsGroupAll st g userID) as [e|] eqn:Hv; [|done].
  exfalso. revert Hv. unfold validateDeleteGroup.
  assert ((if bool_decide (Group_Issued g = GroupIssuedIntegration)
           then match GetUserByUserID st LockingStrengthShare userID with
                | Ok executingUser =>
                    if negb (bool_decide (User_Role executingUser = UserRoleAdmin))
                       || negb (User_IsServiceUser executingUser)
                    then Some (status_Errorf PermissionDenied
                      "only service users with admin power can delete integration group")
                    else None
                | Err err => Some err
                end
           else None) = None) as ->.
  { destruct (bool_decide (Group_Issued g = GroupIssuedIntegration)) eqn:Hi;
      [|done].
    apply bool_decide_eq_true in Hi.
    destruct (Hperm Hi) as (u & Hu & Hrole & Hsvc).
    unfold GetUserByUserID, guarded. rewrite Hf, Hu, Hsvc.
    by rewrite bool_decide_eq_true_2. }
  rewrite Hall.
  unfold isGroupLinkedToRoute, GetAccountRoutes, guarded, withAccount.
  rewrite Hf, Ha.
  destruct (findLinkedRoute_spec (Group_ID g) (Account_Routes a))
    as [(r & _ & Hin & Hl)|[-> _]].
  { destruct (Hnone "route" (Route_NetID r)).
    apply (linked_route _ _ _ r Hin). by apply orb_contains_true. }
  unfold isGroupLinkedToDns, GetAccountNameServerGroups, guarded, withAccount.
  rewrite Hf, Ha.
  destruct (findLinkedDns_spec (Group_ID g) (Account_NameServerGroups a))
    as [(d & _ & Hin & Hl)|[-> _]].
  { destruct (Hnone "name server groups" (NSGroup_Name d)).
    apply (linked_dns _ _ _ d Hin). by apply dnsGroupLinks_true. }
  unfold isGroupLinkedToPolicy, GetAccountPolicies, guarded, withAccount.
  rewrite Hf, Ha.
  destruct (findLinkedPolicy_spec (Group_ID g) (Account_Policies a))
    as [(p & _ & Hin & Hl)|[-> _]].
  { destruct (Hnone "policy" (Policy_Name p)).
    apply ruleLinks_true in Hl as (rule & Hr & Hsd).
    by apply (linked_policy _ _ _ p rule). }
  unfold isGroupLinkedToSetupKey, GetAccountSetupKeys, guarded, withAccount.
  rewrite Hf, Ha.
  destruct (findLinkedSetupKey_spec (Group_ID g) (Account_SetupKeys a))
    as [(k & _ & Hin & Hl)|[-> _]].
  { destruct (Hnone "setup key" (SetupKey_Name k)).
    apply (linked_setup_key _ _ _ k Hin). by apply slices_Contains_true. }
  unfold isGroupLinkedToUser, GetAccountUsers, guarded, withAccount.
  rewrite Hf, Ha.
  destruct (findLinkedUser_spec (Group_ID g)
              (filter (λ u, User_AccountID u = Group_AccountID g)
                 (snd <$> map_to_list (users st))))
    as [(u & _ & Hin & Hl)|[-> _]].
  { destruct (Hnone "user" (User_Id u)).
    apply accountUsers_elem in Hin as [Hacc (uid & Hu)].
    apply (linked_user _ _ _ uid u Hu Hacc). by apply slices_Contains_true. }
  unfold checkGroupLinkedToSettings, GetAccountDNSSettings, GetAccountSettings,
    guarded, withAccount.
  rewrite !Hf, Ha.
  destruct (slices_Contains (DisabledManagementGroups (Account_DNSSettings a))
              (Group_ID g)) eqn:Hdis.
  { destruct (Hnone "disabled DNS management groups" (Group_Name g)).
    apply linked_dns_disabled. by apply slices_Contains_true. }
  destruct (Settings_Extra (Account_Settings a)) as [extra|] eqn:Hextra;
    [|discriminate].
  destruct (slices_Contains (IntegratedValidatorGroups extra) (Group_ID g))
    eqn:Hval; [|discriminate].
  destruct (Hnone "integrated validator" (Group_Name g)).
  apply (linked_validator _ _ _ extra Hextra). by apply slices_Contains_true.
Qed.

(** X22. An unreferenced group can be deleted. On a store whose calls
    succeed, [DeleteGroup] by a permitted requester (an admin service user
    when the group is integration-issued) of a group of the account that is
    not ALL and that nothing references returns nil, removes the group,
    stores one GroupDeleted event for it, increments the serial and changes
    no other group. *)
Theorem unreferenced_group_is_deleted (IsGroupAll : Group → bool)
    (am : DefaultAccountManager) (accountID userID groupID : string)
    (a : Account) (g : Group) :
  checkRequester (AM_Store am) accountID userID = None →
  (∀ op, faults (AM_Store am) op = false) →
  accounts (AM_Store am) !! accountID = Some a →
  Account_Groups a !! groupID = Some g →
  Group_AccountID g = accountID →
  IsGroupAll g = false →
  (Group_Issued g = GroupIssuedIntegration →
   ∃ u, users (AM_Store am) !! userID = Some u
        ∧ User_Role u = UserRoleAdmin ∧ User_IsServiceUser u = true) →
  (∀ res name, ¬ GroupLinked (AM_Store am) a g res name) →
  ∃ am',
    DeleteGroup IsGroupAll am accountID userID groupID = (None, am')
    ∧ groupOf (AM_Store am') accountID groupID = None
    ∧ (∀ acc gid, (acc, gid) ≠ (accountID, groupID) →
                  groupOf (AM_Store am') acc gid = groupOf (AM_Store am) acc gid)
    ∧ AM_events am'
      = AM_events am ++ [mkEvent userID (Group_ID g) accountID GroupDeleted
                           (GroupEventMeta g)]
    ∧ serialOf (AM_Store am') accountID = S (Account_Serial a).
Proof.
  intros Hreq Hf Ha Hg Hacc Hall Hperm Hnone.
  assert (groupOf (AM_Store am) accountID groupID = Some g) as Hgo.
  { unfold groupOf. rewrite Ha. exact Hg. }
  assert (validateDeleteGroup IsGroupAll (AM_Store am) g userID = None) as Hv.
  { apply (validateDeleteGroup_unlinked _ _ a); try done. by rewrite Hacc. }
  destruct (IncrementNetworkSerial (AM_Store am) LockingStrengthUpdate accountID)
    as [tx1|e] eqn:Htx1.
  2: { exfalso. unfold IncrementNetworkSerial, guarded, withAccount in Htx1.
       rewrite Hf, Ha in Htx1. discriminate. }
  pose proof (IncrementNetworkSerial_Ok _ _ _ _ Htx1) as (Hs & Hgr & Hf1).
  destruct (Store_DeleteGroups tx1 LockingStrengthUpdate accountID [groupID])
    as [tx2|e] eqn:Htx2.
  2: { exfalso. unfold Store_DeleteGroups, guarded, withAccount in Htx2.
       rewrite Hf1, Hf in Htx2.
       unfold serialOf in Hs. rewrite Ha in Hs.
       destruct (accounts tx1 !! accountID); discriminate. }
  pose proof (Store_DeleteGroups_Ok _ _ _ _ _ Htx2) as (Hs2 & Hgr2).
  unfold DeleteGroup, DeleteGroups. rewrite Hreq.
  unfold ExecuteInTransaction, DeleteGroups_tx.
  cbn [DeleteGroups_loop].
  rewrite (GetGroupByID_of_groupOf _ _ _ _ g), Hv by done.
  cbn [groupIDsToDelete deletedGroups allErrors app].
  rewrite Htx1, Htx2, Hf.
  eexists. split; [reflexivity|].
  cbn [AM_Store AM_events map].
  split; [|split; [|split]].
  - rewrite Hgr2, decide_True; [done|]. split; [done|left].
  - intros acc gid Hne. rewrite Hgr2, Hgr.
    rewrite decide_False; [done|].
    intros [<- ->%list_elem_of_singleton]. done.
  - done.
  - rewrite Hs2, Hs. unfold serialOf. by rewrite Ha.
Qed.

Lemma unreferenced_group_is_deleted_witness :
  ∃ am',
    DeleteGroup exIsGroupAll exAM "acc1" "admin" "misc" = (None, am')
    ∧ groupOf (AM_Store am') "acc1" "misc" = None
    ∧ (∀ acc gid, (acc, gid) ≠ ("acc1", "misc") →
                  groupOf (AM_Store am') acc gid = groupOf exStore acc gid)
    ∧ AM_events am'
      = [mkEvent "admin" "misc" "acc1" GroupDeleted
           (GroupEventMeta (mkGroup "misc" "acc1" "misc" GroupIssuedAPI []))]
    ∧ serialOf (AM_Store am') "acc1" = 8.
Proof.
  apply (unreferenced_group_is_deleted exIsGroupAll exAM "acc1" "admin" "misc"
           exAccount1 (mkGroup "misc" "acc1" "misc" GroupIssuedAPI []));
    try reflexivity.
  - intros H. discriminate H.
  - intros res name Hlink.
    destruct (validateDeleteGroup_linked exIsGroupAll exStore exAccount1
                (mkGroup "misc" "acc1" "misc" GroupIssuedAPI []) "admin")
      as (r & n & _ & Hv); try reflexivity.
    + intros H. discriminate H.
    + eauto.
    + vm_compute in Hv. discriminate Hv.
Defined.

Lemma anyGroupHasPeers_exactly_witness :
  anyGroupHasPeers exHasPeers exAccount1 ["gone"; "misc"; "eng"] = true.
Proof.
  apply (anyGroupHasPeers_exactly exHasPeers exAccount1 ["gone"; "misc"; "eng"]).
  exists "eng", (mkGroup "eng" "acc1" "eng" GroupIssuedAPI ["p1"]).
  split; [right; right; left|]. split; reflexivity.
Defined.
